(** * Fund-document pipeline: table parser and text chunker

    A shallow embedding of [backend/app/services/table_parser.py] and
    [backend/app/services/document_processor.py].

    Python [str] values are modelled as lists of characters whose code
    points are below 256 (one [ascii] per code point); Python [int]s as [Z]
    (or [nat] for counters and lengths, which are never negative);
    exceptions and the mutable collaborators (database session, vector
    store) through a small state-and-exception monad over the history of
    collaborator calls.  Table cells are strings, as the signatures of
    the table parser declare ([List[List[str]]]). *)

From Stdlib Require Import Ascii String ZArith NArith Lia Bool Arith List.
From Stdlib Require Import DecimalString QArith Qabs Qpower Sorted.
Import ListNotations.
Close Scope Q_scope.
Close Scope Z_scope.

(** ** Python strings *)

Definition str := list ascii.

Definition lit (x : string) : str := list_ascii_of_string x.

Module PyStr.

Definition code (c : ascii) : N := N_of_ascii c.

(** [str.isspace] on one character, which is also what [\s] matches in a
    [str] pattern: TAB..CR, FS..US, SPACE, NEL and NBSP. *)
Definition is_space (c : ascii) : bool :=
  let n := code c in
  ((9 <=? n) && (n <=? 13) || (28 <=? n) && (n <=? 32)
   || (n =? 133) || (n =? 160))%N.

(** [\d] in a [str] pattern; the only decimal digits below 256 are 0-9. *)
Definition is_digit (c : ascii) : bool :=
  let n := code c in ((48 <=? n) && (n <=? 57))%N.

Definition digit_val (c : ascii) : N := (code c - 48)%N.

(** [str.lower] on one character. *)
Definition lower_char (c : ascii) : ascii :=
  let n := code c in
  if ((65 <=? n) && (n <=? 90)
      || (192 <=? n) && (n <=? 222) && negb (n =? 215))%N
  then ascii_of_N (n + 32) else c.

Definition lower (x : str) : str := map lower_char x.

Fixpoint eqb (x y : str) : bool :=
  match x, y with
  | [], [] => true
  | a :: x', b :: y' => Ascii.eqb a b && eqb x' y'
  | _, _ => false
  end.

(** [y.startswith(x)] *)
Fixpoint is_prefix (x y : str) : bool :=
  match x, y with
  | [], _ => true
  | a :: x', b :: y' => Ascii.eqb a b && is_prefix x' y'
  | _ :: _, [] => false
  end.

(** [x in y] for strings: [x] occurs in [y] as a substring. *)
Fixpoint contains (x y : str) : bool :=
  is_prefix x y ||
  match y with
  | [] => false
  | _ :: y' => contains x y'
  end.

Fixpoint lstrip (x : str) : str :=
  match x with
  | [] => []
  | c :: x' => if is_space c then lstrip x' else x
  end.

Definition rstrip (x : str) : str := rev (lstrip (rev x)).

(** [x.strip()] *)
Definition strip (x : str) : str := rstrip (lstrip x).

(** Truth value of a string: [if x:] holds for the non-empty ones. *)
Definition truthy (x : str) : bool :=
  match x with [] => false | _ :: _ => true end.

Definition len (x : str) : Z := Z.of_nat (length x).

(** [x.split()] with no argument: the maximal runs of non-space
    characters. *)
Fixpoint split_ws (x : str) : list str :=
  match x with
  | [] => []
  | c :: x' =>
      if is_space c then split_ws x'
      else
        match x' with
        | [] => [[c]]
        | d :: _ =>
            if is_space d then [c] :: split_ws x'
            else
              match split_ws x' with
              | w :: ws => (c :: w) :: ws
              | [] => [[c]]
              end
        end
  end.

(** [x.split('\n\n')]: cut at the occurrences of two line feeds, scanning
    from the left; [acc] is the piece being read, reversed. *)
Fixpoint split_nn_aux (acc x : str) : list str :=
  match x with
  | [] => [rev acc]
  | c :: x' =>
      match x' with
      | d :: x'' =>
          if ((code c =? 10) && (code d =? 10))%N
          then rev acc :: split_nn_aux [] x''
          else split_nn_aux (c :: acc) x'
      | [] => split_nn_aux (c :: acc) x'
      end
  end.

Definition split_nn (x : str) : list str := split_nn_aux [] x.

(** [x.rfind(sub)]: the highest index at which [sub] occurs, or -1. *)
Fixpoint rfind_aux (sub x : str) (i best : Z) : Z :=
  let best' := if is_prefix sub x then i else best in
  match x with
  | [] => best'
  | _ :: x' => rfind_aux sub x' (i + 1) best'
  end.

Definition rfind (x sub : str) : Z := rfind_aux sub x 0 (-1).

(** [x[i:]] for an arbitrary integer [i]. *)
Definition slice_from (x : str) (i : Z) : str :=
  let n := len x in
  let start := if (i <? 0)%Z then Z.max 0 (i + n) else Z.min i n in
  skipn (Z.to_nat start) x.

Definition is_sentence_end (c : ascii) : bool :=
  let n := code c in ((n =? 46) || (n =? 33) || (n =? 63))%N.

(** [re.split(r'(?<=[.!?])\s+', x)].  A match starts at a space that
    follows one of [.!?] and runs to the end of that run of spaces.
    [prev_end] tells whether the previous character was one of [.!?];
    [skipping] that a separator is being consumed. *)
Fixpoint split_sentences_aux (skipping prev_end : bool) (acc x : str)
  : list str :=
  match x with
  | [] => [rev acc]
  | c :: x' =>
      if is_space c then
        if skipping then split_sentences_aux true false acc x'
        else if prev_end then rev acc :: split_sentences_aux true false [] x'
        else split_sentences_aux false false (c :: acc) x'
      else split_sentences_aux false (is_sentence_end c) (c :: acc) x'
  end.

Definition split_sentences (x : str) : list str :=
  split_sentences_aux false false [] x.

End PyStr.

Import PyStr.

Definition SP : str := lit " ".
Definition NLNL : str := [ascii_of_N 10; ascii_of_N 10].

(** ** Text chunker ([DocumentProcessor._chunk_text] and helpers) *)

Record PageContent := { pc_page : Z; pc_text : str }.

Record Chunk := { text : str; page : Z; chunk_index : nat }.

Section Chunker.

(** [settings.CHUNK_SIZE] and [settings.CHUNK_OVERLAP] of
    [app.core.config]. *)
Variable CHUNK_SIZE : Z.
Variable CHUNK_OVERLAP : Z.

(** [_get_overlap_text] *)
Definition get_overlap_text (t : str) : str :=
  if (len t <=? CHUNK_OVERLAP)%Z then t
  else
    let overlap := slice_from t (- CHUNK_OVERLAP) in
    let sentence_end :=
      Z.max (Z.max (rfind overlap (lit ". ")) (rfind overlap (lit "! ")))
            (rfind overlap (lit "? ")) in
    if (sentence_end >? 0)%Z then slice_from overlap (sentence_end + 2)
    else overlap.

(** The loops carry the list of chunks, the running index and the
    buffer [current_chunk]. *)
Definition LoopState : Type := (list Chunk * nat * str)%type.

(** [chunks.append({...}); chunk_index += 1], when the buffer is
    non-empty. *)
Definition flush_if_current (pg : Z) (st : LoopState) : list Chunk * nat :=
  let '(chunks, idx, cur) := st in
  if truthy cur
  then (chunks ++ [{| text := strip cur; page := pg; chunk_index := idx |}],
        S idx)
  else (chunks, idx).

Definition join_with (sep cur x : str) : str :=
  cur ++ (if truthy cur then sep else []) ++ x.

(** Body of [for word in words]. *)
Definition word_step (pg : Z) (st : LoopState) (word : str) : LoopState :=
  let '(chunks, idx, cur) := st in
  if (len cur + len word >? CHUNK_SIZE)%Z then
    let '(chunks', idx') := flush_if_current pg st in
    (chunks', idx', word)
  else (chunks, idx, join_with SP cur word).

(** Body of [for sentence in sentences]. *)
Definition sentence_step (pg : Z) (st : LoopState) (sentence : str)
  : LoopState :=
  let '(chunks, idx, cur) := st in
  if (len cur + len sentence >? CHUNK_SIZE)%Z then
    let '(chunks', idx') := flush_if_current pg st in
    if (len sentence >? CHUNK_SIZE)%Z then
      fold_left (word_step pg) (split_ws sentence) (chunks', idx', [])
    else (chunks', idx', sentence)
  else (chunks, idx, join_with SP cur sentence).

(** The closing [if current_chunk.strip(): chunks.append(...)] of
    [_split_large_paragraph]; the index is not advanced. *)
Definition final_chunk (pg : Z) (st : LoopState) : list Chunk :=
  let '(chunks, idx, cur) := st in
  if truthy (strip cur)
  then chunks ++ [{| text := strip cur; page := pg; chunk_index := idx |}]
  else chunks.

(** [_split_large_paragraph] *)
Definition split_large_paragraph (paragraph : str) (pg : Z)
           (start_index : nat) : list Chunk :=
  final_chunk pg
    (fold_left (sentence_step pg) (split_sentences paragraph)
               ([], start_index, [])).

(** Body of [for paragraph in paragraphs]. *)
Definition paragraph_step (pg : Z) (st : LoopState) (paragraph0 : str)
  : LoopState :=
  let '(chunks, idx, cur) := st in
  let paragraph := strip paragraph0 in
  if negb (truthy paragraph) then st
  else if (len cur + len paragraph >? CHUNK_SIZE)%Z then
    if truthy cur then
      (chunks ++ [{| text := strip cur; page := pg; chunk_index := idx |}],
       S idx,
       get_overlap_text cur ++ SP ++ paragraph)
    else
      let para_chunks := split_large_paragraph paragraph pg idx in
      (chunks ++ para_chunks, idx + length para_chunks, [])
  else (chunks, idx, join_with NLNL cur paragraph).

(** Body of [for page_content in text_content], with the
    "save remaining chunk" step that ends it. *)
Definition page_step (st : list Chunk * nat) (pc : PageContent)
  : list Chunk * nat :=
  let '(chunks, idx) := st in
  let pg := pc_page pc in
  let '(chunks', idx', cur) :=
    fold_left (paragraph_step pg) (split_nn (pc_text pc)) (chunks, idx, [])
  in
  if truthy (strip cur)
  then (chunks' ++ [{| text := strip cur; page := pg; chunk_index := idx' |}],
        S idx')
  else (chunks', idx').

(** [_chunk_text] *)
Definition chunk_text (text_content : list PageContent) : list Chunk :=
  fst (fold_left page_step text_content ([], 0)).

End Chunker.


(** ** Exceptions *)

(** The exception classes the code can meet ([Exception] subclasses only). *)
Inductive ExnClass :=
| ValueError
| IndexError
| InvalidOperation   (* decimal.InvalidOperation *)
| DecimalOverflow    (* decimal.Overflow *)
| OtherException (name : string).

Record Exn := { exn_class : ExnClass; exn_msg : str }.

Inductive outcome (A : Type) :=
| Ok (a : A)
| Raise (e : Exn).
Arguments Ok {A} a.
Arguments Raise {A} e.

Definition is_ValueError (e : Exn) : bool :=
  match exn_class e with ValueError => true | _ => false end.

(** [str(n)] for a non-negative integer. *)
Definition str_of_nat (n : nat) : str :=
  lit (NilZero.string_of_uint (Nat.to_uint n)).

(** [xs[i]] *)
Definition getitem {A} (xs : list A) (i : nat) : outcome A :=
  match nth_error xs i with
  | Some a => Ok a
  | None =>
      Raise {| exn_class := IndexError; exn_msg := lit "list index out of range" |}
  end.

(** Truth value of a list: [not xs] holds for the empty one. *)
Definition nonempty {A} (xs : list A) : bool :=
  match xs with [] => false | _ :: _ => true end.

(** [sep.join(xs)] *)
Fixpoint join (sep : str) (xs : list str) : str :=
  match xs with
  | [] => []
  | [x] => x
  | x :: xs' => x ++ sep ++ join sep xs'
  end.

(** ** [decimal.Decimal] under the default context *)

Record Decimal := { d_sign : bool; d_coef : N; d_exp : Z }.

Module Dec.

Definition prec : Z := 28.
Definition Emax : Z := 999999.
Definition Emin : Z := -999999.
Definition Etiny : Z := Emin - prec + 1.
Definition Etop : Z := Emax - prec + 1.

(** Value of a run of digits read as a base-10 numeral. *)
Definition digits_val (ds : str) : N :=
  fold_left (fun acc c => (10 * acc + digit_val c)%N) ds 0%N.

(** [len(str(n))]: the number of decimal digits of [n]. *)
Fixpoint ndigits_aux (fuel : nat) (n : N) : nat :=
  match fuel with
  | O => 1
  | S f => if (n <? 10)%N then 1 else S (ndigits_aux f (n / 10))
  end.

Definition ndigits (n : N) : Z := Z.of_nat (ndigits_aux (N.size_nat n) n).

Definition is_sign (c : ascii) : bool :=
  ((code c =? 43) || (code c =? 45))%N.

Definition is_minus (c : ascii) : bool := (code c =? 45)%N.

Definition is_point (c : ascii) : bool := (code c =? 46)%N.

(** Longest prefix of digits, and what follows it. *)
Fixpoint span_digits (x : str) : str * str :=
  match x with
  | [] => ([], [])
  | c :: x' =>
      if is_digit c
      then let '(ds, r) := span_digits x' in (c :: ds, r)
      else ([], x)
  end.

Definition invalid_syntax : Exn :=
  {| exn_class := InvalidOperation;
     exn_msg := lit "[<class 'decimal.ConversionSyntax'>]" |}.

(** [Decimal(x)] for a string over the characters [0-9 . + -] (all that
    [_parse_amount] passes): an optional sign, then digits with at most
    one point and at least one digit, and nothing else.  The conversion
    is exact. *)
Definition of_str (x : str) : outcome Decimal :=
  let '(sign, body) :=
    match x with
    | c :: x' => if is_sign c then (is_minus c, x') else (false, x)
    | [] => (false, x)
    end in
  let '(ip, r) := span_digits body in
  let '(fp, r') :=
    match r with
    | c :: r0 => if is_point c then span_digits r0 else ([], r)
    | [] => ([], r)
    end in
  match r' with
  | _ :: _ => Raise invalid_syntax
  | [] =>
      if truthy ip || truthy fp
      then Ok {| d_sign := sign;
                 d_coef := digits_val (ip ++ fp);
                 d_exp := - len fp |}
      else Raise invalid_syntax
  end.

(** [d < 0] *)
Definition ltb0 (d : Decimal) : bool :=
  d_sign d && negb (d_coef d =? 0)%N.

(** [d <= 0] *)
Definition leb0 (d : Decimal) : bool :=
  d_sign d || (d_coef d =? 0)%N.

(** [bool(d)] *)
Definition nonzero (d : Decimal) : bool := negb (d_coef d =? 0)%N.

(** Drop the last [k] digits of [c], rounding half to even. *)
Definition round_half_even (c : N) (k : Z) : N :=
  let p := (10 ^ Z.to_N k)%N in
  let q := (c / p)%N in
  let r := (c mod p)%N in
  if ((p <? 2 * r) || ((2 * r =? p) && N.odd q))%N then (q + 1)%N else q.

Definition overflow : Exn :=
  {| exn_class := DecimalOverflow;
     exn_msg := lit "[<class 'decimal.Overflow'>]" |}.

(** Rounding of a result to the context ([Decimal._fix]): at most [prec]
    digits, exponent within the context's range; [Overflow] is trapped,
    the other signals are not. *)
Definition fix_ (d : Decimal) : outcome Decimal :=
  if (d_coef d =? 0)%N then
    Ok {| d_sign := d_sign d; d_coef := 0;
          d_exp := Z.min (Z.max (d_exp d) Etiny) Emax |}
  else
    let exp_min0 := (ndigits (d_coef d) + d_exp d - prec)%Z in
    if (exp_min0 >? Etop)%Z then Raise overflow
    else
      let exp_min := Z.max exp_min0 Etiny in
      if (d_exp d <? exp_min)%Z then
        let c := round_half_even (d_coef d) (exp_min - d_exp d) in
        let '(c', e') :=
          if (ndigits c >? prec)%Z then ((c / 10)%N, (exp_min + 1)%Z)
          else (c, exp_min) in
        if (e' >? Etop)%Z then Raise overflow
        else Ok {| d_sign := d_sign d; d_coef := c'; d_exp := e' |}
      else Ok d.

(** [abs(d)]: the sign is cleared and the result rounded to the
    context. *)
Definition abs (d : Decimal) : outcome Decimal :=
  fix_ {| d_sign := false; d_coef := d_coef d; d_exp := d_exp d |}.

(** The number a [Decimal] stands for: [(-1)^sign * coef * 10^exp]. *)
Definition value (d : Decimal) : Q :=
  ((if d_sign d then -1 else 1) * inject_Z (Z.of_N (d_coef d))
   * Qpower 10 (d_exp d))%Q.

End Dec.

(** ** Value parsers of [TableParser] *)

(** [re.sub(r'[^\d.\-\+]', '', x)] keeps exactly these characters. *)
Definition amount_char (c : ascii) : bool :=
  is_digit c || Dec.is_point c || Dec.is_sign c.

(** The body of the [try] block of [_parse_amount]. *)
Definition convert_amount (cleaned : str) (allow_negative : bool)
  : outcome (option Decimal) :=
  match Dec.of_str cleaned with
  | Raise e => Raise e
  | Ok amount =>
      if negb allow_negative && Dec.ltb0 amount then
        match Dec.abs amount with
        | Raise e => Raise e
        | Ok a => Ok (Some a)
        end
      else Ok (Some amount)
  end.

(** [_parse_amount]; the last [match] is [except Exception: return None]. *)
Definition parse_amount (amount_str : str) (allow_negative : bool)
  : outcome (option Decimal) :=
  if negb (truthy amount_str) || negb (truthy (strip amount_str))
  then Ok None
  else
    let cleaned := filter amount_char (strip amount_str) in
    if negb (truthy cleaned) then Ok None
    else
      match convert_amount cleaned allow_negative with
      | Raise _ => Ok None
      | Ok r => Ok r
      end.

(** ** [datetime.strptime] for the directives the parser uses *)

Record DateTime := { year : Z; month : Z; day : Z }.

Module Strptime.

Inductive directive :=
| D_Y                 (* %Y : four digits *)
| D_m                 (* %m : 1[0-2]|0[1-9]|[1-9] *)
| D_d                 (* %d : 3[0-1]|[1-2]\d|0[1-9]|[1-9]| [1-9] *)
| D_b                 (* %b : abbreviated month name *)
| D_B                 (* %B : full month name *)
| D_ws                (* a run of spaces in the format: \s+ *)
| D_lit (c : ascii)   (* any other character, matched ignoring case *)
| D_bad.              (* a directive outside this model *)

(** Translation of a format string into its sequence of directives. *)
Fixpoint compile_aux (in_ws : bool) (f : str) : list directive :=
  match f with
  | [] => []
  | c :: f' =>
      if is_space c then
        if in_ws then compile_aux true f' else D_ws :: compile_aux true f'
      else if (code c =? 37)%N then
        match f' with
        | k :: f'' =>
            (if (code k =? 89)%N then D_Y
             else if (code k =? 109)%N then D_m
             else if (code k =? 100)%N then D_d
             else if (code k =? 98)%N then D_b
             else if (code k =? 66)%N then D_B
             else D_bad) :: compile_aux false f''
        | [] => [D_bad]
        end
      else D_lit c :: compile_aux false f'
  end.

Definition compile (f : str) : list directive := compile_aux false f.

(** English month names, as [calendar.month_name] and
    [calendar.month_abbr] give them in the C locale, lower-cased. *)
Definition month_names : list str :=
  map lit ["january"; "february"; "march"; "april"; "may"; "june"; "july";
           "august"; "september"; "october"; "november";
           "december"]%string.

Definition month_abbrs : list str :=
  map lit ["jan"; "feb"; "mar"; "apr"; "may"; "jun"; "jul"; "aug"; "sep";
           "oct"; "nov"; "dec"]%string.

(** The fields a match has bound so far. *)
Record fields := { f_Y : Z; f_m : Z; f_d : Z }.

Definition set_Y v (fs : fields) := {| f_Y := v; f_m := f_m fs; f_d := f_d fs |}.
Definition set_m v (fs : fields) := {| f_Y := f_Y fs; f_m := v; f_d := f_d fs |}.
Definition set_d v (fs : fields) := {| f_Y := f_Y fs; f_m := f_m fs; f_d := v |}.

Definition num (ds : str) : Z := Z.of_N (Dec.digits_val ds).

Definition in_range (lo hi : N) (c : ascii) : bool :=
  ((lo <=? code c) && (code c <=? hi))%N.

(** Alternatives of [%m], in the order the pattern lists them; each
    gives the value read and the rest of the input. *)
Definition alts_m (x : str) : list (Z * str) :=
  (match x with
   | a :: b :: r =>
       if (code a =? 49)%N && in_range 48 50 b then [(num [a; b], r)] else []
   | _ => []
   end) ++
  (match x with
   | a :: b :: r =>
       if (code a =? 48)%N && in_range 49 57 b then [(num [a; b], r)] else []
   | _ => []
   end) ++
  (match x with
   | a :: r => if in_range 49 57 a then [(num [a], r)] else []
   | _ => []
   end).

(** Alternatives of [%d]. *)
Definition alts_d (x : str) : list (Z * str) :=
  (match x with
   | a :: b :: r =>
       if (code a =? 51)%N && in_range 48 49 b then [(num [a; b], r)] else []
   | _ => []
   end) ++
  (match x with
   | a :: b :: r =>
       if in_range 49 50 a && is_digit b then [(num [a; b], r)] else []
   | _ => []
   end) ++
  (match x with
   | a :: b :: r =>
       if (code a =? 48)%N && in_range 49 57 b then [(num [a; b], r)] else []
   | _ => []
   end) ++
  (match x with
   | a :: r => if in_range 49 57 a then [(num [a], r)] else []
   | _ => []
   end) ++
  (match x with
   | a :: b :: r =>
       if (code a =? 32)%N && in_range 49 57 b then [(num [b], r)] else []
   | _ => []
   end).

Definition alts_Y (x : str) : list (Z * str) :=
  match x with
  | a :: b :: c :: d :: r =>
      if is_digit a && is_digit b && is_digit c && is_digit d
      then [(num [a; b; c; d], r)] else []
  | _ => []
  end.

(** The names of [names] that start [x], ignoring case, longest first
    (no name of either table starts another one, so at most one does);
    the value is the month number. *)
Fixpoint alts_name (i : Z) (names : list str) (x : str) : list (Z * str) :=
  match names with
  | [] => []
  | n :: names' =>
      (if is_prefix n (lower (firstn (List.length n) x))
       then [(i, skipn (List.length n) x)] else [])
      ++ alts_name (i + 1) names' x
  end.

(** [\s+] is greedy: the longest run first, then shorter ones. *)
Fixpoint alts_ws (x : str) : list str :=
  match x with
  | c :: r => if is_space c then alts_ws r ++ [r] else []
  | [] => []
  end.

Definition alts (d : directive) (fs : fields) (x : str)
  : list (fields * str) :=
  match d with
  | D_Y => map (fun '(v, r) => (set_Y v fs, r)) (alts_Y x)
  | D_m => map (fun '(v, r) => (set_m v fs, r)) (alts_m x)
  | D_d => map (fun '(v, r) => (set_d v fs, r)) (alts_d x)
  | D_b => map (fun '(v, r) => (set_m v fs, r)) (alts_name 1 month_abbrs x)
  | D_B => map (fun '(v, r) => (set_m v fs, r)) (alts_name 1 month_names x)
  | D_ws => map (fun r => (fs, r)) (alts_ws x)
  | D_lit c =>
      match x with
      | a :: r => if Ascii.eqb (lower_char a) (lower_char c) then [(fs, r)] else []
      | [] => []
      end
  | D_bad => []
  end.

(** All the ways the compiled pattern matches a prefix of [x], in the
    order a backtracking matcher finds them. *)
Fixpoint matches (ds : list directive) (fs : fields) (x : str)
  : list (fields * str) :=
  match ds with
  | [] => [(fs, x)]
  | d :: ds' => flat_map (fun '(fs', r) => matches ds' fs' r) (alts d fs x)
  end.

Definition is_leap (y : Z) : bool :=
  ((y mod 4 =? 0) && (negb (y mod 100 =? 0) || (y mod 400 =? 0)))%Z.

Definition days_in_month (y m : Z) : Z :=
  if (m =? 2)%Z then (if is_leap y then 29 else 28)
  else if ((m =? 4) || (m =? 6) || (m =? 9) || (m =? 11))%Z then 30
  else 31.

Definition value_error (msg : string) : Exn :=
  {| exn_class := ValueError; exn_msg := lit msg |}.

Definition has_bad (ds : list directive) : bool :=
  existsb (fun d => match d with D_bad => true | _ => false end) ds.

(** [datetime.strptime(x, fmt)]: the first match of the pattern must use
    up the whole input and name a real calendar day. *)
Definition strptime (x fmt : str) : outcome DateTime :=
  let ds := compile fmt in
  if has_bad ds then Raise (value_error "bad directive in format")
  else
    match matches ds {| f_Y := 1900; f_m := 1; f_d := 1 |} x with
    | [] => Raise (value_error "time data does not match format")
    | (fs, r) :: _ =>
        if truthy r then Raise (value_error "unconverted data remains")
        else if ((1 <=? f_Y fs) && (f_Y fs <=? 9999) && (1 <=? f_m fs)
                 && (f_m fs <=? 12) && (1 <=? f_d fs)
                 && (f_d fs <=? days_in_month (f_Y fs) (f_m fs)))%Z
        then Ok {| year := f_Y fs; month := f_m fs; day := f_d fs |}
        else Raise (value_error "day is out of range for month")
    end.

End Strptime.

Definition date_formats : list str :=
  map lit ["%Y-%m-%d"; "%m/%d/%Y"; "%d/%m/%Y"; "%Y/%m/%d"; "%m-%d-%Y";
           "%d-%m-%Y"; "%b %d, %Y"; "%B %d, %Y"; "%d %b %Y";
           "%d %B %Y"]%string.

(** The loop [for fmt in date_formats: try: return strptime(...) except
    ValueError: continue], followed by [return None]. *)
Fixpoint try_formats (x : str) (fmts : list str) : outcome (option DateTime) :=
  match fmts with
  | [] => Ok None
  | fmt :: fmts' =>
      match Strptime.strptime x fmt with
      | Ok d => Ok (Some d)
      | Raise e => if is_ValueError e then try_formats x fmts' else Raise e
      end
  end.

(** [_parse_date] *)
Definition parse_date (date_str : str) : outcome (option DateTime) :=
  if negb (truthy date_str) || negb (truthy (strip date_str))
  then Ok None
  else try_formats (strip date_str) date_formats.

(** ** Table classification and column location *)

Definition Table : Type := list (list str).

Inductive TableType := capital_call | distribution | adjustment.

Definition capital_call_keywords : list str :=
  map lit ["capital call"; "capital contribution"; "drawdown"; "call date";
           "call number"; "contribution date"]%string.

Definition distribution_keywords : list str :=
  map lit ["distribution"; "return of capital"; "dividend";
           "distribution date"; "payment"; "return"]%string.

Definition adjustment_keywords : list str :=
  map lit ["adjustment"; "rebalance"; "recall"; "recallable"; "correction";
           "amendment"]%string.

(** [" ".join(cell.lower() for cell in row)] *)
Definition row_text (row : list str) : str := join SP (map lower row).

(** The search buffer of [_classify_table]: the first three rows. *)
Definition header_text (table : Table) : str :=
  join SP (map row_text (firstn 3 table)).

(** [sum(1 for kw in keywords if kw in text)] *)
Definition score (keywords : list str) (t : str) : nat :=
  List.length (filter (fun kw => contains kw t) keywords).

Definition capital_score (table : Table) : nat :=
  score capital_call_keywords (header_text table).
Definition distribution_score (table : Table) : nat :=
  score distribution_keywords (header_text table).
Definition adjustment_score (table : Table) : nat :=
  score adjustment_keywords (header_text table).

Definition max_score (table : Table) : nat :=
  Nat.max (Nat.max (capital_score table) (distribution_score table))
          (adjustment_score table).

(** [_classify_table]; [None] is the unclassified outcome. *)
Definition classify_table (table : Table) : option TableType :=
  match table with
  | [] => None
  | _ :: _ =>
      if max_score table =? 0 then None
      else if capital_score table =? max_score table then Some capital_call
      else if distribution_score table =? max_score table
           then Some distribution
      else Some adjustment
  end.

Definition header_keywords : list str :=
  map lit ["date"; "amount"; "type"; "description"]%string.

Fixpoint find_header_row_aux (idx : nat) (rows : Table) : option nat :=
  match rows with
  | [] => Some 0
  | row :: rows' =>
      if existsb (fun kw => contains kw (row_text row)) header_keywords
      then Some idx
      else find_header_row_aux (S idx) rows'
  end.

(** [_find_header_row] *)
Definition find_header_row (table : Table) : option nat :=
  find_header_row_aux 0 (firstn 3 table).

Fixpoint find_column_aux (idx : nat) (headers possible_names : list str)
  : option nat :=
  match headers with
  | [] => None
  | header :: headers' =>
      if existsb (fun name => contains name header) possible_names
      then Some idx
      else find_column_aux (S idx) headers' possible_names
  end.

(** [_find_column] *)
Definition find_column (headers possible_names : list str) : option nat :=
  find_column_aux 0 headers possible_names.

(** ** Collaborators: persistence session, vector store, extraction *)

Inductive Transaction :=
| CapitalCall (fund_id : Z) (call_date : DateTime) (call_type : str)
              (amount : Decimal) (description : str)
| Distribution (fund_id : Z) (distribution_date : DateTime)
               (distribution_type : str) (is_recallable : bool)
               (amount : Decimal) (description : str)
| Adjustment (fund_id : Z) (adjustment_date : DateTime)
             (adjustment_type category : str) (amount : Decimal)
             (is_contribution_adjustment : bool) (description : str).

Record Metadata :=
  { md_document_id : Z; md_fund_id : Z; md_page : Z; md_chunk_index : nat }.

(** The calls the code makes on the outside world. *)
Inductive Call :=
| SessionLocal
| db_add (t : Transaction)
| db_commit
| db_close
| extract_pdf_content (file_path : str)
| add_document (content : str) (metadata : Metadata)
| print (line : str).

(** The calls made so far, oldest first. *)
Definition History : Type := list Call.

(** A computation reads and extends the history, and returns or raises. *)
Definition M (A : Type) : Type := History -> outcome A * History.

Definition ret {A} (a : A) : M A := fun h => (Ok a, h).

Definition bind {A B} (c : M A) (k : A -> M B) : M B :=
  fun h =>
    match c h with
    | (Ok a, h') => k a h'
    | (Raise e, h') => (Raise e, h')
    end.

Notation "x <- c ;; k" := (bind c (fun x => k))
  (at level 61, c at next level, right associativity).
Notation "c ;;; k" := (bind c (fun _ => k))
  (at level 61, right associativity).

Definition lift {A} (o : outcome A) : M A := fun h => (o, h).

(** [try: c except Exception as e: handler e] *)
Definition try_except {A} (c : M A) (handler : Exn -> M A) : M A :=
  fun h =>
    match c h with
    | (Ok a, h') => (Ok a, h')
    | (Raise e, h') => handler e h'
    end.

(** [try: c finally: fin] *)
Definition try_finally {A} (c : M A) (fin : M unit) : M A :=
  fun h =>
    match c h with
    | (r, h') =>
        match fin h' with
        | (Ok _, h'') => (r, h'')
        | (Raise e, h'') => (Raise e, h'')
        end
    end.

Record Stats :=
  { capital_calls : nat; distributions : nat; adjustments : nat;
    errors : list str }.

Record Statistics :=
  { pages_processed : nat; tables_found : nat; st_capital_calls : nat;
    st_distributions : nat; st_adjustments : nat; text_chunks : nat;
    st_errors : list str }.

(** The dictionary [process_document] returns. *)
Inductive Result :=
| completed (statistics : Statistics)
| failed (error : str).

Section Pipeline.

(** How the outside world answers: whether a call raises, given what
    was called before, and what extraction yields when it does not. *)
Variable fails : History -> Call -> option Exn.
Variable pdf_content : History -> str -> list Table * list PageContent.

Variable CHUNK_SIZE : Z.
Variable CHUNK_OVERLAP : Z.

Definition call (c : Call) : M unit :=
  fun h =>
    (match fails h c with Some e => Raise e | None => Ok tt end, h ++ [c]).

Definition do_print (line : str) : M unit :=
  fun h => (Ok tt, h ++ [print line]).

(** The data-row loop shared by the three extractors:
    [for row_idx in range(header_idx + 1, len(table))], with the length
    test and the [try ... except Exception] around the row's body;
    [body] answers whether the row was counted. *)
Fixpoint for_data_rows (what : str) (min_len : nat)
         (body : list str -> M bool) (row_idx : nat) (rows : Table)
         (count : nat) : M nat :=
  match rows with
  | [] => ret count
  | row :: rows' =>
      if List.length row <=? min_len
      then for_data_rows what min_len body (S row_idx) rows' count
      else
        counted <-
          try_except (body row)
            (fun e =>
               do_print (lit "Error parsing " ++ what ++ lit " row "
                         ++ str_of_nat row_idx ++ lit ": " ++ exn_msg e) ;;;
               ret false) ;;
        for_data_rows what min_len body (S row_idx) rows'
                      (if counted then S count else count)
  end.

(** [row[type_col].strip() if type_col is not None and len(row) >
    type_col else default] *)
Definition type_label (row : list str) (type_col : option nat)
           (default : str) : M str :=
  match type_col with
  | Some tc =>
      if tc <? List.length row
      then (cell <- lift (getitem row tc) ;; ret (strip cell))
      else ret default
  | None => ret default
  end.

(** [cell.lower().strip()] over the header row. *)
Definition headers_of (row : list str) : list str :=
  map (fun cell => strip (lower cell)) row.

Definition capital_call_row (fund_id : Z) (date_col amount_col : nat)
           (type_col : option nat) (row : list str) : M bool :=
  date_cell <- lift (getitem row date_col) ;;
  call_date <- lift (parse_date (strip date_cell)) ;;
  match call_date with
  | None => ret false
  | Some call_date =>
      amount_cell <- lift (getitem row amount_col) ;;
      amount <- lift (parse_amount (strip amount_cell) false) ;;
      match amount with
      | None => ret false
      | Some amount =>
          if negb (Dec.nonzero amount) || Dec.leb0 amount then ret false
          else
            call_type <- type_label row type_col (lit "Capital Call") ;;
            call (db_add (CapitalCall fund_id call_date call_type amount
                                      call_type)) ;;;
            ret true
      end
  end.

(** [_parse_capital_calls] *)
Definition parse_capital_calls (table : Table) (fund_id : Z) : M nat :=
  match find_header_row table with
  | None => ret 0
  | Some header_idx =>
      header <- lift (getitem table header_idx) ;;
      let headers := headers_of header in
      let date_col :=
        find_column headers
          (map lit ["date"; "call date"; "contribution date"]%string) in
      let amount_col :=
        find_column headers
          (map lit ["amount"; "call amount"; "contribution"]%string) in
      let type_col :=
        find_column headers
          (map lit ["type"; "call type"; "description"]%string) in
      match date_col, amount_col with
      | Some date_col, Some amount_col =>
          count <-
            for_data_rows (lit "capital call") (Nat.max date_col amount_col)
              (capital_call_row fund_id date_col amount_col type_col)
              (S header_idx) (skipn (S header_idx) table) 0 ;;
          call db_commit ;;;
          ret count
      | _, _ => ret 0
      end
  end.

Definition recallable_tokens : list str :=
  map lit ["yes"; "true"; "y"; "1"]%string.

Definition distribution_row (fund_id : Z) (date_col amount_col : nat)
           (type_col recallable_col : option nat) (row : list str)
  : M bool :=
  date_cell <- lift (getitem row date_col) ;;
  distribution_date <- lift (parse_date (strip date_cell)) ;;
  match distribution_date with
  | None => ret false
  | Some distribution_date =>
      amount_cell <- lift (getitem row amount_col) ;;
      amount <- lift (parse_amount (strip amount_cell) false) ;;
      match amount with
      | None => ret false
      | Some amount =>
          if negb (Dec.nonzero amount) || Dec.leb0 amount then ret false
          else
            dist_type <- type_label row type_col (lit "Distribution") ;;
            is_recallable <-
              match recallable_col with
              | Some rc =>
                  if rc <? List.length row
                  then
                    cell <- lift (getitem row rc) ;;
                    ret (existsb (PyStr.eqb (lower (strip cell)))
                                 recallable_tokens)
                  else ret false
              | None => ret false
              end ;;
            call (db_add (Distribution fund_id distribution_date dist_type
                                       is_recallable amount dist_type)) ;;;
            ret true
      end
  end.

(** [_parse_distributions] *)
Definition parse_distributions (table : Table) (fund_id : Z) : M nat :=
  match find_header_row table with
  | None => ret 0
  | Some header_idx =>
      header <- lift (getitem table header_idx) ;;
      let headers := headers_of header in
      let date_col :=
        find_column headers
          (map lit ["date"; "distribution date"; "payment date"]%string) in
      let amount_col :=
        find_column headers
          (map lit ["amount"; "distribution"; "payment"]%string) in
      let type_col :=
        find_column headers
          (map lit ["type"; "distribution type"; "description"]%string) in
      let recallable_col :=
        find_column headers
          (map lit ["recallable"; "recall"; "is recallable"]%string) in
      match date_col, amount_col with
      | Some date_col, Some amount_col =>
          count <-
            for_data_rows (lit "distribution") (Nat.max date_col amount_col)
              (distribution_row fund_id date_col amount_col type_col
                                recallable_col)
              (S header_idx) (skipn (S header_idx) table) 0 ;;
          call db_commit ;;;
          ret count
      | _, _ => ret 0
      end
  end.

Definition adjustment_row (fund_id : Z) (date_col amount_col : nat)
           (type_col : option nat) (row : list str) : M bool :=
  date_cell <- lift (getitem row date_col) ;;
  adjustment_date <- lift (parse_date (strip date_cell)) ;;
  match adjustment_date with
  | None => ret false
  | Some adjustment_date =>
      amount_cell <- lift (getitem row amount_col) ;;
      amount <- lift (parse_amount (strip amount_cell) true) ;;
      match amount with
      | None => ret false
      | Some amount =>
          adj_type <- type_label row type_col (lit "Adjustment") ;;
          let is_contribution_adjustment :=
            contains (lit "capital") (lower adj_type)
            || contains (lit "contribution") (lower adj_type) in
          call (db_add (Adjustment fund_id adjustment_date adj_type adj_type
                                   amount is_contribution_adjustment
                                   adj_type)) ;;;
          ret true
      end
  end.

(** [_parse_adjustments] *)
Definition parse_adjustments (table : Table) (fund_id : Z) : M nat :=
  match find_header_row table with
  | None => ret 0
  | Some header_idx =>
      header <- lift (getitem table header_idx) ;;
      let headers := headers_of header in
      let date_col :=
        find_column headers (map lit ["date"; "adjustment date"]%string) in
      let amount_col :=
        find_column headers (map lit ["amount"; "adjustment"]%string) in
      let type_col :=
        find_column headers
          (map lit ["type"; "adjustment type"; "category"]%string) in
      match date_col, amount_col with
      | Some date_col, Some amount_col =>
          count <-
            for_data_rows (lit "adjustment") (Nat.max date_col amount_col)
              (adjustment_row fund_id date_col amount_col type_col)
              (S header_idx) (skipn (S header_idx) table) 0 ;;
          call db_commit ;;;
          ret count
      | _, _ => ret 0
      end
  end.

(** [f"Error parsing table {table_idx}: {str(e)}"] *)
Definition table_error (table_idx : nat) (e : Exn) : str :=
  lit "Error parsing table " ++ str_of_nat table_idx ++ lit ": "
  ++ exn_msg e.

Definition add_error (stats : Stats) (msg : str) : Stats :=
  {| capital_calls := capital_calls stats;
     distributions := distributions stats;
     adjustments := adjustments stats;
     errors := errors stats ++ [msg] |}.

(** The [try] body of [parse_tables] for one table. *)
Definition parse_one_table (table : Table) (fund_id : Z) (stats : Stats)
  : M Stats :=
  match classify_table table with
  | Some capital_call =>
      count <- parse_capital_calls table fund_id ;;
      ret {| capital_calls := capital_calls stats + count;
             distributions := distributions stats;
             adjustments := adjustments stats;
             errors := errors stats |}
  | Some distribution =>
      count <- parse_distributions table fund_id ;;
      ret {| capital_calls := capital_calls stats;
             distributions := distributions stats + count;
             adjustments := adjustments stats;
             errors := errors stats |}
  | Some adjustment =>
      count <- parse_adjustments table fund_id ;;
      ret {| capital_calls := capital_calls stats;
             distributions := distributions stats;
             adjustments := adjustments stats + count;
             errors := errors stats |}
  | None => ret stats
  end.

(** [for table_idx, table in enumerate(tables)] *)
Fixpoint tables_loop (fund_id : Z) (table_idx : nat) (tables : list Table)
         (stats : Stats) : M Stats :=
  match tables with
  | [] => ret stats
  | table :: tables' =>
      if negb (nonempty table) || (List.length table <? 2)
      then tables_loop fund_id (S table_idx) tables' stats
      else
        stats' <-
          try_except (parse_one_table table fund_id stats)
            (fun e => ret (add_error stats (table_error table_idx e))) ;;
        tables_loop fund_id (S table_idx) tables' stats'
  end.

(** [parse_tables] *)
Definition parse_tables (tables : list Table) (fund_id : Z) : M Stats :=
  tables_loop fund_id 0 tables
    {| capital_calls := 0; distributions := 0; adjustments := 0;
       errors := [] |}.

(** [_extract_pdf_content], which reads the file through pdfplumber. *)
Definition do_extract (file_path : str)
  : M (list Table * list PageContent) :=
  fun h =>
    (match fails h (extract_pdf_content file_path) with
     | Some e => Raise e
     | None => Ok (pdf_content h file_path)
     end, h ++ [extract_pdf_content file_path]).

(** [for chunk in chunks: try: await add_document(...); chunk_count += 1
    except Exception as e: print(...)] *)
Fixpoint store_chunks (document_id fund_id : Z) (chunks : list Chunk)
         (chunk_count : nat) : M nat :=
  match chunks with
  | [] => ret chunk_count
  | chunk :: chunks' =>
      stored <-
        try_except
          (call (add_document (text chunk)
                   {| md_document_id := document_id; md_fund_id := fund_id;
                      md_page := page chunk;
                      md_chunk_index := chunk_index chunk |}) ;;;
           ret true)
          (fun e =>
             do_print (lit "Error storing chunk: " ++ exn_msg e) ;;;
             ret false) ;;
      store_chunks document_id fund_id chunks'
                   (if stored then S chunk_count else chunk_count)
  end.

(** The [try] block of [process_document]. *)
Definition process_document_body (file_path : str) (document_id fund_id : Z)
  : M Result :=
  content <- do_extract file_path ;;
  let '(tables, text_content) := content in
  table_stats <- parse_tables tables fund_id ;;
  let chunks := chunk_text CHUNK_SIZE CHUNK_OVERLAP text_content in
  chunk_count <- store_chunks document_id fund_id chunks 0 ;;
  ret (completed
         {| pages_processed := List.length text_content;
            tables_found := List.length tables;
            st_capital_calls := capital_calls table_stats;
            st_distributions := distributions table_stats;
            st_adjustments := adjustments table_stats;
            text_chunks := chunk_count;
            st_errors := errors table_stats |}).

(** [process_document]: [db = SessionLocal()], then
    [try ... except Exception as e ... finally: db.close()]. *)
Definition process_document (file_path : str) (document_id fund_id : Z)
  : M Result :=
  call SessionLocal ;;;
  try_finally
    (try_except
       (process_document_body file_path document_id fund_id)
       (fun e =>
          do_print (lit "Error processing document: " ++ exn_msg e) ;;;
          ret (failed (exn_msg e))))
    (call db_close).

End Pipeline.

(** ** Text cleaning and extraction ([_clean_text], [_extract_pdf_content]) *)

(** Length of the longest prefix of [x] whose characters satisfy [f]. *)
Fixpoint span_len (f : ascii -> bool) (x : str) : nat :=
  match x with
  | [] => 0
  | c :: x' => if f c then S (span_len f x') else 0
  end.

(** [re.sub(pattern, repl, x)] for a pattern that matches no empty string:
    [m y] is the length of the match of the pattern at the start of [y],
    if there is one.  Matches are taken from the left and do not overlap;
    [skip] counts the characters of the current match still to pass. *)
Fixpoint sub_aux (m : str -> option nat) (repl : str) (skip : nat) (x : str)
  : str :=
  match x with
  | [] => []
  | c :: x' =>
      match skip with
      | S k => sub_aux m repl k x'
      | O =>
          match m (c :: x') with
          | Some (S n) => repl ++ sub_aux m repl n x'
          | _ => c :: sub_aux m repl 0 x'
          end
      end
  end.

Definition re_sub (m : str -> option nat) (repl x : str) : str :=
  sub_aux m repl 0 x.

(** [\s+] *)
Definition match_spaces (x : str) : option nat :=
  let n := span_len is_space x in
  if 0 <? n then Some n else None.

(** [Page\s+\d+] with [re.IGNORECASE]: once the spaces are taken the next
    character must be a digit, so giving spaces back never helps. *)
Definition match_page_number (x : str) : option nat :=
  if PyStr.eqb (lower (firstn 4 x)) (lit "page") then
    let r := skipn 4 x in
    let ws := span_len is_space r in
    let ds := span_len is_digit (skipn ws r) in
    if (0 <? ws) && (0 <? ds) then Some (4 + ws + ds) else None
  else None.

(** Index of the last line feed of [x], counted from [i]. *)
Fixpoint last_newline (i : nat) (best : option nat) (x : str) : option nat :=
  match x with
  | [] => best
  | c :: x' =>
      last_newline (S i) (if (code c =? 10)%N then Some i else best) x'
  end.

(** [\n\s*\n]: a line feed, then the spaces that follow up to the last
    line feed among them. *)
Definition match_blank_lines (x : str) : option nat :=
  match x with
  | c :: r =>
      if (code c =? 10)%N then
        match last_newline 0 None (firstn (span_len is_space r) r) with
        | Some k => Some (k + 2)
        | None => None
        end
      else None
  | [] => None
  end.

(** [_clean_text] *)
Definition clean_text (t : str) : str :=
  let t1 := re_sub match_spaces SP t in
  let t2 := re_sub match_page_number [] t1 in
  let t3 := re_sub match_blank_lines NLNL t2 in
  strip t3.

(** What pdfplumber gives for a page: [page.extract_tables()] and
    [page.extract_text()], either of which may be [None]. *)
Record PdfPage :=
  { extract_tables : option (list Table); extract_text : option str }.

(** The tables of a page that [_extract_pdf_content] keeps. *)
Definition kept_tables (page : PdfPage) : list Table :=
  match extract_tables page with
  | Some page_tables =>
      filter (fun table => nonempty table && (1 <? List.length table))
             page_tables
  | None => []
  end.

(** The text entry of a page, if it has text left after cleaning. *)
Definition kept_text (page_num : nat) (page : PdfPage) : list PageContent :=
  match extract_text page with
  | Some t =>
      if truthy t then
        let cleaned_text := clean_text t in
        if truthy (strip cleaned_text)
        then [{| pc_page := Z.of_nat (page_num + 1); pc_text := cleaned_text |}]
        else []
      else []
  | None => []
  end.

(** [for page_num, page in enumerate(pdf.pages)], with the two lists the
    loop appends to. *)
Fixpoint pages_loop (page_num : nat) (pages : list PdfPage)
         (acc : list Table * list PageContent)
  : list Table * list PageContent :=
  match pages with
  | [] => acc
  | page :: pages' =>
      pages_loop (S page_num) pages'
        (fst acc ++ kept_tables page, snd acc ++ kept_text page_num page)
  end.

(** [_extract_pdf_content] on the pages of the opened file. *)
Definition extract_pdf_pages (pages : list PdfPage)
  : list Table * list PageContent :=
  pages_loop 0 pages ([], []).

(** ** Notions used in the statements below *)

(** The three counters of a [Stats] record. *)
Definition counts (s : Stats) : nat * nat * nat :=
  (capital_calls s, distributions s, adjustments s).

Definition add_counts (s : Stats) (c : nat * nat * nat) : Stats :=
  let '(cc, d, a) := c in
  {| capital_calls := capital_calls s + cc;
     distributions := distributions s + d;
     adjustments := adjustments s + a;
     errors := errors s |}.

(** Error entries before they are rendered: position of the table in the
    input list, and the exception caught. *)
Definition render_errors (f : nat -> nat) (es : list (nat * Exn)) : list str :=
  map (fun '(i, e) => table_error (f i) e) es.

(** Position in a list from which the element at position [k] was taken
    out, of the element now at position [i]. *)
Definition bump (k i : nat) : nat := if i <? k then i else S i.

(** A list of chunks with every index moved up by [k]. *)
Definition reindex (k : nat) (chunks : list Chunk) : list Chunk :=
  map (fun c => {| text := text c; page := page c;
                   chunk_index := k + chunk_index c |}) chunks.

(** The chunks gathered so far are numbered from [b] without gap, and
    [idx] is the next number. *)
Definition numbered (b : nat) (chunks : list Chunk) (idx : nat) : Prop :=
  map chunk_index chunks = seq b (List.length chunks)
  /\ idx = b + List.length chunks.

Definition numbered_state (b : nat) (st : LoopState) : Prop :=
  numbered b (fst (fst st)) (snd (fst st)).

(** A loop state whose chunks come after [c] and are numbered [idx]
    higher. *)
Definition shifted (c : list Chunk) (idx : nat) (st : LoopState) : LoopState :=
  let '(chunks, i, cur) := st in (c ++ reindex idx chunks, idx + i, cur).

(** Every chunk carries the page number [pg]. *)
Definition paged (pg : Z) (chunks : list Chunk) : Prop :=
  Forall (fun c => page c = pg) chunks.

Definition paged_state (pg : Z) (st : LoopState) : Prop :=
  paged pg (fst (fst st)).

(** A token: a non-empty run of characters without a space. *)
Definition is_word (w : str) : Prop :=
  w <> [] /\ forallb (fun c => negb (is_space c)) w = true.

(** [w] is the end of [t]. *)
Definition suffix_of (w t : str) : Prop := exists p, t = p ++ w.

(** Every token of [x] is a token of [src] or the end of one. *)
Definition tokens_from (src : list str) (x : str) : Prop :=
  forall w, In w (split_ws x) -> exists t, In t src /\ suffix_of w t.

(** A token longer than [size] is the only token of [x]. *)
Definition long_token_alone (size : Z) (x : str) : Prop :=
  forall w, In w (split_ws x) -> (len w > size)%Z -> split_ws x = [w].

(** The tokens of the chunks gathered so far and of the buffer. *)
Definition tokens_of_chunks (chunks : list Chunk) : list str :=
  concat (map (fun c => split_ws (text c)) chunks).

Definition tokens_of_state (st : LoopState) : list str :=
  tokens_of_chunks (fst (fst st)) ++ split_ws (snd st).

(** The token list of [c :: x] when [x] starts inside a token. *)
Definition cons_token (c : ascii) (l : list str) : list str :=
  match l with
  | w :: ws => (c :: w) :: ws
  | [] => [[c]]
  end.

(** [x] is empty or starts with a space. *)
Definition starts_apart (x : str) : bool :=
  match x with
  | [] => true
  | c :: _ => is_space c
  end.

Definition alone_state (size : Z) (st : LoopState) : Prop :=
  Forall (fun c => long_token_alone size (text c)) (fst (fst st))
  /\ long_token_alone size (snd st).

Definition from_state (src : list str) (st : LoopState) : Prop :=
  Forall (fun c => tokens_from src (text c)) (fst (fst st))
  /\ tokens_from src (snd st).

(** Every token of [x] is a token of [src]. *)
Definition whole_tokens (src : list str) (x : str) : Prop :=
  forall w, In w (split_ws x) -> In w src.

(** Only the first token of [x] may be the end of a token of [src]; all
    the others are tokens of [src]. *)
Definition partial_first (src : list str) (x : str) : Prop :=
  match split_ws x with
  | [] => True
  | w :: ws =>
      (exists t, In t src /\ suffix_of w t)
      /\ forall w', In w' ws -> In w' src
  end.

(** The tokens [a] of an end of a text whose tokens are [b]: the first
    is the end of a token of [b], the others are the tokens of [b] that
    follow it. *)
Definition token_suffix (a b : list str) : Prop :=
  a = []
  \/ exists pre u w ws,
      b = pre ++ u :: ws /\ a = w :: ws /\ suffix_of w u.

(** The buffer [buf] was started with the overlap taken from the buffer
    that was saved as the chunk [prev], and has since received only text
    made of tokens of [src]. *)
Definition overlap_seeded (overlap : Z) (src : list str) (prev : Chunk)
           (buf : str) : Prop :=
  exists cur rest,
    strip cur = text prev
    /\ buf = get_overlap_text overlap cur ++ SP ++ rest
    /\ whole_tokens src rest.

(** Each chunk of the list is made of tokens of [src], or is a buffer
    started with the overlap of the chunk just before it. *)
Definition whole_or_seeded (overlap : Z) (src : list str)
           (chunks : list Chunk) : Prop :=
  forall k c,
    nth_error chunks k = Some c ->
    whole_tokens src (text c)
    \/ exists j prev buf,
        k = S j
        /\ nth_error chunks j = Some prev
        /\ text c = strip buf
        /\ overlap_seeded overlap src prev buf.

Definition seeded_state (overlap : Z) (src : list str) (st : LoopState)
  : Prop :=
  whole_or_seeded overlap src (fst (fst st))
  /\ (whole_tokens src (snd st)
      \/ exists pre prev,
          fst (fst st) = pre ++ [prev]
          /\ overlap_seeded overlap src prev (snd st)).

Definition partial_state (src : list str) (st : LoopState) : Prop :=
  Forall (fun c => partial_first src (text c)) (fst (fst st))
  /\ partial_first src (snd st).

(** A page of two paragraphs of 500 characters each. *)
Definition two_paragraphs : PageContent :=
  {| pc_page := 1;
     pc_text := repeat "a"%char 500 ++ NLNL ++ repeat "b"%char 500 |}.

(** A page whose first paragraph is 143 six-letter words (1000
    characters), followed by a short second paragraph. *)
Definition many_words : PageContent :=
  {| pc_page := 1;
     pc_text := join SP (repeat (lit "abcdef") 143) ++ NLNL ++ lit "tail" |}.

(** A two-row capital-call table. *)
Definition sample_table : Table :=
  [[lit "Call Date"; lit "Amount"]; [lit "2023-01-15"; lit "$100,000"]].

(** A session whose [commit] fails; every other call succeeds. *)
Definition commit_fails : History -> Call -> option Exn :=
  fun _ c =>
    match c with
    | db_commit =>
        Some {| exn_class := OtherException "OperationalError";
                exn_msg := lit "db down" |}
    | _ => None
    end.

(** A file that pdfplumber cannot open; every other call succeeds. *)
Definition extraction_fails : History -> Call -> option Exn :=
  fun _ c =>
    match c with
    | extract_pdf_content _ =>
        Some {| exn_class := OtherException "PDFSyntaxError";
                exn_msg := lit "No /Root object" |}
    | _ => None
    end.

(** A session that cannot be opened; every other call succeeds. *)
Definition open_fails : History -> Call -> option Exn :=
  fun _ c =>
    match c with
    | SessionLocal =>
        Some {| exn_class := OtherException "OperationalError";
                exn_msg := lit "db down" |}
    | _ => None
    end.

(** A session whose [close] fails; every other call succeeds. *)
Definition close_fails : History -> Call -> option Exn :=
  fun _ c =>
    match c with
    | db_close =>
        Some {| exn_class := OtherException "OperationalError";
                exn_msg := lit "db down" |}
    | _ => None
    end.

(** Extraction that finds nothing. *)
Definition no_content : History -> str -> list Table * list PageContent :=
  fun _ _ => ([], []).

(** [x] contains a character that is not a space. *)
Definition has_nonspace (x : str) : bool :=
  existsb (fun c => negb (is_space c)) x.

(** A chunk text that respects the size up to the joining space, or is
    made of one token. *)
Definition near_size (size : Z) (x : str) : Prop :=
  (len x <= size + 1)%Z \/ exists w, split_ws x = [w].

Definition near_size_state (size : Z) (st : LoopState) : Prop :=
  Forall (fun c => near_size size (text c)) (fst (fst st))
  /\ (snd st = [] \/ near_size size (snd st)).

(** Every chunk text satisfies [P]. *)
Definition texts_all (P : str -> Prop) (st : LoopState) : Prop :=
  Forall (fun c => P (text c)) (fst (fst st)).

(** A sentence that is empty or holds a token. *)
Definition sentence_ok (x : str) : Prop := x = [] \/ split_ws x <> [].

(** Every chunk holds a token, and the buffer is empty or holds one. *)
Definition token_state (st : LoopState) : Prop :=
  Forall (fun c => split_ws (text c) <> []) (fst (fst st))
  /\ sentence_ok (snd st).

(** A character that, if it is a space, is the plain space. *)
Definition plain_space (c : ascii) : Prop :=
  is_space c = true -> c = " "%char.

(** The row holds one of the header keywords. *)
Definition has_header_keyword (row : list str) : bool :=
  existsb (fun kw => contains kw (row_text row)) header_keywords.

(** The header cell holds one of the names looked for. *)
Definition names_column (possible_names : list str) (header : str) : bool :=
  existsb (fun name => contains name header) possible_names.

(** A computation only adds calls that satisfy [P] to the history. *)
Definition extends (P : Call -> Prop) {A} (c : M A) : Prop :=
  forall h, exists evs, snd (c h) = h ++ evs /\ Forall P evs.

(** A strictly positive amount. *)
Definition positive (a : Decimal) : Prop :=
  d_sign a = false /\ d_coef a <> 0%N.

(** The calls table parsing may make for the fund [fund]. *)
Definition table_call (fund : Z) (c : Call) : Prop :=
  match c with
  | db_add (CapitalCall f _ _ a _) => f = fund /\ positive a
  | db_add (Distribution f _ _ _ a _) => f = fund /\ positive a
  | db_add (Adjustment f _ _ _ _ _ _) => f = fund
  | db_commit => True
  | print _ => True
  | _ => False
  end.

Definition is_add_document (c : Call) : bool :=
  match c with add_document _ _ => true | _ => false end.

Definition is_print (c : Call) : bool :=
  match c with print _ => true | _ => false end.

(** The submission [process_document] makes for a chunk. *)
Definition submission (document_id fund_id : Z) (chunk : Chunk) : Call :=
  add_document (text chunk)
    {| md_document_id := document_id; md_fund_id := fund_id;
       md_page := page chunk; md_chunk_index := chunk_index chunk |}.

Definition is_db_add (c : Call) : bool :=
  match c with db_add _ => true | _ => false end.

(** The number of records the statistics report. *)
Definition records (s : Stats) : nat :=
  capital_calls s + distributions s + adjustments s.

(** A row's body either leaves the row out without any call, or makes
    one [db.add] call, and counts the row unless that call raises. *)
Definition one_add (fails : History -> Call -> option Exn)
           (body : list str -> M bool) (row : list str) (h : History)
  : Prop :=
  body row h = (Ok false, h)
  \/ exists t,
      body row h
      = (match fails h (db_add t) with
         | Some e => Raise e
         | None => Ok true
         end, h ++ [db_add t]).

(** Among the calls [evs], every [db.add] was counted in [n] or reported
    by a printed line, and a line is printed only when [db.add] raises. *)
Definition accounted (fails : History -> Call -> option Exn) (n : nat)
           (evs : list Call) : Prop :=
  n + List.length (filter is_print evs) = List.length (filter is_db_add evs)
  /\ ((forall h t, fails h (db_add t) = None) -> filter is_print evs = []).

(** What an extractor does on a table that has a row: every [db.add] is
    accounted for, and the count is returned unless the commit raises. *)
Definition extractor_accounted (fails : History -> Call -> option Exn)
           (c : M nat) (h : History) : Prop :=
  exists n evs r,
    c h = (r, h ++ evs)
    /\ accounted fails n evs
    /\ (r = Ok n
        \/ ((exists e, r = Raise e)
            /\ ~ (forall h', fails h' db_commit = None))).

(** A file with one table and one page of text. *)
Definition one_page : History -> str -> list Table * list PageContent :=
  fun _ _ =>
    ([sample_table], [{| pc_page := 1; pc_text := lit "hello world" |}]).

(** The character of a decimal digit, and a number below 100 written
    with two digits. *)
Definition digit_char (n : nat) : ascii := ascii_of_nat (48 + n).

Definition two_digits (n : nat) : str :=
  [digit_char (n / 10); digit_char (n mod 10)].

(** The bounds [strptime] checks before it builds the date. *)
Definition valid_fields (fs : Strptime.fields) : bool :=
  ((1 <=? Strptime.f_Y fs) && (Strptime.f_Y fs <=? 9999)
   && (1 <=? Strptime.f_m fs) && (Strptime.f_m fs <=? 12)
   && (1 <=? Strptime.f_d fs)
   && (Strptime.f_d fs
       <=? Strptime.days_in_month (Strptime.f_Y fs) (Strptime.f_m fs)))%Z.

(** * Properties *)

(** ** Strings *)

Lemma lstrip_filter (f : ascii -> bool) (x : str) :
  (forall c, is_space c = true -> f c = false) ->
  filter f (lstrip x) = filter f x.
Proof.
  intros Hf. induction x as [|c x IH]; simpl; [reflexivity|].
  destruct (is_space c) eqn:E; [rewrite (Hf c E); exact IH | reflexivity].
Qed.

Lemma filter_rev_comm {A} (f : A -> bool) (l : list A) :
  filter f (rev l) = rev (filter f l).
Proof.
  induction l as [|a l IH]; simpl; [reflexivity|].
  rewrite filter_app, IH. simpl. destruct (f a); simpl.
  - reflexivity.
  - now rewrite app_nil_r.
Qed.

Lemma strip_filter (f : ascii -> bool) (x : str) :
  (forall c, is_space c = true -> f c = false) ->
  filter f (strip x) = filter f x.
Proof.
  intros Hf. unfold strip, rstrip.
  rewrite filter_rev_comm, (lstrip_filter _ _ Hf), filter_rev_comm, rev_involutive.
  now apply lstrip_filter.
Qed.

Lemma space_not_amount_char c : is_space c = true -> amount_char c = false.
Proof.
  destruct c as [[] [] [] [] [] [] [] []]; vm_compute; congruence.
Qed.

Lemma filter_idem {A} (f : A -> bool) (l : list A) :
  filter f (filter f l) = filter f l.
Proof.
  induction l as [|a l IH]; simpl; [reflexivity|].
  destruct (f a) eqn:E; simpl; [rewrite E, IH|]; auto.
Qed.

Lemma truthy_false (x : str) : truthy x = false -> x = [].
Proof. destruct x; simpl; congruence. Qed.

Lemma truthy_true_iff (x : str) : truthy x = true <-> x <> [].
Proof. destruct x; simpl; split; congruence. Qed.

(** ** Amounts *)

(** What [_parse_amount] computes depends on the kept characters only. *)
Lemma parse_amount_cleaned (x : str) (b : bool) :
  parse_amount x b =
  match filter amount_char x with
  | [] => Ok None
  | cleaned =>
      match convert_amount cleaned b with
      | Raise _ => Ok None
      | Ok r => Ok r
      end
  end.
Proof.
  unfold parse_amount.
  rewrite (strip_filter _ x space_not_amount_char).
  destruct (truthy x) eqn:Ex; simpl.
  - destruct (truthy (strip x)) eqn:Es; simpl.
    + destruct (filter amount_char x); reflexivity.
    + apply truthy_false in Es.
      rewrite <- (strip_filter _ x space_not_amount_char), Es. reflexivity.
  - apply truthy_false in Ex. subst. reflexivity.
Qed.

(** C5.  [_parse_amount] first strips every character that is not a
    digit, a decimal point or a sign: its result is the one it gives on the
    kept characters alone, and it is [None] when none is kept.  On
    ["$1,234.56"] the result is 1234.56 (123456 * 10^-2), and on ["(500)"]
    with [allow_negative] it is 500: the parentheses are stripped and carry
    no sign. *)
Theorem parse_amount_strips_other_characters :
  (forall (x : str) (b : bool),
      parse_amount x b = parse_amount (filter amount_char x) b
      /\ (filter amount_char x = [] -> parse_amount x b = Ok None))
  /\ (forall c : ascii,
         amount_char c = true <->
         (is_digit c = true \/ c = "."%char \/ c = "+"%char \/ c = "-"%char))
  /\ parse_amount (lit "$1,234.56") false
     = Ok (Some {| d_sign := false; d_coef := 123456; d_exp := -2 |})
  /\ filter amount_char (lit "(500)") = lit "500"
  /\ parse_amount (lit "(500)") true
     = Ok (Some {| d_sign := false; d_coef := 500; d_exp := 0 |}).
Proof.
  split; [|split; [|repeat split; reflexivity]].
  - intros x b. split.
    + rewrite (parse_amount_cleaned x), (parse_amount_cleaned (filter _ x)).
      now rewrite filter_idem.
    + intros H. now rewrite parse_amount_cleaned, H.
  - intros c. destruct c as [[] [] [] [] [] [] [] []]; vm_compute;
      (split; [intros H; first [discriminate H | now left | now right; left
                              | now right; right; left | now right; right; right]
              | intros [H | [H | [H | H]]]; first [reflexivity | discriminate H]]).
Qed.

Lemma parse_amount_strips_other_characters_witness :
  parse_amount (lit "$ n/a") true = Ok None.
Proof.
  apply (proj2 (proj1 parse_amount_strips_other_characters (lit "$ n/a") true)).
  reflexivity.
Defined.

Lemma ndigits_aux_le (fuel : nat) :
  forall (k : nat) (n : N),
    (n < 10 ^ N.of_nat (S k))%N -> Dec.ndigits_aux fuel n <= S k.
Proof.
  induction fuel as [|f IH]; intros k n Hn; simpl; [lia|].
  destruct (N.ltb_spec n 10); [lia|].
  destruct k as [|k].
  - simpl in Hn. lia.
  - apply le_n_S, IH.
    apply N.Div0.div_lt_upper_bound.
    replace (N.of_nat (S (S k))) with (N.succ (N.of_nat (S k))) in Hn by lia.
    now rewrite N.pow_succ_r' in Hn.
Qed.

Lemma ndigits_le_prec (n : N) :
  (n < 10 ^ 28)%N -> (Dec.ndigits n <= Dec.prec)%Z.
Proof.
  intros Hn. unfold Dec.ndigits, Dec.prec.
  assert (Dec.ndigits_aux (N.size_nat n) n <= 28); [|lia].
  now apply (ndigits_aux_le (N.size_nat n) 27 n).
Qed.

Lemma of_str_exp_nonpos (x : str) (d : Decimal) :
  Dec.of_str x = Ok d -> (d_exp d <= 0)%Z.
Proof.
  unfold Dec.of_str.
  destruct (match x with
            | [] => (false, x)
            | c :: x' => if Dec.is_sign c then (Dec.is_minus c, x') else (false, x)
            end) as [sign body].
  destruct (Dec.span_digits body) as [ip r].
  destruct (match r with
            | [] => ([], r)
            | c :: r0 => if Dec.is_point c then Dec.span_digits r0 else ([], r)
            end) as [fp r'].
  destruct r'; [|discriminate].
  destruct (truthy ip || truthy fp); [|discriminate].
  intros H. injection H as <-. simpl. unfold len. lia.
Qed.

(** Within the context's precision and exponent range, [abs] is exact. *)
Lemma abs_exact (d : Decimal) :
  d_coef d <> 0%N -> (d_coef d < 10 ^ 28)%N ->
  (Dec.Etiny <= d_exp d)%Z -> (d_exp d <= 0)%Z ->
  Dec.abs d = Ok {| d_sign := false; d_coef := d_coef d; d_exp := d_exp d |}.
Proof.
  intros Hnz Hc Hlo Hhi. unfold Dec.abs, Dec.fix_. simpl.
  destruct (N.eqb_spec (d_coef d) 0); [contradiction|].
  pose proof (ndigits_le_prec _ Hc) as Hn.
  unfold Dec.Etop, Dec.Emax, Dec.Etiny, Dec.Emin, Dec.prec in *.
  destruct (Z.gtb_spec (Dec.ndigits (d_coef d) + d_exp d - 28) (999999 - 28 + 1));
    [lia|].
  destruct (Z.ltb_spec (d_exp d)
              (Z.max (Dec.ndigits (d_coef d) + d_exp d - 28) (-999999 - 28 + 1)));
    [lia|reflexivity].
Qed.

Lemma value_abs (c : N) (e : Z) :
  (Dec.value {| d_sign := false; d_coef := c; d_exp := e |}
   == Qabs (Dec.value {| d_sign := true; d_coef := c; d_exp := e |}))%Q.
Proof.
  unfold Dec.value; cbn [d_sign d_coef d_exp].
  rewrite 2 Qabs_Qmult.
  rewrite (Qabs_pos (inject_Z (Z.of_N c))) by (unfold Qle; simpl; lia).
  assert (H : (Qabs (10 ^ e) == 10 ^ e)%Q)
    by (apply Qabs_pos, Qpower_0_le; discriminate).
  rewrite H. reflexivity.
Qed.

Lemma parse_amount_total (x : str) (b : bool) :
  exists r, parse_amount x b = Ok r.
Proof.
  rewrite parse_amount_cleaned.
  destruct (filter amount_char x); [now eexists|].
  destruct (convert_amount _ b); now eexists.
Qed.

Lemma ltb0_inv (d : Decimal) :
  Dec.ltb0 d = true -> d_sign d = true /\ d_coef d <> 0%N.
Proof.
  unfold Dec.ltb0. intros H. apply andb_true_iff in H as [H1 H2].
  split; [exact H1|]. apply negb_true_iff in H2. now apply N.eqb_neq.
Qed.

Lemma pos_lt_pow_size (p : BinNums.positive) :
  (N.pos p < 2 ^ N.of_nat (Pos.size_nat p))%N.
Proof.
  induction p as [p IH|p IH|]; cbn [Pos.size_nat];
    rewrite ?Nat2N.inj_succ, ?N.pow_succ_r'; try reflexivity; lia.
Qed.

Lemma lt_pow_ndigits_aux (fuel : nat) :
  forall n : N,
    (n < 2 ^ N.of_nat fuel)%N ->
    (n < 10 ^ N.of_nat (Dec.ndigits_aux fuel n))%N.
Proof.
  induction fuel as [|f IH]; intros n Hn; cbn [Dec.ndigits_aux].
  - simpl in Hn. simpl. lia.
  - destruct (N.ltb_spec n 10) as [Hlt|Hge]; [simpl; lia|].
    rewrite Nat2N.inj_succ, N.pow_succ_r' in *.
    assert (Hq : (n / 10 < 2 ^ N.of_nat f)%N)
      by (apply N.Div0.div_lt_upper_bound; lia).
    specialize (IH _ Hq).
    pose proof (N.Div0.div_mod n 10) as Hd.
    pose proof (N.mod_lt n 10 ltac:(lia)) as Hm. lia.
Qed.

(** A number is below the power of ten of its number of digits. *)
Lemma lt_pow_ndigits (n : N) : (n < 10 ^ Z.to_N (Dec.ndigits n))%N.
Proof.
  unfold Dec.ndigits. rewrite <- nat_N_Z, N2Z.id.
  apply lt_pow_ndigits_aux.
  destruct n as [|p]; [reflexivity|apply pos_lt_pow_size].
Qed.

(** Rounding half to even moves a number by at most half a unit of the
    last digit kept. *)
Lemma round_half_even_near (c : N) (k : Z) :
  (2 * (Dec.round_half_even c k * 10 ^ Z.to_N k) <= 2 * c + 10 ^ Z.to_N k)%N
  /\ (2 * c <= 2 * (Dec.round_half_even c k * 10 ^ Z.to_N k) + 10 ^ Z.to_N k)%N
  /\ (Dec.round_half_even c k <= c / 10 ^ Z.to_N k + 1)%N.
Proof.
  unfold Dec.round_half_even. set (p := (10 ^ Z.to_N k)%N).
  assert (Hp : p <> 0%N) by (apply N.pow_nonzero; lia).
  pose proof (N.Div0.div_mod c p) as Hd.
  pose proof (N.mod_lt c p Hp) as Hm.
  set (q := (c / p)%N) in *. set (r := (c mod p)%N) in *.
  destruct ((p <? 2 * r) || ((2 * r =? p) && N.odd q))%N eqn:E.
  - assert (Hr : (p <= 2 * r)%N).
    { apply orb_true_iff in E as [E|E]; [apply N.ltb_lt in E; lia|].
      apply andb_true_iff in E as [E _]. apply N.eqb_eq in E. lia. }
    nia.
  - apply orb_false_iff in E as [E _]. apply N.ltb_ge in E. nia.
Qed.

(** [Decimal._fix] on a non-zero number: [Overflow], which takes
    1000000 digits or more before the point, or a number of at most 28
    digits within half a unit of its last digit. *)
Lemma fix_rounds (d : Decimal) :
  d_coef d <> 0%N ->
  (Dec.fix_ d = Raise Dec.overflow
   /\ (1000000 <= Dec.ndigits (d_coef d) + d_exp d)%Z)
  \/ exists r k,
      Dec.fix_ d = Ok r
      /\ (Dec.ndigits (d_coef d) + d_exp d <= 1000000)%Z
      /\ d_sign r = d_sign d
      /\ (d_coef r < 10 ^ 28)%N
      /\ (0 <= k)%Z
      /\ d_exp r = (d_exp d + k)%Z
      /\ (2 * Z.abs (Z.of_N (d_coef r) * 10 ^ k - Z.of_N (d_coef d))
          <= 10 ^ k)%Z.
Proof.
  intros Hnz. unfold Dec.fix_.
  destruct (N.eqb_spec (d_coef d) 0) as [E0|_]; [contradiction|].
  pose proof (lt_pow_ndigits (d_coef d)) as Hdig.
  assert (Hn1 : (1 <= Dec.ndigits (d_coef d))%Z).
  { unfold Dec.ndigits. destruct (N.size_nat (d_coef d)); simpl; [lia|].
    destruct (_ <? _)%N; lia. }
  unfold Dec.Etop, Dec.Emax, Dec.Etiny, Dec.Emin, Dec.prec in *.
  set (n := Dec.ndigits (d_coef d)) in *. set (e := d_exp d) in *.
  destruct (Z.gtb_spec (n + e - 28) (999999 - 28 + 1)) as [Hov|Hov];
    [left; split; [reflexivity|lia]|].
  set (em := Z.max (n + e - 28) (-999999 - 28 + 1)).
  destruct (Z.ltb_spec e em) as [Hlt|Hge].
  - pose proof (round_half_even_near (d_coef d) (em - e)) as (H1 & H2 & H3).
    set (c1 := Dec.round_half_even (d_coef d) (em - e)) in *.
    set (p := (10 ^ Z.to_N (em - e))%N) in *.
    assert (Hq : (d_coef d / p < 10 ^ 28)%N).
    { apply N.Div0.div_lt_upper_bound. unfold p. rewrite <- N.pow_add_r.
      eapply N.lt_le_trans; [exact Hdig|].
      apply N.pow_le_mono_r; lia. }
    assert (HP : Z.of_N p = (10 ^ (em - e))%Z).
    { unfold p. rewrite N2Z.inj_pow, Z2N.id by lia. reflexivity. }
    assert (Hpos : (0 < 10 ^ (em - e))%Z) by (apply Z.pow_pos_nonneg; lia).
    destruct (Z.gtb_spec (Dec.ndigits c1) 28) as [Hc|Hc].
    + assert (Hc1 : c1 = (10 ^ 28)%N).
      { destruct (N.lt_ge_cases c1 (10 ^ 28)) as [Hl|Hg]; [|lia].
        apply ndigits_le_prec in Hl. unfold Dec.prec in Hl. lia. }
      destruct (Z.gtb_spec (em + 1) (999999 - 28 + 1)) as [Ho|Ho];
        [left; split; [reflexivity|lia]|].
      right. eexists. exists (em - e + 1)%Z.
      split; [reflexivity|]. split; [lia|]. cbn [d_sign d_coef d_exp].
      split; [reflexivity|]. rewrite Hc1.
      split; [reflexivity|]. split; [lia|]. split; [lia|].
      rewrite Z.pow_add_r by lia. rewrite Hc1 in H1, H2.
      change (Z.of_N (10 ^ 28 / 10)) with (10 ^ 27)%Z.
      change (10 ^ 1)%Z with 10%Z.
      assert (G1 : (2 * (10 ^ 28 * Z.of_N p) <= 2 * Z.of_N (d_coef d)
                                                 + Z.of_N p)%Z) by lia.
      assert (G2 : (2 * Z.of_N (d_coef d) <= 2 * (10 ^ 28 * Z.of_N p)
                                              + Z.of_N p)%Z) by lia.
      rewrite HP in G1, G2. lia.
    + destruct (Z.gtb_spec em (999999 - 28 + 1)) as [Ho|Ho]; [lia|].
      right. eexists. exists (em - e)%Z.
      split; [reflexivity|]. split; [lia|]. cbn [d_sign d_coef d_exp].
      split; [reflexivity|]. split.
      { destruct (N.eq_dec c1 (10 ^ 28)) as [E|E]; [|lia].
        rewrite E in Hc. vm_compute in Hc. now destruct Hc. }
      split; [lia|]. split; [lia|].
      assert (G1 : (2 * (Z.of_N c1 * Z.of_N p) <= 2 * Z.of_N (d_coef d)
                                                  + Z.of_N p)%Z) by lia.
      assert (G2 : (2 * Z.of_N (d_coef d) <= 2 * (Z.of_N c1 * Z.of_N p)
                                              + Z.of_N p)%Z) by lia.
      rewrite HP in G1, G2. lia.
  - right. exists d, 0%Z. split; [reflexivity|]. split; [lia|].
    split; [reflexivity|]. split.
    { eapply N.lt_le_trans; [exact Hdig|]. apply N.pow_le_mono_r; lia. }
    split; [lia|]. split; [fold e; lia|].
    rewrite Z.pow_0_r, Z.mul_1_r, Z.sub_diag. simpl. lia.
Qed.

(** C6 (as amended).  When the kept characters convert to a negative
    number of at most 28 significant digits and of exponent -1000026 or
    more (the precision and the smallest exponent of the default
    context), [_parse_amount] without [allow_negative] returns exactly
    its absolute value: the sign is discarded, the input is not
    rejected.  For every other negative number the result is [abs]
    under the context.  It is [None] ([Overflow] is raised and caught)
    whenever the number has more than 1000000 digits before the point,
    and never when it has fewer than 1000000.  Otherwise it is a number
    that is not negative, has at most 28 digits and lies within half a
    unit of its last digit of the absolute value.  ["-50"] gives 50.  A
    failed conversion gives [None], and no exception ever leaves
    [_parse_amount]. *)
Theorem parse_amount_discards_sign :
  (forall (x : str) (amount : Decimal),
      Dec.of_str (filter amount_char x) = Ok amount ->
      Dec.ltb0 amount = true ->
      (d_coef amount < 10 ^ 28)%N ->
      (-1000026 <= d_exp amount)%Z ->
      exists r,
        parse_amount x false = Ok (Some r)
        /\ r = {| d_sign := false; d_coef := d_coef amount;
                  d_exp := d_exp amount |}
        /\ (Dec.value r == Qabs (Dec.value amount))%Q)
  /\ (forall (x : str) (amount : Decimal),
         Dec.of_str (filter amount_char x) = Ok amount ->
         Dec.ltb0 amount = true ->
         (parse_amount x false = Ok None
          /\ (1000000 <= Dec.ndigits (d_coef amount) + d_exp amount)%Z)
         \/ exists r k,
             parse_amount x false = Ok (Some r)
             /\ (Dec.ndigits (d_coef amount) + d_exp amount <= 1000000)%Z
             /\ d_sign r = false
             /\ (d_coef r < 10 ^ 28)%N
             /\ (0 <= k)%Z
             /\ d_exp r = (d_exp amount + k)%Z
             /\ (2 * Z.abs (Z.of_N (d_coef r) * 10 ^ k
                            - Z.of_N (d_coef amount))
                 <= 10 ^ k)%Z)
  /\ parse_amount (lit "-50") false
     = Ok (Some {| d_sign := false; d_coef := 50; d_exp := 0 |})
  /\ (forall (x : str) (b : bool) (e : Exn),
         Dec.of_str (filter amount_char x) = Raise e ->
         parse_amount x b = Ok None)
  /\ (forall (x : str) (b : bool), exists r, parse_amount x b = Ok r).
Proof.
  split; [|split; [|split; [reflexivity|split]]].
  - intros x amount Hconv Hneg Hc He.
    destruct (ltb0_inv _ Hneg) as [Hs Hnz].
    pose proof (of_str_exp_nonpos _ _ Hconv) as Hle.
    eexists. split; [|split; [reflexivity|]].
    + rewrite parse_amount_cleaned.
      destruct (filter amount_char x) as [|c cl] eqn:Ef.
      * discriminate Hconv.
      * unfold convert_amount. rewrite Hconv, Hneg. simpl.
        rewrite abs_exact; auto.
    + destruct amount as [sg c e]. simpl in *. subst sg. apply value_abs.
  - intros x amount Hconv Hneg.
    destruct (ltb0_inv _ Hneg) as [Hs Hnz].
    assert (E : parse_amount x false
                = match Dec.abs amount with
                  | Ok a => Ok (Some a)
                  | Raise _ => Ok None
                  end).
    { rewrite parse_amount_cleaned.
      destruct (filter amount_char x) as [|c cl] eqn:Ef;
        [discriminate Hconv|].
      unfold convert_amount. rewrite Hconv, Hneg. simpl.
      now destruct (Dec.abs amount). }
    rewrite E. unfold Dec.abs.
    destruct (fix_rounds {| d_sign := false; d_coef := d_coef amount;
                            d_exp := d_exp amount |} Hnz)
      as [[-> Hbig] | (r & k & -> & H0 & H1 & H2 & H3 & H4 & H5)].
    + left. split; [reflexivity|exact Hbig].
    + right. exists r, k. repeat split; auto.
  - intros x b e Hconv. rewrite parse_amount_cleaned.
    destruct (filter amount_char x); [reflexivity|].
    unfold convert_amount. now rewrite Hconv.
  - apply parse_amount_total.
Qed.

Lemma parse_amount_discards_sign_witness :
  exists r,
    parse_amount (lit "($-1,250.75)") false = Ok (Some r)
    /\ r = {| d_sign := false; d_coef := 125075; d_exp := -2 |}
    /\ (Dec.value r
        == Qabs (Dec.value {| d_sign := true; d_coef := 125075; d_exp := -2 |}))%Q.
Proof.
  apply (proj1 parse_amount_discards_sign (lit "($-1,250.75)")
           {| d_sign := true; d_coef := 125075; d_exp := -2 |}).
  - reflexivity.
  - reflexivity.
  - reflexivity.
  - simpl. lia.
Defined.

(** C6, as first stated, fails beyond the context's precision: a negative
    number of 29 digits is not turned into its absolute value but into
    that value rounded to 28 significant digits. *)
Lemma parse_amount_abs_rounds :
  let x := lit "-10000000000000000000000000001" in
  exists amount r,
    Dec.of_str x = Ok amount
    /\ Dec.ltb0 amount = true
    /\ parse_amount x false = Ok (Some r)
    /\ r = {| d_sign := false; d_coef := 1000000000000000000000000000;
              d_exp := 1 |}
    /\ ~ (Dec.value r == Qabs (Dec.value amount))%Q.
Proof.
  exists {| d_sign := true; d_coef := 10000000000000000000000000001;
            d_exp := 0 |}.
  exists {| d_sign := false; d_coef := 1000000000000000000000000000;
            d_exp := 1 |}.
  split; [vm_compute; reflexivity|].
  split; [vm_compute; reflexivity|].
  split; [vm_compute; reflexivity|].
  split; [reflexivity|].
  intros H. vm_compute in H. discriminate H.
Qed.

(** ** Dates *)

Lemma strptime_raises_ValueError (x fmt : str) (e : Exn) :
  Strptime.strptime x fmt = Raise e -> is_ValueError e = true.
Proof.
  unfold Strptime.strptime.
  destruct (Strptime.has_bad _); [intros H; injection H as <-; reflexivity|].
  destruct (Strptime.matches _ _ x) as [|[fs r] ?];
    [intros H; injection H as <-; reflexivity|].
  destruct (truthy r); [intros H; injection H as <-; reflexivity|].
  match goal with |- context [if ?b then _ else _] => destruct b end;
    [discriminate|intros H; injection H as <-; reflexivity].
Qed.

(** The format loop returns the parse of the first format that succeeds. *)
Lemma try_formats_Some (x : str) (fmts : list str) (d : DateTime) :
  try_formats x fmts = Ok (Some d) <->
  exists pre fmt post,
    fmts = pre ++ fmt :: post
    /\ Strptime.strptime x fmt = Ok d
    /\ forall f, In f pre -> exists e, Strptime.strptime x f = Raise e.
Proof.
  induction fmts as [|f fmts IH]; simpl.
  - split; [discriminate|].
    intros (pre & fmt & post & H & _). now destruct pre.
  - destruct (Strptime.strptime x f) as [d0|e] eqn:E.
    + split.
      * intros H. injection H as <-. exists [], f, fmts.
        repeat split; auto. intros ? [].
      * intros (pre & fmt & post & H & Hd & Hpre).
        destruct pre as [|p pre]; simpl in H; injection H as <- H.
        -- congruence.
        -- destruct (Hpre f (or_introl eq_refl)) as [e He]. congruence.
    + rewrite (strptime_raises_ValueError _ _ _ E), IH. split.
      * intros (pre & fmt & post & -> & Hd & Hpre).
        exists (f :: pre), fmt, post. repeat split; auto.
        intros g [<- | Hg]; [now exists e | auto].
      * intros (pre & fmt & post & H & Hd & Hpre).
        destruct pre as [|p pre]; simpl in H; injection H as <- H.
        -- congruence.
        -- exists pre, fmt, post. repeat split; auto.
           intros g Hg. apply Hpre. now right.
Qed.

Lemma try_formats_None (x : str) (fmts : list str) :
  try_formats x fmts = Ok None <->
  forall f, In f fmts -> exists e, Strptime.strptime x f = Raise e.
Proof.
  induction fmts as [|f fmts IH]; simpl.
  - split; [intros _ ? []|reflexivity].
  - destruct (Strptime.strptime x f) as [d0|e] eqn:E.
    + split; [discriminate|].
      intros H. destruct (H f (or_introl eq_refl)) as [e He]. congruence.
    + rewrite (strptime_raises_ValueError _ _ _ E), IH. split.
      * intros H g [<- | Hg]; [now exists e | auto].
      * intros H g Hg. apply H. now right.
Qed.

Lemma parse_date_nonblank (x : str) :
  strip x <> [] -> parse_date x = try_formats (strip x) date_formats.
Proof.
  intros H. unfold parse_date.
  destruct x as [|c x]; [now destruct H|].
  apply truthy_true_iff in H. rewrite H. reflexivity.
Qed.

(** C7.  [_parse_date] goes through a fixed, ordered list of formats and
    returns the first successful parse; empty or blank input gives [None].
    The US pattern [%m/%d/%Y] comes before the EU pattern [%d/%m/%Y], so
    ["03/04/2023"], which both accept, is read month first: March 4,
    2023. *)
Theorem parse_date_first_matching_format :
  date_formats
  = map lit ["%Y-%m-%d"; "%m/%d/%Y"; "%d/%m/%Y"; "%Y/%m/%d"; "%m-%d-%Y";
             "%d-%m-%Y"; "%b %d, %Y"; "%B %d, %Y"; "%d %b %Y";
             "%d %B %Y"]%string
  /\ (forall x : str, strip x = [] -> parse_date x = Ok None)
  /\ (forall (x : str) (d : DateTime),
         strip x <> [] ->
         (parse_date x = Ok (Some d) <->
          exists pre fmt post,
            date_formats = pre ++ fmt :: post
            /\ Strptime.strptime (strip x) fmt = Ok d
            /\ forall f, In f pre ->
                         exists e, Strptime.strptime (strip x) f = Raise e))
  /\ (forall x : str,
         strip x <> [] ->
         (parse_date x = Ok None <->
          forall f, In f date_formats ->
                    exists e, Strptime.strptime (strip x) f = Raise e))
  /\ (forall x : str, exists r, parse_date x = Ok r)
  /\ parse_date (lit "03/04/2023")
     = Ok (Some {| year := 2023; month := 3; day := 4 |})
  /\ Strptime.strptime (lit "03/04/2023") (lit "%m/%d/%Y")
     = Ok {| year := 2023; month := 3; day := 4 |}
  /\ Strptime.strptime (lit "03/04/2023") (lit "%d/%m/%Y")
     = Ok {| year := 2023; month := 4; day := 3 |}.
Proof.
  split; [reflexivity|]. split; [|split; [|split; [|split]]].
  - intros x H. unfold parse_date. rewrite H. simpl.
    now rewrite orb_true_r.
  - intros x d H. rewrite (parse_date_nonblank _ H). apply try_formats_Some.
  - intros x H. rewrite (parse_date_nonblank _ H). apply try_formats_None.
  - intros x. destruct x as [|c x]; [now eexists|].
    destruct (truthy (strip (c :: x))) eqn:E.
    + rewrite parse_date_nonblank by now apply truthy_true_iff.
      destruct (try_formats (strip (c :: x)) date_formats) as [r|e] eqn:Et;
        [now eexists|].
      exfalso. revert Et. generalize date_formats as fmts.
      induction fmts as [|f fmts IH]; simpl; [discriminate|].
      destruct (Strptime.strptime _ f) as [d0|e0] eqn:E0; [discriminate|].
      now rewrite (strptime_raises_ValueError _ _ _ E0).
    + unfold parse_date. rewrite E. now eexists.
  - repeat split; vm_compute; reflexivity.
Qed.

Lemma parse_date_first_matching_format_witness :
  parse_date (lit " 13/04/2023 ")
  = Ok (Some {| year := 2023; month := 4; day := 13 |}).
Proof.
  apply (proj1 (proj2 (proj2 parse_date_first_matching_format))
           (lit " 13/04/2023 ") {| year := 2023; month := 4; day := 13 |}).
  - vm_compute. discriminate.
  - exists (map lit ["%Y-%m-%d"; "%m/%d/%Y"]%string), (lit "%d/%m/%Y"),
      (map lit ["%Y/%m/%d"; "%m-%d-%Y"; "%d-%m-%Y"; "%b %d, %Y"; "%B %d, %Y";
                "%d %b %Y"; "%d %B %Y"]%string).
    split; [reflexivity|]. split; [vm_compute; reflexivity|].
    intros f [<- | [<- | []]]; eexists; vm_compute; reflexivity.
Defined.

(** ** Classification *)

Lemma max_score_zero (table : Table) :
  max_score table = 0 <->
  capital_score table = 0 /\ distribution_score table = 0
  /\ adjustment_score table = 0.
Proof. unfold max_score. lia. Qed.

(** C3.  [_classify_table] is a function of the three keyword scores over
    the first three rows: unclassified exactly when all three are zero,
    otherwise the first of capital call, distribution, adjustment whose
    score is the maximum.  In particular a table whose capital-call and
    distribution scores are equal and maximal is a capital-call table. *)
Theorem classify_table_tie_break (table : Table) :
  (classify_table table = None <->
   capital_score table = 0 /\ distribution_score table = 0
   /\ adjustment_score table = 0)
  /\ (classify_table table = Some capital_call <->
      0 < capital_score table
      /\ distribution_score table <= capital_score table
      /\ adjustment_score table <= capital_score table)
  /\ (classify_table table = Some distribution <->
      capital_score table < distribution_score table
      /\ adjustment_score table <= distribution_score table)
  /\ (classify_table table = Some adjustment <->
      capital_score table < adjustment_score table
      /\ distribution_score table < adjustment_score table)
  /\ (capital_score table = distribution_score table ->
      adjustment_score table <= capital_score table ->
      0 < capital_score table ->
      classify_table table = Some capital_call).
Proof.
  assert (Hempty : table = [] ->
                   capital_score table = 0 /\ distribution_score table = 0
                   /\ adjustment_score table = 0)
    by (intros ->; repeat split; reflexivity).
  unfold classify_table.
  destruct table as [|row rows].
  - destruct (Hempty eq_refl) as (-> & -> & ->).
    repeat split; intros; try discriminate; try lia; auto.
  - clear Hempty. unfold max_score.
    set (c := capital_score (row :: rows)).
    set (d := distribution_score (row :: rows)).
    set (a := adjustment_score (row :: rows)).
    destruct (Nat.eqb_spec (Nat.max (Nat.max c d) a) 0) as [H0|H0];
      [|destruct (Nat.eqb_spec c (Nat.max (Nat.max c d) a)) as [Hc|Hc];
        [|destruct (Nat.eqb_spec d (Nat.max (Nat.max c d) a)) as [Hd|Hd]]];
      repeat split; intros; try discriminate; try lia; auto;
      try (exfalso; lia).
Qed.

Lemma classify_table_tie_break_witness :
  classify_table [[lit "Call Date"; lit "Payment"]; [lit "x"; lit "y"]]
  = Some capital_call.
Proof.
  apply (proj2 (proj2 (proj2 (proj2
           (classify_table_tie_break
              [[lit "Call Date"; lit "Payment"]; [lit "x"; lit "y"]]))))).
  - vm_compute. reflexivity.
  - vm_compute. lia.
  - vm_compute. lia.
Defined.

(** ** Table parsing orchestrator *)

Section Orchestrator.

Variable fails : History -> Call -> option Exn.
Variable fund_id : Z.

Lemma add_counts_zero (s : Stats) : add_counts s (0, 0, 0) = s.
Proof. destruct s; unfold add_counts; simpl. now rewrite !Nat.add_0_r. Qed.

(** What one table contributes does not depend on the statistics
    gathered so far. *)
Lemma parse_one_table_stats (table : Table) (h : History) :
  exists (r : outcome (nat * nat * nat)) (h' : History),
    forall s, parse_one_table fails table fund_id s h
              = (match r with
                 | Ok c => Ok (add_counts s c)
                 | Raise e => Raise e
                 end, h').
Proof.
  unfold parse_one_table.
  destruct (classify_table table) as [[| |]|]; unfold bind, ret.
  - destruct (parse_capital_calls fails table fund_id h) as [[n|e] h'].
    + exists (Ok (n, 0, 0)), h'. intros s. unfold add_counts.
      now rewrite !Nat.add_0_r.
    + now exists (Raise e), h'.
  - destruct (parse_distributions fails table fund_id h) as [[n|e] h'].
    + exists (Ok (0, n, 0)), h'. intros s. unfold add_counts.
      now rewrite !Nat.add_0_r.
    + now exists (Raise e), h'.
  - destruct (parse_adjustments fails table fund_id h) as [[n|e] h'].
    + exists (Ok (0, 0, n)), h'. intros s. unfold add_counts.
      now rewrite !Nat.add_0_r.
    + now exists (Raise e), h'.
  - exists (Ok (0, 0, 0)), h. intros s. now rewrite add_counts_zero.
Qed.

Lemma counts_add_counts (s s' : Stats) (c : nat * nat * nat) :
  counts s = counts s' -> counts (add_counts s c) = counts (add_counts s' c).
Proof.
  destruct c as [[cc d] a]. unfold counts, add_counts; simpl.
  intros H. injection H as -> -> ->. reflexivity.
Qed.

Lemma tables_loop_short (idx : nat) (table : Table) (tables : list Table)
      (s : Stats) (h : History) :
  List.length table < 2 ->
  tables_loop fails fund_id idx (table :: tables) s h
  = tables_loop fails fund_id (S idx) tables s h.
Proof.
  intros H. simpl. apply Nat.ltb_lt in H. rewrite H.
  now rewrite orb_true_r.
Qed.

(** The same tables read one position later: same calls, same counts,
    and the same error entries with positions one higher. *)
Lemma tables_loop_shift (tables : list Table) :
  forall (idx : nat) (sA sB : Stats) (h : History),
    counts sA = counts sB ->
    exists es sA' sB' h',
      tables_loop fails fund_id idx tables sB h = (Ok sB', h')
      /\ tables_loop fails fund_id (S idx) tables sA h = (Ok sA', h')
      /\ counts sA' = counts sB'
      /\ errors sB' = errors sB ++ render_errors (fun i => i) es
      /\ errors sA' = errors sA ++ render_errors S es
      /\ Forall (fun p => idx <= fst p) es.
Proof.
  induction tables as [|table tables IH]; intros idx sA sB h Hc.
  - exists [], sA, sB, h. simpl. rewrite !app_nil_r. repeat split; auto.
  - simpl.
    destruct (negb (nonempty table) || (List.length table <? 2)).
    + destruct (IH (S idx) sA sB h Hc) as (es & sA' & sB' & h' & H).
      exists es, sA', sB', h'. intuition.
      eapply Forall_impl; [|eassumption]. simpl. intros; lia.
    + unfold bind, try_except, ret.
      destruct (parse_one_table_stats table h) as (r & h1 & Hr).
      rewrite (Hr sA), (Hr sB).
      destruct r as [c|e].
      * destruct (IH (S idx) (add_counts sA c) (add_counts sB c) h1
                    (counts_add_counts _ _ c Hc))
          as (es & sA' & sB' & h' & H1 & H2 & H3 & H4 & H5 & H6).
        exists es, sA', sB', h'. repeat split; auto.
        -- rewrite H4. now destruct c as [[? ?] ?].
        -- rewrite H5. now destruct c as [[? ?] ?].
        -- eapply Forall_impl; [|eassumption]. simpl. intros; lia.
      * destruct (IH (S idx) (add_error sA (table_error (S idx) e))
                    (add_error sB (table_error idx e)) h1 Hc)
          as (es & sA' & sB' & h' & H1 & H2 & H3 & H4 & H5 & H6).
        exists ((idx, e) :: es), sA', sB', h'. repeat split; auto.
        -- rewrite H4. simpl. now rewrite <- app_assoc.
        -- rewrite H5. simpl. now rewrite <- app_assoc.
        -- constructor; [simpl; lia|].
           eapply Forall_impl; [|eassumption]. simpl. intros; lia.
Qed.

(** The loop never raises, and the entries it adds are tagged with
    positions of the tables it went through. *)
Lemma tables_loop_ok (tables : list Table) :
  forall (idx : nat) (s : Stats) (h : History),
    exists es s' h',
      tables_loop fails fund_id idx tables s h = (Ok s', h')
      /\ errors s' = errors s ++ render_errors (fun i => i) es
      /\ Forall (fun p => fst p < idx + List.length tables) es.
Proof.
  induction tables as [|table tables IH]; intros idx s h.
  - exists [], s, h. simpl. rewrite app_nil_r. repeat split; auto.
  - simpl.
    destruct (negb (nonempty table) || (List.length table <? 2)).
    + destruct (IH (S idx) s h) as (es & s' & h' & H1 & H2 & H3).
      exists es, s', h'. repeat split; auto.
      eapply Forall_impl; [|eassumption]. simpl. intros; lia.
    + unfold bind, try_except, ret.
      destruct (parse_one_table_stats table h) as (r & h1 & Hr).
      rewrite (Hr s). destruct r as [c|e].
      * destruct (IH (S idx) (add_counts s c) h1)
          as (es & s' & h' & H1 & H2 & H3).
        exists es, s', h'. repeat split; auto.
        -- rewrite H2. now destruct c as [[? ?] ?].
        -- eapply Forall_impl; [|eassumption]. simpl. intros; lia.
      * destruct (IH (S idx) (add_error s (table_error idx e)) h1)
          as (es & s' & h' & H1 & H2 & H3).
        exists ((idx, e) :: es), s', h'. repeat split; auto.
        -- rewrite H2. simpl. now rewrite <- app_assoc.
        -- constructor; [simpl; lia|].
           eapply Forall_impl; [|eassumption]. simpl. intros; lia.
Qed.

Lemma tables_loop_app (pre rest : list Table) :
  forall (idx : nat) (s : Stats) (h : History),
    tables_loop fails fund_id idx (pre ++ rest) s h
    = match tables_loop fails fund_id idx pre s h with
      | (Ok s', h') =>
          tables_loop fails fund_id (idx + List.length pre) rest s' h'
      | (Raise e, h') => (Raise e, h')
      end.
Proof.
  induction pre as [|table pre IH]; intros idx s h; simpl.
  - now rewrite Nat.add_0_r.
  - destruct (negb (nonempty table) || (List.length table <? 2)).
    + rewrite IH. now rewrite Nat.add_succ_r.
    + unfold bind. destruct (try_except _ _ h) as [[s1|e] h1]; auto.
      rewrite IH. now rewrite Nat.add_succ_r.
Qed.

Lemma render_errors_bump_low (k : nat) (es : list (nat * Exn)) :
  Forall (fun p => fst p < k) es ->
  render_errors (bump k) es = render_errors (fun i => i) es.
Proof.
  unfold render_errors.
  induction 1 as [|[i e] es Hi _ IH]; simpl; [reflexivity|].
  rewrite IH. unfold bump.
  simpl in Hi. apply Nat.ltb_lt in Hi. now rewrite Hi.
Qed.

Lemma render_errors_bump_high (k : nat) (es : list (nat * Exn)) :
  Forall (fun p => k <= fst p) es ->
  render_errors (bump k) es = render_errors S es.
Proof.
  unfold render_errors.
  induction 1 as [|[i e] es Hi _ IH]; simpl; [reflexivity|].
  rewrite IH. unfold bump.
  simpl in Hi. apply Nat.ltb_ge in Hi. now rewrite Hi.
Qed.

(** C8 (as amended).  A table with fewer than two rows adds nothing:
    [parse_tables] makes the same calls and returns the same counts as
    without it, and the same error entries, except that an entry names
    the position of its table in the list it was given, so the entries
    of the tables after the short one carry a position one higher. *)
Theorem parse_tables_skips_short_table
        (pre post : list Table) (table : Table) (h : History) :
  List.length table < 2 ->
  exists es stats stats' h',
    parse_tables fails (pre ++ table :: post) fund_id h = (Ok stats, h')
    /\ parse_tables fails (pre ++ post) fund_id h = (Ok stats', h')
    /\ counts stats = counts stats'
    /\ errors stats' = render_errors (fun i => i) es
    /\ errors stats = render_errors (bump (List.length pre)) es
    /\ List.length (errors stats) = List.length (errors stats').
Proof.
  intros Hshort. unfold parse_tables.
  set (s0 := {| capital_calls := 0; distributions := 0; adjustments := 0;
                errors := [] |}).
  rewrite !tables_loop_app.
  destruct (tables_loop_ok pre 0 s0 h) as (es1 & s1 & h1 & E1 & Herr1 & Hlow).
  rewrite E1. simpl "+".
  rewrite (tables_loop_short _ _ _ _ _ Hshort).
  destruct (tables_loop_shift post (List.length pre) s1 s1 h1 eq_refl)
    as (es2 & sA & sB & h2 & EB & EA & Hc & HerrB & HerrA & Hhigh).
  exists (es1 ++ es2), sA, sB, h2.
  assert (HA : errors sA = render_errors (bump (List.length pre)) (es1 ++ es2)).
  { unfold render_errors. rewrite map_app.
    fold (render_errors (bump (List.length pre)) es1).
    fold (render_errors (bump (List.length pre)) es2).
    rewrite render_errors_bump_low by exact Hlow.
    rewrite render_errors_bump_high by exact Hhigh.
    rewrite HerrA, Herr1. reflexivity. }
  assert (HB : errors sB = render_errors (fun i => i) (es1 ++ es2)).
  { unfold render_errors. rewrite map_app. rewrite HerrB, Herr1. reflexivity. }
  repeat split; auto.
  rewrite HA, HB. unfold render_errors. now rewrite !length_map.
Qed.

End Orchestrator.

Lemma parse_tables_skips_short_table_witness :
  exists es stats stats' h',
    parse_tables commit_fails ([sample_table] ++ [] :: [sample_table]) 7 []
    = (Ok stats, h')
    /\ parse_tables commit_fails ([sample_table] ++ [sample_table]) 7 []
       = (Ok stats', h')
    /\ counts stats = counts stats'
    /\ errors stats' = render_errors (fun i => i) es
    /\ errors stats = render_errors (bump 1) es
    /\ List.length (errors stats) = List.length (errors stats').
Proof.
  apply (parse_tables_skips_short_table commit_fails 7
           [sample_table] [sample_table] [] []).
  simpl. lia.
Defined.

(** C8, as first stated, fails when a later table meets an error: the
    error list is not the one obtained without the short table, because
    the entry names the table's position. *)
Lemma short_table_shifts_error_positions :
  List.length (@nil (list str)) < 2
  /\ (exists stats h,
         parse_tables commit_fails [[]; sample_table] 7 [] = (Ok stats, h)
         /\ errors stats = [lit "Error parsing table 1: db down"])
  /\ (exists stats' h,
         parse_tables commit_fails [sample_table] 7 [] = (Ok stats', h)
         /\ errors stats' = [lit "Error parsing table 0: db down"])
  /\ ~ (forall stats stats' h h',
           parse_tables commit_fails [[]; sample_table] 7 [] = (Ok stats, h) ->
           parse_tables commit_fails [sample_table] 7 [] = (Ok stats', h') ->
           errors stats = errors stats').
Proof.
  split; [simpl; lia|].
  split; [eexists; eexists; split; vm_compute; reflexivity|].
  split; [eexists; eexists; split; vm_compute; reflexivity|].
  intros H.
  specialize (H _ _ _ _ eq_refl eq_refl). vm_compute in H. discriminate H.
Qed.

(** ** Document pipeline *)

Section DocumentPipeline.

Variable fails : History -> Call -> option Exn.
Variable pdf_content : History -> str -> list Table * list PageContent.
Variable CHUNK_SIZE CHUNK_OVERLAP : Z.

(** A failed submission is caught chunk by chunk. *)
Lemma store_chunks_ok (document_id fund_id : Z) (chunks : list Chunk) :
  forall (n : nat) (h : History),
    exists n' h',
      store_chunks fails document_id fund_id chunks n h = (Ok n', h').
Proof.
  induction chunks as [|c chunks IH]; intros n h; simpl.
  - now exists n, h.
  - unfold bind, try_except, call, do_print, ret.
    destruct (fails h _); apply IH.
Qed.

(** Only extraction can make the [try] block raise, and a block that
    returns reports completion. *)
Lemma process_document_body_cases (file_path : str)
      (document_id fund_id : Z) (h : History) :
  match process_document_body fails pdf_content CHUNK_SIZE CHUNK_OVERLAP
          file_path document_id fund_id h with
  | (Ok r, _) =>
      fails h (extract_pdf_content file_path) = None
      /\ exists st, r = completed st
  | (Raise e, h') =>
      fails h (extract_pdf_content file_path) = Some e
      /\ h' = h ++ [extract_pdf_content file_path]
  end.
Proof.
  unfold process_document_body, bind, do_extract.
  destruct (fails h (extract_pdf_content file_path)) as [e|]; [auto|].
  destruct (pdf_content h file_path) as [tables text_content].
  unfold parse_tables.
  destruct (tables_loop_ok fails fund_id tables 0
              {| capital_calls := 0; distributions := 0; adjustments := 0;
                 errors := [] |} (h ++ [extract_pdf_content file_path]))
    as (es & s' & h' & -> & _).
  destruct (store_chunks_ok document_id fund_id
              (chunk_text CHUNK_SIZE CHUNK_OVERLAP text_content) 0 h')
    as (n' & h'' & ->).
  unfold ret. split; [reflexivity|now eexists].
Qed.

(** C9 (as amended).  [process_document] raises to its caller in two
    cases only: when [SessionLocal()] raises, which stands before the
    [try] (nothing else is then called, not even [db.close()]), and when
    [db.close()] raises in the [finally], whose exception replaces the
    result.  In every other case it returns: whatever escapes
    extraction, table parsing, chunking or indexing is caught and
    becomes a [failed] result that carries the exception's text, and
    [db.close()] is the last call on every path once the session is
    open. *)
Theorem process_document_never_raises
        (file_path : str) (document_id fund_id : Z) (h : History) :
  match fails h SessionLocal with
  | Some e =>
      process_document fails pdf_content CHUNK_SIZE CHUNK_OVERLAP
        file_path document_id fund_id h = (Raise e, h ++ [SessionLocal])
  | None =>
      exists r h',
        process_document fails pdf_content CHUNK_SIZE CHUNK_OVERLAP
          file_path document_id fund_id h
        = (match fails h' db_close with
           | Some e => Raise e
           | None => Ok r
           end, h' ++ [db_close])
        /\ match process_document_body fails pdf_content CHUNK_SIZE
                  CHUNK_OVERLAP file_path document_id fund_id
                  (h ++ [SessionLocal]) with
           | (Ok r0, hb) => r = r0 /\ h' = hb /\ exists st, r = completed st
           | (Raise e, hb) =>
               r = failed (exn_msg e)
               /\ h' = hb ++ [print (lit "Error processing document: "
                                     ++ exn_msg e)]
           end
  end.
Proof.
  destruct (fails h SessionLocal) as [e0|] eqn:Eo;
    unfold process_document, bind, try_finally, try_except, do_print, ret;
    unfold call at 1; rewrite Eo; [reflexivity|].
  pose proof (process_document_body_cases file_path document_id fund_id
                (h ++ [SessionLocal])) as Hb.
  destruct (process_document_body fails pdf_content CHUNK_SIZE CHUNK_OVERLAP
              file_path document_id fund_id (h ++ [SessionLocal]))
    as [[r0|e] hb].
  - unfold call. exists r0, hb. split.
    + now destruct (fails hb db_close).
    + destruct Hb as [_ Hst]. auto.
  - unfold call.
    exists (failed (exn_msg e)),
      (hb ++ [print (lit "Error processing document: " ++ exn_msg e)]).
    split; [|auto].
    now destruct (fails (hb ++ [print (lit "Error processing document: "
                                       ++ exn_msg e)]) db_close).
Qed.

End DocumentPipeline.

Lemma process_document_never_raises_witness :
  exists r h',
    process_document extraction_fails no_content 1000 200
      (lit "report.pdf") 1 7 [] = (Ok r, h' ++ [db_close])
    /\ match process_document_body extraction_fails no_content 1000 200
              (lit "report.pdf") 1 7 ([] ++ [SessionLocal]) with
       | (Ok r0, hb) => r = r0 /\ h' = hb /\ exists st, r = completed st
       | (Raise e, hb) =>
           r = failed (exn_msg e)
           /\ h' = hb ++ [print (lit "Error processing document: "
                                 ++ exn_msg e)]
       end.
Proof.
  exact (process_document_never_raises extraction_fails no_content 1000 200
           (lit "report.pdf") 1 7 []).
Defined.

(** C9, as first stated, fails for the session itself: an exception of
    [SessionLocal()] is raised before the [try] is entered, and one of
    [db.close()] leaves the [finally]; both reach the caller. *)
Lemma session_failure_reaches_caller :
  (exists e,
      process_document open_fails no_content 1000 200
        (lit "report.pdf") 1 7 []
      = (Raise e, [SessionLocal]))
  /\ (exists e,
         process_document close_fails no_content 1000 200
           (lit "report.pdf") 1 7 []
         = (Raise e,
            [SessionLocal; extract_pdf_content (lit "report.pdf");
             db_close])).
Proof. split; eexists; vm_compute; reflexivity. Qed.

(** ** Text chunker: chunk indices *)

Section ChunkIndices.

Variable CHUNK_SIZE CHUNK_OVERLAP : Z.

Lemma numbered_snoc (b : nat) (chunks : list Chunk) (idx : nat)
      (t : str) (pg : Z) :
  numbered b chunks idx ->
  numbered b (chunks ++ [{| text := t; page := pg; chunk_index := idx |}])
           (S idx).
Proof.
  intros [Hm Hi]. split.
  - rewrite map_app, length_app, seq_app, Hm. simpl. now rewrite Hi.
  - rewrite length_app. simpl. lia.
Qed.

Lemma numbered_app (b : nat) (chunks more : list Chunk) (idx : nat) :
  numbered b chunks idx ->
  map chunk_index more = seq idx (List.length more) ->
  numbered b (chunks ++ more) (idx + List.length more).
Proof.
  intros [Hm Hi] Hmore. split.
  - rewrite map_app, length_app, seq_app, Hm, Hmore. now rewrite Hi.
  - rewrite length_app. lia.
Qed.

Lemma flush_if_current_numbered (b : nat) (pg : Z) (st : LoopState) :
  numbered_state b st ->
  numbered b (fst (flush_if_current pg st)) (snd (flush_if_current pg st)).
Proof.
  destruct st as [[chunks idx] cur]. unfold numbered_state, flush_if_current.
  simpl. intros H. destruct (truthy cur); simpl; [|exact H].
  now apply numbered_snoc.
Qed.

Lemma word_step_numbered (b : nat) (pg : Z) (st : LoopState) (w : str) :
  numbered_state b st -> numbered_state b (word_step CHUNK_SIZE pg st w).
Proof.
  intros H. pose proof (flush_if_current_numbered b pg st H) as Hf.
  destruct st as [[chunks idx] cur]. unfold word_step.
  destruct (_ >? _)%Z; [|exact H].
  destruct (flush_if_current pg (chunks, idx, cur)). exact Hf.
Qed.

Lemma fold_numbered {A} (b : nat) (step : LoopState -> A -> LoopState) :
  (forall st x, numbered_state b st -> numbered_state b (step st x)) ->
  forall xs st, numbered_state b st -> numbered_state b (fold_left step xs st).
Proof.
  intros Hstep xs. induction xs as [|x xs IH]; intros st H; simpl; auto.
Qed.

Lemma sentence_step_numbered (b : nat) (pg : Z) (st : LoopState) (x : str) :
  numbered_state b st -> numbered_state b (sentence_step CHUNK_SIZE pg st x).
Proof.
  intros H. pose proof (flush_if_current_numbered b pg st H) as Hf.
  destruct st as [[chunks idx] cur]. unfold sentence_step.
  destruct (_ >? _)%Z; [|exact H].
  destruct (flush_if_current pg (chunks, idx, cur)) as [chunks' idx'].
  destruct (_ >? _)%Z; [|exact Hf].
  apply fold_numbered; [apply word_step_numbered|exact Hf].
Qed.

(** The chunks of [_split_large_paragraph] are numbered from
    [start_index] on. *)
Lemma split_large_paragraph_numbered (paragraph : str) (pg : Z)
      (start_index : nat) :
  let chunks := split_large_paragraph CHUNK_SIZE paragraph pg start_index in
  map chunk_index chunks = seq start_index (List.length chunks).
Proof.
  unfold split_large_paragraph.
  assert (H : numbered_state start_index
                (fold_left (sentence_step CHUNK_SIZE pg)
                   (split_sentences paragraph) ([], start_index, []))).
  { apply fold_numbered; [apply sentence_step_numbered|].
    split; simpl; [reflexivity|lia]. }
  destruct (fold_left _ _ _) as [[chunks idx] cur]. unfold final_chunk.
  destruct (truthy (strip cur)); [|apply H].
  apply (numbered_snoc _ _ _ (strip cur) pg H).
Qed.

Lemma paragraph_step_numbered (pg : Z) (st : LoopState) (x : str) :
  numbered_state 0 st ->
  numbered_state 0 (paragraph_step CHUNK_SIZE CHUNK_OVERLAP pg st x).
Proof.
  intros H. destruct st as [[chunks idx] cur]. unfold paragraph_step.
  destruct (negb (truthy (strip x))); [exact H|].
  destruct (_ >? _)%Z; [|exact H].
  destruct (truthy cur).
  - apply (numbered_snoc _ _ _ (strip cur) pg H).
  - apply numbered_app; [exact H|apply split_large_paragraph_numbered].
Qed.

Lemma page_step_numbered (st : list Chunk * nat) (pc : PageContent) :
  numbered 0 (fst st) (snd st) ->
  numbered 0 (fst (page_step CHUNK_SIZE CHUNK_OVERLAP st pc))
           (snd (page_step CHUNK_SIZE CHUNK_OVERLAP st pc)).
Proof.
  destruct st as [chunks idx]. simpl. intros H. unfold page_step.
  assert (Hf : numbered_state 0
                 (fold_left (paragraph_step CHUNK_SIZE CHUNK_OVERLAP (pc_page pc))
                    (split_nn (pc_text pc)) (chunks, idx, [])))
    by (apply fold_numbered; [apply paragraph_step_numbered|exact H]).
  destruct (fold_left _ _ _) as [[chunks' idx'] cur].
  destruct (truthy (strip cur)); simpl; [|exact Hf].
  apply (numbered_snoc _ _ _ (strip cur) (pc_page pc) Hf).
Qed.

(** C2.  Taken in production order over the whole document, the
    [chunk_index] fields are 0, 1, 2, ... without gap, whatever the number
    of pages and whichever of the paragraph, sentence and word levels
    produced each chunk. *)
Theorem chunk_index_contiguous (text_content : list PageContent) :
  map chunk_index (chunk_text CHUNK_SIZE CHUNK_OVERLAP text_content)
  = seq 0 (List.length (chunk_text CHUNK_SIZE CHUNK_OVERLAP text_content)).
Proof.
  unfold chunk_text.
  assert (H : forall units st,
             numbered 0 (fst st) (snd st) ->
             numbered 0
               (fst (fold_left (page_step CHUNK_SIZE CHUNK_OVERLAP) units st))
               (snd (fold_left (page_step CHUNK_SIZE CHUNK_OVERLAP) units st))).
  { induction units as [|u units IH]; intros st Hst; simpl; [exact Hst|].
    apply IH, page_step_numbered, Hst. }
  apply (H text_content ([], 0)). split; reflexivity.
Qed.

End ChunkIndices.

(** ** Text chunker: pages *)

Lemma reindex_app (k : nat) (a b : list Chunk) :
  reindex k (a ++ b) = reindex k a ++ reindex k b.
Proof. apply map_app. Qed.

Lemma reindex_length (k : nat) (a : list Chunk) :
  List.length (reindex k a) = List.length a.
Proof. apply length_map. Qed.

Lemma reindex_text (k : nat) (a : list Chunk) :
  map text (reindex k a) = map text a.
Proof. unfold reindex. rewrite map_map. reflexivity. Qed.

Lemma reindex_page (k : nat) (a : list Chunk) :
  map page (reindex k a) = map page a.
Proof. unfold reindex. rewrite map_map. reflexivity. Qed.

Section ChunkPages.

Variable CHUNK_SIZE CHUNK_OVERLAP : Z.

Lemma fold_shifted {A} (step : LoopState -> A -> LoopState)
      (c : list Chunk) (idx : nat) :
  (forall st x, step (shifted c idx st) x = shifted c idx (step st x)) ->
  forall xs st,
    fold_left step xs (shifted c idx st) = shifted c idx (fold_left step xs st).
Proof.
  intros Hstep xs. induction xs as [|x xs IH]; intros st; simpl; auto.
  now rewrite Hstep, IH.
Qed.

Lemma shifted_snoc (c : list Chunk) (idx : nat) (chunks : list Chunk)
      (i : nat) (t : str) (pg : Z) (cur : str) :
  shifted c idx
    (chunks ++ [{| text := t; page := pg; chunk_index := i |}], S i, cur)
  = ((c ++ reindex idx chunks)
       ++ [{| text := t; page := pg; chunk_index := idx + i |}],
     S (idx + i), cur).
Proof.
  unfold shifted. rewrite reindex_app, app_assoc. simpl.
  now rewrite Nat.add_succ_r.
Qed.

Lemma word_step_shifted (pg : Z) (c : list Chunk) (idx : nat)
      (st : LoopState) (w : str) :
  word_step CHUNK_SIZE pg (shifted c idx st) w
  = shifted c idx (word_step CHUNK_SIZE pg st w).
Proof.
  destruct st as [[chunks i] cur]. unfold word_step, flush_if_current.
  cbn [shifted].
  destruct (_ >? _)%Z; [|reflexivity].
  destruct (truthy cur); [|reflexivity].
  now rewrite shifted_snoc.
Qed.

Lemma sentence_step_shifted (pg : Z) (c : list Chunk) (idx : nat)
      (st : LoopState) (x : str) :
  sentence_step CHUNK_SIZE pg (shifted c idx st) x
  = shifted c idx (sentence_step CHUNK_SIZE pg st x).
Proof.
  destruct st as [[chunks i] cur]. unfold sentence_step, flush_if_current.
  cbn [shifted].
  destruct (_ >? _)%Z; [|reflexivity].
  destruct (truthy cur).
  - destruct (_ >? _)%Z; [|now rewrite shifted_snoc].
    etransitivity;
      [|apply (fold_shifted (word_step CHUNK_SIZE pg) c idx
                 (fun st w => word_step_shifted pg c idx st w))].
    f_equal. symmetry. apply shifted_snoc.
  - destruct (_ >? _)%Z; [|reflexivity].
    apply (fold_shifted (word_step CHUNK_SIZE pg) c idx
             (fun st w => word_step_shifted pg c idx st w)
             (split_ws x) (chunks, i, [])).
Qed.

Lemma final_chunk_shifted (pg : Z) (c : list Chunk) (idx : nat)
      (st : LoopState) :
  final_chunk pg (shifted c idx st) = c ++ reindex idx (final_chunk pg st).
Proof.
  destruct st as [[chunks i] cur]. unfold final_chunk, shifted.
  destruct (truthy (strip cur)); [|reflexivity].
  now rewrite reindex_app, app_assoc.
Qed.

(** Starting [_split_large_paragraph] at a higher index only moves the
    indices. *)
Lemma split_large_paragraph_shifted (paragraph : str) (pg : Z)
      (idx i : nat) :
  split_large_paragraph CHUNK_SIZE paragraph pg (idx + i)
  = reindex idx (split_large_paragraph CHUNK_SIZE paragraph pg i).
Proof.
  unfold split_large_paragraph.
  match goal with
  | |- final_chunk _ (fold_left ?f ?l ?s) = _ =>
      replace (fold_left f l s)
        with (shifted [] idx (fold_left f l ([], i, [])))
        by (symmetry;
            apply (fold_shifted (sentence_step CHUNK_SIZE pg) [] idx
                     (fun st x => sentence_step_shifted pg [] idx st x)
                     l ([], i, [])))
  end.
  apply (final_chunk_shifted pg [] idx).
Qed.

Lemma paragraph_step_shifted (pg : Z) (c : list Chunk) (idx : nat)
      (st : LoopState) (x : str) :
  paragraph_step CHUNK_SIZE CHUNK_OVERLAP pg (shifted c idx st) x
  = shifted c idx (paragraph_step CHUNK_SIZE CHUNK_OVERLAP pg st x).
Proof.
  destruct st as [[chunks i] cur]. unfold paragraph_step.
  cbn [shifted].
  destruct (negb (truthy (strip x))); [reflexivity|].
  destruct (_ >? _)%Z; [|reflexivity].
  destruct (truthy cur); [now rewrite shifted_snoc|].
  unfold shifted.
  rewrite split_large_paragraph_shifted, reindex_app, reindex_length.
  now rewrite app_assoc, Nat.add_assoc.
Qed.

Lemma page_step_shifted (c : list Chunk) (idx : nat)
      (chunks : list Chunk) (i : nat) (pc : PageContent) :
  page_step CHUNK_SIZE CHUNK_OVERLAP (c ++ reindex idx chunks, idx + i) pc
  = (c ++ reindex idx
           (fst (page_step CHUNK_SIZE CHUNK_OVERLAP (chunks, i) pc)),
     idx + snd (page_step CHUNK_SIZE CHUNK_OVERLAP (chunks, i) pc)).
Proof.
  unfold page_step.
  match goal with
  | |- context [fold_left ?f ?l (c ++ reindex idx chunks, idx + i, ?e)] =>
      replace (fold_left f l (c ++ reindex idx chunks, idx + i, e))
        with (shifted c idx (fold_left f l (chunks, i, e)))
        by (symmetry;
            apply (fold_shifted
                     (paragraph_step CHUNK_SIZE CHUNK_OVERLAP (pc_page pc))
                     c idx
                     (fun st x =>
                        paragraph_step_shifted (pc_page pc) c idx st x)
                     l (chunks, i, e)))
  end.
  match goal with
  | |- context [fold_left ?f ?l (chunks, i, ?e)] =>
      destruct (fold_left f l (chunks, i, e)) as [[chunks' i'] cur]
  end.
  unfold shifted. destruct (truthy (strip cur)); simpl; [|reflexivity].
  now rewrite reindex_app, app_assoc, Nat.add_succ_r.
Qed.

Lemma pages_shifted (units : list PageContent) :
  forall (c : list Chunk) (idx : nat) (chunks : list Chunk) (i : nat),
    fold_left (page_step CHUNK_SIZE CHUNK_OVERLAP) units
              (c ++ reindex idx chunks, idx + i)
    = (c ++ reindex idx
             (fst (fold_left (page_step CHUNK_SIZE CHUNK_OVERLAP) units
                             (chunks, i))),
       idx + snd (fold_left (page_step CHUNK_SIZE CHUNK_OVERLAP) units
                            (chunks, i))).
Proof.
  induction units as [|u units IH]; intros c idx chunks i;
    cbn [fold_left]; [reflexivity|].
  rewrite page_step_shifted.
  destruct (page_step CHUNK_SIZE CHUNK_OVERLAP (chunks, i) u) as [c1 i1].
  apply IH.
Qed.

(** The chunks of a document are those of its first pages followed by
    those of the remaining pages, chunked on their own. *)
Lemma chunk_text_app (us1 us2 : list PageContent) :
  chunk_text CHUNK_SIZE CHUNK_OVERLAP (us1 ++ us2)
  = chunk_text CHUNK_SIZE CHUNK_OVERLAP us1
    ++ reindex (List.length (chunk_text CHUNK_SIZE CHUNK_OVERLAP us1))
         (chunk_text CHUNK_SIZE CHUNK_OVERLAP us2).
Proof.
  unfold chunk_text. rewrite fold_left_app.
  assert (Hn : forall units st,
             numbered 0 (fst st) (snd st) ->
             numbered 0
               (fst (fold_left (page_step CHUNK_SIZE CHUNK_OVERLAP) units st))
               (snd (fold_left (page_step CHUNK_SIZE CHUNK_OVERLAP) units st))).
  { induction units as [|u units IH]; intros st Hst; simpl; [exact Hst|].
    apply IH, page_step_numbered, Hst. }
  specialize (Hn us1 ([], 0) (conj eq_refl eq_refl)).
  destruct (fold_left _ us1 ([], 0)) as [c1 i1]. simpl in *.
  destruct Hn as [_ ->]. simpl.
  replace (c1, List.length c1)
    with (c1 ++ reindex (List.length c1) [], List.length c1 + 0)
    by (simpl; now rewrite app_nil_r, Nat.add_0_r).
  now rewrite pages_shifted.
Qed.

Lemma paged_snoc (pg : Z) (chunks : list Chunk) (t : str) (i : nat) :
  paged pg chunks ->
  paged pg (chunks ++ [{| text := t; page := pg; chunk_index := i |}]).
Proof.
  intros H. apply Forall_app. split; [exact H|]. now constructor.
Qed.

Lemma fold_paged {A} (pg : Z) (step : LoopState -> A -> LoopState) :
  (forall st x, paged_state pg st -> paged_state pg (step st x)) ->
  forall xs st, paged_state pg st -> paged_state pg (fold_left step xs st).
Proof.
  intros Hstep xs. induction xs as [|x xs IH]; intros st H; simpl; auto.
Qed.

Lemma word_step_paged (pg : Z) (st : LoopState) (w : str) :
  paged_state pg st -> paged_state pg (word_step CHUNK_SIZE pg st w).
Proof.
  destruct st as [[chunks i] cur]. unfold paged_state, word_step,
    flush_if_current. simpl. intros H.
  destruct (_ >? _)%Z; [|exact H].
  destruct (truthy cur); simpl; [now apply paged_snoc|exact H].
Qed.

Lemma sentence_step_paged (pg : Z) (st : LoopState) (x : str) :
  paged_state pg st -> paged_state pg (sentence_step CHUNK_SIZE pg st x).
Proof.
  destruct st as [[chunks i] cur]. unfold sentence_step, flush_if_current.
  intros H. unfold paged_state in H. simpl in H.
  destruct (_ >? _)%Z; [|exact H].
  destruct (truthy cur).
  - destruct (_ >? _)%Z; [|now apply paged_snoc].
    apply fold_paged; [apply word_step_paged|now apply paged_snoc].
  - destruct (_ >? _)%Z; [|exact H].
    apply fold_paged; [apply word_step_paged|exact H].
Qed.

Lemma split_large_paragraph_paged (paragraph : str) (pg : Z) (i : nat) :
  paged pg (split_large_paragraph CHUNK_SIZE paragraph pg i).
Proof.
  unfold split_large_paragraph.
  assert (H : paged_state pg
                (fold_left (sentence_step CHUNK_SIZE pg)
                   (split_sentences paragraph) ([], i, [])))
    by (apply fold_paged; [apply sentence_step_paged|constructor]).
  destruct (fold_left _ _ _) as [[chunks idx] cur]. unfold final_chunk.
  destruct (truthy (strip cur)); [now apply paged_snoc|exact H].
Qed.

Lemma paragraph_step_paged (pg : Z) (st : LoopState) (x : str) :
  paged_state pg st ->
  paged_state pg (paragraph_step CHUNK_SIZE CHUNK_OVERLAP pg st x).
Proof.
  destruct st as [[chunks i] cur]. unfold paragraph_step. intros H.
  destruct (negb (truthy (strip x))); [exact H|].
  destruct (_ >? _)%Z; [|exact H].
  destruct (truthy cur); [now apply paged_snoc|].
  apply Forall_app. split; [exact H|apply split_large_paragraph_paged].
Qed.

(** A page read on its own gives chunks tagged with its number. *)
Lemma chunk_text_single_paged (pc : PageContent) :
  paged (pc_page pc) (chunk_text CHUNK_SIZE CHUNK_OVERLAP [pc]).
Proof.
  unfold chunk_text. cbn [fold_left]. unfold page_step.
  assert (H : paged_state (pc_page pc)
                (fold_left
                   (paragraph_step CHUNK_SIZE CHUNK_OVERLAP (pc_page pc))
                   (split_nn (pc_text pc)) ([], 0, [])))
    by (apply fold_paged; [apply paragraph_step_paged|constructor]).
  destruct (fold_left _ _ _) as [[chunks idx] cur].
  destruct (truthy (strip cur)); simpl; [now apply paged_snoc|exact H].
Qed.

Lemma paged_map_page (pg : Z) (chunks : list Chunk) :
  paged pg chunks -> map page chunks = map (fun _ => pg) chunks.
Proof.
  induction 1 as [|c chunks Hc _ IH]; simpl; [reflexivity|].
  now rewrite Hc, IH.
Qed.

Lemma chunk_text_texts (text_content : list PageContent) :
  map text (chunk_text CHUNK_SIZE CHUNK_OVERLAP text_content)
  = flat_map (fun pc => map text (chunk_text CHUNK_SIZE CHUNK_OVERLAP [pc]))
             text_content.
Proof.
  induction text_content as [|u us IH]; [reflexivity|].
  change (u :: us) with ([u] ++ us).
  rewrite chunk_text_app, map_app, reindex_text, IH. reflexivity.
Qed.

(** A chunk of a document is, but for its index, a chunk of one of the
    pages chunked on its own. *)
Lemma chunk_text_in (text_content : list PageContent) :
  forall c : Chunk,
    In c (chunk_text CHUNK_SIZE CHUNK_OVERLAP text_content) ->
    exists pc c',
      In pc text_content
      /\ In c' (chunk_text CHUNK_SIZE CHUNK_OVERLAP [pc])
      /\ text c = text c' /\ page c = page c'.
Proof.
  induction text_content as [|u us IH]; intros c; [intros []|].
  change (u :: us) with ([u] ++ us). rewrite chunk_text_app.
  intros H. apply in_app_or in H as [H | H].
  - exists u, c. repeat split; auto. now left.
  - unfold reindex in H. apply in_map_iff in H as (c0 & <- & H0).
    destruct (IH c0 H0) as (pc & c' & Hpc & Hc' & Ht & Hp).
    exists pc, c'. repeat split; auto. now right.
Qed.

(** C10.  The buffer is flushed at the end of every page: the chunks of
    a document are those of its pages chunked one by one, in order (only
    the indices run on), each tagged with its page.  So no chunk holds
    text of two pages, and no overlap passes from one page to the
    next. *)
Theorem chunks_do_not_cross_pages (text_content : list PageContent) :
  map text (chunk_text CHUNK_SIZE CHUNK_OVERLAP text_content)
  = flat_map (fun pc => map text (chunk_text CHUNK_SIZE CHUNK_OVERLAP [pc]))
             text_content
  /\ map page (chunk_text CHUNK_SIZE CHUNK_OVERLAP text_content)
     = flat_map (fun pc =>
                   map (fun _ => pc_page pc)
                       (chunk_text CHUNK_SIZE CHUNK_OVERLAP [pc]))
                text_content
  /\ forall us1 us2,
       text_content = us1 ++ us2 ->
       chunk_text CHUNK_SIZE CHUNK_OVERLAP text_content
       = chunk_text CHUNK_SIZE CHUNK_OVERLAP us1
         ++ reindex (List.length (chunk_text CHUNK_SIZE CHUNK_OVERLAP us1))
              (chunk_text CHUNK_SIZE CHUNK_OVERLAP us2).
Proof.
  split; [|split].
  - apply chunk_text_texts.
  - induction text_content as [|u us IH]; [reflexivity|].
    change (u :: us) with ([u] ++ us).
    rewrite chunk_text_app, map_app, reindex_page, IH.
    cbn [flat_map app].
    now rewrite (paged_map_page _ _ (chunk_text_single_paged u)).
  - intros us1 us2 ->. apply chunk_text_app.
Qed.

End ChunkPages.

Lemma chunks_do_not_cross_pages_witness :
  chunk_text 12 3
    ([{| pc_page := 1; pc_text := lit "hello world" |}]
     ++ [{| pc_page := 2; pc_text := lit "foo bar" |}])
  = [{| text := lit "hello world"; page := 1; chunk_index := 0 |};
     {| text := lit "foo bar"; page := 2; chunk_index := 1 |}].
Proof.
  rewrite (proj2 (proj2 (chunks_do_not_cross_pages 12 3 _))
             [{| pc_page := 1; pc_text := lit "hello world" |}]
             [{| pc_page := 2; pc_text := lit "foo bar" |}] eq_refl).
  reflexivity.
Defined.

(** ** Tokens *)

Lemma split_ws_space (c : ascii) (x : str) :
  is_space c = true -> split_ws (c :: x) = split_ws x.
Proof. intros H. simpl. now rewrite H. Qed.

Lemma split_ws_nonspace (c : ascii) (x : str) :
  is_space c = false ->
  split_ws (c :: x)
  = if starts_apart x then [c] :: split_ws x else cons_token c (split_ws x).
Proof.
  intros H. cbn [split_ws]. rewrite H.
  destruct x as [|d x]; [reflexivity|].
  cbn [starts_apart]. destruct (is_space d); reflexivity.
Qed.

Lemma split_ws_nonempty (c : ascii) (x : str) :
  is_space c = false -> split_ws (c :: x) <> [].
Proof.
  intros H. rewrite (split_ws_nonspace _ _ H).
  destruct (starts_apart x); [discriminate|].
  destruct (split_ws x); discriminate.
Qed.

(** Cutting a string where a space follows cuts no token. *)
Lemma split_ws_app (a b : str) :
  starts_apart b = true -> split_ws (a ++ b) = split_ws a ++ split_ws b.
Proof.
  intros Hb. induction a as [|c a IH]; [reflexivity|].
  rewrite <- app_comm_cons.
  destruct (is_space c) eqn:Ec.
  - now rewrite !split_ws_space.
  - rewrite !(split_ws_nonspace _ _ Ec), IH.
    destruct a as [|d a].
    + simpl app. rewrite Hb. reflexivity.
    + cbn [app starts_apart]. destruct (is_space d) eqn:Ed; [reflexivity|].
      pose proof (split_ws_nonempty d a Ed) as Hne.
      destruct (split_ws (d :: a)); [contradiction|reflexivity].
Qed.

Lemma split_ws_spaces (sp : str) :
  forallb is_space sp = true -> split_ws sp = [].
Proof.
  induction sp as [|c sp IH]; [reflexivity|]. simpl forallb.
  intros H. apply andb_true_iff in H as [Hc Hs].
  now rewrite (split_ws_space _ _ Hc), IH.
Qed.

Lemma split_ws_leading (sp x : str) :
  forallb is_space sp = true -> split_ws (sp ++ x) = split_ws x.
Proof.
  induction sp as [|c sp IH]; [reflexivity|]. simpl forallb.
  intros H. apply andb_true_iff in H as [Hc Hs].
  rewrite <- app_comm_cons, (split_ws_space _ _ Hc). auto.
Qed.

Lemma split_ws_trailing (x sp : str) :
  forallb is_space sp = true -> split_ws (x ++ sp) = split_ws x.
Proof.
  intros H. rewrite split_ws_app.
  - now rewrite (split_ws_spaces _ H), app_nil_r.
  - destruct sp; [reflexivity|]. simpl in *.
    now apply andb_true_iff in H as [Hc _].
Qed.

Lemma lstrip_spec (x : str) :
  exists sp, forallb is_space sp = true /\ x = sp ++ lstrip x.
Proof.
  induction x as [|c x (sp & Hsp & IH)]; [now exists []|].
  simpl. destruct (is_space c) eqn:Ec.
  - exists (c :: sp). simpl. rewrite Ec, Hsp. split; [reflexivity|].
    now rewrite <- IH.
  - now exists [].
Qed.

Lemma forallb_rev {A} (f : A -> bool) (l : list A) :
  forallb f l = true -> forallb f (rev l) = true.
Proof.
  rewrite !forallb_forall. intros H x Hx. apply H. now apply in_rev.
Qed.

Lemma rstrip_spec (x : str) :
  exists sp, forallb is_space sp = true /\ x = rstrip x ++ sp.
Proof.
  unfold rstrip. destruct (lstrip_spec (rev x)) as (sp & Hsp & E).
  exists (rev sp). split; [now apply forallb_rev|].
  rewrite <- rev_app_distr, <- E. now rewrite rev_involutive.
Qed.

(** Stripping changes no token. *)
Lemma split_ws_strip (x : str) : split_ws (strip x) = split_ws x.
Proof.
  unfold strip.
  destruct (lstrip_spec x) as (sp1 & H1 & E1).
  destruct (rstrip_spec (lstrip x)) as (sp2 & H2 & E2).
  rewrite E1 at 2. rewrite (split_ws_leading _ _ H1).
  rewrite E2 at 2. now rewrite (split_ws_trailing _ _ H2).
Qed.

Lemma strip_empty_tokens (x : str) : strip x = [] -> split_ws x = [].
Proof. intros H. now rewrite <- split_ws_strip, H. Qed.

(** What [split] returns are tokens. *)
Lemma split_ws_words (x : str) : Forall is_word (split_ws x).
Proof.
  induction x as [|c x IH]; [constructor|].
  destruct (is_space c) eqn:Ec; [now rewrite split_ws_space|].
  rewrite (split_ws_nonspace _ _ Ec).
  assert (Hc : is_word [c]).
  { split; [discriminate|]. simpl. now rewrite Ec. }
  destruct (starts_apart x); [now constructor|].
  destruct (split_ws x) as [|w ws]; [now constructor|].
  inversion IH as [|? ? [Hw1 Hw2] Hws]; subst.
  constructor; [|exact Hws].
  split; [discriminate|]. simpl. now rewrite Ec, Hw2.
Qed.

Lemma split_ws_word (w : str) : is_word w -> split_ws w = [w].
Proof.
  intros [Hne Hw]. induction w as [|c w IH]; [contradiction|].
  simpl in Hw. apply andb_true_iff in Hw as [Hc Hw].
  apply negb_true_iff in Hc. rewrite (split_ws_nonspace _ _ Hc).
  destruct w as [|d w]; [reflexivity|].
  assert (Hd : is_space d = false).
  { simpl in Hw. apply andb_true_iff in Hw as [Hd _].
    now apply negb_true_iff in Hd. }
  cbn [starts_apart]. rewrite Hd.
  rewrite IH; [reflexivity|discriminate|exact Hw].
Qed.

Lemma split_ws_idem (x : str) :
  concat (map split_ws (split_ws x)) = split_ws x.
Proof.
  pose proof (split_ws_words x) as H.
  induction H as [|w ws Hw _ IH]; [reflexivity|].
  simpl. now rewrite (split_ws_word _ Hw), IH.
Qed.

(** A token is no longer than the string it is taken from. *)
Lemma token_length (x w : str) :
  In w (split_ws x) -> List.length w <= List.length x.
Proof.
  revert w. induction x as [|c x IH]; intros w; [intros []|].
  destruct (is_space c) eqn:Ec.
  - rewrite (split_ws_space _ _ Ec). intros H. apply IH in H. simpl. lia.
  - rewrite (split_ws_nonspace _ _ Ec).
    destruct (starts_apart x).
    + intros [<- | H]; [simpl; lia|]. apply IH in H. simpl. lia.
    + destruct (split_ws x) as [|w0 ws].
      * intros [<- | []]. simpl. lia.
      * intros [<- | H].
        -- specialize (IH w0 (or_introl eq_refl)). simpl. lia.
        -- specialize (IH w (or_intror H)). simpl. lia.
Qed.

Lemma suffix_of_refl (w : str) : suffix_of w w.
Proof. now exists []. Qed.

Lemma suffix_of_trans (a b c : str) :
  suffix_of a b -> suffix_of b c -> suffix_of a c.
Proof.
  intros [p ->] [q ->]. exists (q ++ p). now rewrite app_assoc.
Qed.

(** Dropping the first character leaves tokens or ends of tokens. *)
Lemma split_ws_tail (c : ascii) (x w : str) :
  In w (split_ws x) ->
  exists t, In t (split_ws (c :: x)) /\ suffix_of w t.
Proof.
  intros H. destruct (is_space c) eqn:Ec.
  - rewrite (split_ws_space _ _ Ec). exists w. split; [exact H|].
    apply suffix_of_refl.
  - rewrite (split_ws_nonspace _ _ Ec). destruct (starts_apart x).
    + exists w. split; [now right|apply suffix_of_refl].
    + destruct (split_ws x) as [|w0 ws]; [destruct H|].
      destruct H as [<- | H].
      * exists (c :: w0). split; [now left|]. now exists [c].
      * exists w. split; [now right|apply suffix_of_refl].
Qed.

Lemma split_ws_skipn (k : nat) (x w : str) :
  In w (split_ws (skipn k x)) ->
  exists t, In t (split_ws x) /\ suffix_of w t.
Proof.
  revert x. induction k as [|k IH]; intros x H.
  - exists w. split; [exact H|apply suffix_of_refl].
  - destruct x as [|c x]; [destruct H|]. simpl in H.
    destruct (IH x H) as (t & Ht & Hs).
    destruct (split_ws_tail c x t Ht) as (t' & Ht' & Hs').
    exists t'. split; [exact Ht'|]. eapply suffix_of_trans; eassumption.
Qed.

Lemma newline_is_space (c : ascii) : (code c =? 10)%N = true -> is_space c = true.
Proof.
  intros H. apply N.eqb_eq in H. unfold is_space. now rewrite H.
Qed.

(** Splitting into sentences cuts at spaces only. *)
Lemma split_sentences_aux_tokens (x : str) :
  forall (skipping prev_end : bool) (acc : str),
    (skipping = true -> acc = []) ->
    concat (map split_ws (split_sentences_aux skipping prev_end acc x))
    = split_ws (rev acc ++ x).
Proof.
  induction x as [|c x IH]; intros sk pe acc Hsk.
  - simpl. now rewrite !app_nil_r.
  - cbn [split_sentences_aux].
    assert (Hpush : forall pe',
               concat (map split_ws
                         (split_sentences_aux false pe' (c :: acc) x))
               = split_ws (rev acc ++ c :: x)).
    { intros pe'. rewrite IH by discriminate. simpl rev.
      now rewrite <- app_assoc. }
    destruct (is_space c) eqn:Ec; [|apply Hpush].
    destruct sk.
    + rewrite (Hsk eq_refl). rewrite IH by reflexivity. simpl.
      now rewrite Ec.
    + destruct pe; [|apply Hpush].
      cbn [map concat]. rewrite IH by reflexivity.
      rewrite (split_ws_app (rev acc) (c :: x) Ec).
      now rewrite (split_ws_space _ _ Ec).
Qed.

Lemma split_sentences_tokens (x : str) :
  concat (map split_ws (split_sentences x)) = split_ws x.
Proof.
  unfold split_sentences. now rewrite split_sentences_aux_tokens.
Qed.

Lemma split_nn_aux_step (acc : str) (c d : ascii) (x : str) :
  split_nn_aux acc (c :: d :: x)
  = if ((code c =? 10) && (code d =? 10))%N
    then rev acc :: split_nn_aux [] x
    else split_nn_aux (c :: acc) (d :: x).
Proof. reflexivity. Qed.

(** Splitting into paragraphs cuts at line feeds only. *)
Lemma split_nn_aux_tokens (n : nat) :
  forall (x acc : str),
    List.length x <= n ->
    concat (map split_ws (split_nn_aux acc x)) = split_ws (rev acc ++ x).
Proof.
  induction n as [|n IH]; intros x acc Hn.
  - destruct x; [|simpl in Hn; lia]. simpl. now rewrite !app_nil_r.
  - destruct x as [|c [|d x]].
    + simpl. now rewrite !app_nil_r.
    + cbn [split_nn_aux map concat rev]. now rewrite app_nil_r.
    + rewrite split_nn_aux_step.
      destruct ((code c =? 10)%N && (code d =? 10)%N) eqn:E.
      * apply andb_true_iff in E as [Ec Ed].
        apply newline_is_space in Ec, Ed.
        cbn [map concat]. rewrite IH by (simpl in *; lia).
        rewrite (split_ws_app (rev acc) (c :: d :: x) Ec).
        now rewrite (split_ws_space _ _ Ec), (split_ws_space _ _ Ed).
      * rewrite IH by (simpl in *; lia). simpl rev.
        now rewrite <- app_assoc.
Qed.

Lemma split_nn_tokens (x : str) :
  concat (map split_ws (split_nn x)) = split_ws x.
Proof.
  unfold split_nn. now rewrite (split_nn_aux_tokens (List.length x)).
Qed.

Lemma in_concat_tokens (pieces : list str) (x w : str) :
  In x pieces -> In w (split_ws x) -> In w (concat (map split_ws pieces)).
Proof.
  intros Hx Hw. apply in_concat. exists (split_ws x).
  split; [now apply in_map|exact Hw].
Qed.

(** Joining with a separator made of spaces keeps the tokens apart. *)
Lemma split_ws_join_with (sep cur x : str) :
  starts_apart sep = true -> sep <> [] -> forallb is_space sep = true ->
  split_ws (join_with sep cur x) = split_ws cur ++ split_ws x.
Proof.
  intros Ha Hne Hsp. unfold join_with. destruct cur as [|c cur].
  - reflexivity.
  - cbn [truthy]. rewrite split_ws_app.
    + now rewrite (split_ws_leading _ _ Hsp).
    + destruct sep; [contradiction|exact Ha].
Qed.

Lemma split_ws_join_SP (cur x : str) :
  split_ws (join_with SP cur x) = split_ws cur ++ split_ws x.
Proof. apply split_ws_join_with; [reflexivity|discriminate|reflexivity]. Qed.

Lemma split_ws_join_NLNL (cur x : str) :
  split_ws (join_with NLNL cur x) = split_ws cur ++ split_ws x.
Proof. apply split_ws_join_with; [reflexivity|discriminate|reflexivity]. Qed.

Lemma tokens_of_chunks_snoc (chunks : list Chunk) (c : Chunk) :
  tokens_of_chunks (chunks ++ [c]) = tokens_of_chunks chunks ++ split_ws (text c).
Proof.
  unfold tokens_of_chunks. rewrite map_app, concat_app. simpl.
  now rewrite app_nil_r.
Qed.

Lemma tokens_of_chunks_app (a b : list Chunk) :
  tokens_of_chunks (a ++ b) = tokens_of_chunks a ++ tokens_of_chunks b.
Proof. unfold tokens_of_chunks. now rewrite map_app, concat_app. Qed.

Lemma truthy_false_tokens (x : str) : truthy x = false -> split_ws x = [].
Proof. intros H. now rewrite (truthy_false _ H). Qed.

(** ** Text chunker: tokens *)

Section ChunkTokens.

Variable CHUNK_SIZE CHUNK_OVERLAP : Z.

Lemma word_step_tokens (pg : Z) (st : LoopState) (w : str) :
  tokens_of_state (word_step CHUNK_SIZE pg st w)
  = tokens_of_state st ++ split_ws w.
Proof.
  destruct st as [[chunks i] cur].
  unfold word_step, flush_if_current, tokens_of_state.
  destruct (_ >? _)%Z.
  - destruct (truthy cur) eqn:E; cbv beta iota; cbn [fst snd].
    + rewrite tokens_of_chunks_snoc; cbn [text]; now rewrite split_ws_strip.
    + now rewrite (truthy_false_tokens _ E), app_nil_r.
  - cbn [fst snd]. now rewrite split_ws_join_SP, app_assoc.
Qed.

Lemma fold_tokens (step : LoopState -> str -> LoopState) :
  (forall st x, tokens_of_state (step st x)
                = tokens_of_state st ++ split_ws x) ->
  forall xs st,
    tokens_of_state (fold_left step xs st)
    = tokens_of_state st ++ concat (map split_ws xs).
Proof.
  intros Hstep xs. induction xs as [|x xs IH]; intros st; simpl.
  - now rewrite app_nil_r.
  - now rewrite IH, Hstep, app_assoc.
Qed.

Lemma sentence_step_tokens (pg : Z) (st : LoopState) (x : str) :
  tokens_of_state (sentence_step CHUNK_SIZE pg st x)
  = tokens_of_state st ++ split_ws x.
Proof.
  destruct st as [[chunks i] cur].
  unfold sentence_step, flush_if_current.
  destruct (_ >? _)%Z.
  - assert (Hflush :
              tokens_of_chunks
                (fst (if truthy cur
                      then (chunks ++ [{| text := strip cur; page := pg;
                                          chunk_index := i |}], S i)
                      else (chunks, i)))
              = tokens_of_chunks chunks ++ split_ws cur).
    { destruct (truthy cur) eqn:E; cbn [fst].
      - rewrite tokens_of_chunks_snoc; cbn [text]; now rewrite split_ws_strip.
      - now rewrite (truthy_false_tokens _ E), app_nil_r. }
    destruct (if truthy cur then _ else _) as [chunks' i'].
    cbn [fst] in Hflush.
    destruct (_ >? _)%Z.
    + rewrite (fold_tokens (word_step CHUNK_SIZE pg)
                 (word_step_tokens pg)).
      unfold tokens_of_state; cbn [fst snd].
      now rewrite split_ws_idem, Hflush, app_nil_r.
    + unfold tokens_of_state; cbn [fst snd]. now rewrite Hflush.
  - unfold tokens_of_state; cbn [fst snd].
    now rewrite split_ws_join_SP, app_assoc.
Qed.

Lemma final_chunk_tokens (pg : Z) (st : LoopState) :
  tokens_of_chunks (final_chunk pg st) = tokens_of_state st.
Proof.
  destruct st as [[chunks i] cur]. unfold final_chunk, tokens_of_state.
  cbn [fst snd]. destruct (truthy (strip cur)) eqn:E.
  - rewrite tokens_of_chunks_snoc; cbn [text]; now rewrite split_ws_strip.
  - now rewrite (strip_empty_tokens _ (truthy_false _ E)), app_nil_r.
Qed.

(** The sentence and word levels cut no token: the tokens of the chunks
    of a paragraph, in order, are the tokens of the paragraph. *)
Lemma split_large_paragraph_tokens (paragraph : str) (pg : Z) (i : nat) :
  tokens_of_chunks (split_large_paragraph CHUNK_SIZE paragraph pg i)
  = split_ws paragraph.
Proof.
  unfold split_large_paragraph.
  rewrite final_chunk_tokens.
  rewrite (fold_tokens (sentence_step CHUNK_SIZE pg)
             (sentence_step_tokens pg)).
  unfold tokens_of_state; cbn [fst snd tokens_of_chunks map concat app].
  apply split_sentences_tokens.
Qed.

End ChunkTokens.

Lemma long_token_alone_short (size : Z) (x : str) :
  (len x <= size)%Z -> long_token_alone size x.
Proof.
  intros Hx w Hw Hlong. apply token_length in Hw. unfold len in *. lia.
Qed.

Lemma long_token_alone_word (size : Z) (w : str) :
  is_word w -> long_token_alone size w.
Proof.
  intros Hw w' Hin _. rewrite (split_ws_word _ Hw) in *.
  destruct Hin as [<- | []]. reflexivity.
Qed.

Lemma long_token_alone_strip (size : Z) (x : str) :
  long_token_alone size x -> long_token_alone size (strip x).
Proof. unfold long_token_alone. now rewrite split_ws_strip. Qed.

Lemma long_token_alone_join (size : Z) (cur x : str) :
  (len cur + len x <= size)%Z -> long_token_alone size (join_with SP cur x).
Proof.
  intros Hle w Hw Hlong. rewrite split_ws_join_SP in Hw.
  apply in_app_or in Hw as [Hw | Hw]; apply token_length in Hw;
    unfold len in *; lia.
Qed.

Lemma tokens_from_strip (src : list str) (x : str) :
  tokens_from src x -> tokens_from src (strip x).
Proof. unfold tokens_from. now rewrite split_ws_strip. Qed.

Lemma tokens_from_sub (src : list str) (x : str) :
  (forall w, In w (split_ws x) -> In w src) -> tokens_from src x.
Proof.
  intros H w Hw. exists w. split; [auto|apply suffix_of_refl].
Qed.

Lemma tokens_from_app (src : list str) (x a b : str) :
  split_ws x = split_ws a ++ split_ws b ->
  tokens_from src a -> tokens_from src b -> tokens_from src x.
Proof.
  intros E Ha Hb w Hw. rewrite E in Hw.
  apply in_app_or in Hw as [Hw | Hw]; auto.
Qed.

Lemma tokens_from_skipn (src : list str) (k : nat) (x : str) :
  tokens_from src x -> tokens_from src (skipn k x).
Proof.
  intros H w Hw. destruct (split_ws_skipn k x w Hw) as (t & Ht & Hs).
  destruct (H t Ht) as (u & Hu & Hs'). exists u. split; [exact Hu|].
  eapply suffix_of_trans; eassumption.
Qed.

Section ChunkWholeTokens.

Variable CHUNK_SIZE CHUNK_OVERLAP : Z.

(** The overlap is an end of the buffer: it may start inside a token. *)
Lemma get_overlap_text_tokens (src : list str) (t : str) :
  tokens_from src t -> tokens_from src (get_overlap_text CHUNK_OVERLAP t).
Proof.
  intros H. unfold get_overlap_text, slice_from.
  destruct (_ <=? _)%Z; [exact H|].
  destruct (_ >? _)%Z; repeat apply tokens_from_skipn; exact H.
Qed.

Lemma alone_flush (pg : Z) (chunks : list Chunk) (i : nat) (cur : str) :
  alone_state CHUNK_SIZE (chunks, i, cur) ->
  Forall (fun c => long_token_alone CHUNK_SIZE (text c))
         (fst (flush_if_current pg (chunks, i, cur))).
Proof.
  intros [Hc Hcur]. unfold flush_if_current.
  destruct (truthy cur); cbn [fst] in *; [|exact Hc].
  apply Forall_app. split; [exact Hc|]. constructor; [|constructor].
  now apply long_token_alone_strip.
Qed.

Lemma word_step_alone (pg : Z) (st : LoopState) (w : str) :
  is_word w -> alone_state CHUNK_SIZE st ->
  alone_state CHUNK_SIZE (word_step CHUNK_SIZE pg st w).
Proof.
  intros Hw Hst. destruct st as [[chunks i] cur].
  pose proof (alone_flush pg chunks i cur Hst) as Hf.
  unfold word_step.
  destruct (Z.gtb_spec (len cur + len w) CHUNK_SIZE).
  - destruct (flush_if_current pg (chunks, i, cur)) as [chunks' i'].
    split; [exact Hf|]. now apply long_token_alone_word.
  - split; [exact (proj1 Hst)|]. now apply long_token_alone_join.
Qed.

Lemma words_fold_alone (pg : Z) (ws : list str) :
  Forall is_word ws ->
  forall st, alone_state CHUNK_SIZE st ->
             alone_state CHUNK_SIZE
               (fold_left (word_step CHUNK_SIZE pg) ws st).
Proof.
  induction 1 as [|w ws Hw _ IH]; intros st Hst; simpl; [exact Hst|].
  apply IH. now apply word_step_alone.
Qed.

Lemma sentence_step_alone (pg : Z) (st : LoopState) (x : str) :
  alone_state CHUNK_SIZE st ->
  alone_state CHUNK_SIZE (sentence_step CHUNK_SIZE pg st x).
Proof.
  intros Hst. destruct st as [[chunks i] cur].
  pose proof (alone_flush pg chunks i cur Hst) as Hf.
  unfold sentence_step.
  destruct (Z.gtb_spec (len cur + len x) CHUNK_SIZE).
  - destruct (flush_if_current pg (chunks, i, cur)) as [chunks' i'].
    destruct (Z.gtb_spec (len x) CHUNK_SIZE).
    + apply words_fold_alone; [apply split_ws_words|].
      split; [exact Hf|]. intros w [].
    + split; [exact Hf|]. now apply long_token_alone_short.
  - split; [exact (proj1 Hst)|]. now apply long_token_alone_join.
Qed.

(** In the chunks of a paragraph, a token longer than the chunk size
    has its chunk to itself. *)
Lemma split_large_paragraph_alone (paragraph : str) (pg : Z) (i : nat) :
  Forall (fun c => long_token_alone CHUNK_SIZE (text c))
         (split_large_paragraph CHUNK_SIZE paragraph pg i).
Proof.
  unfold split_large_paragraph.
  assert (H : alone_state CHUNK_SIZE
                (fold_left (sentence_step CHUNK_SIZE pg)
                   (split_sentences paragraph) ([], i, []))).
  { generalize (split_sentences paragraph) as xs.
    assert (H0 : alone_state CHUNK_SIZE ([], i, []))
      by (split; [constructor|intros w []]).
    revert H0. generalize (([], i, []) : LoopState) as st.
    intros st H0 xs. revert st H0.
    induction xs as [|x xs IH]; intros st H0; simpl; [exact H0|].
    apply IH. now apply sentence_step_alone. }
  destruct (fold_left _ _ _) as [[chunks idx] cur]. destruct H as [Hc Hcur].
  unfold final_chunk. cbn [fst snd] in *.
  destruct (truthy (strip cur)); [|exact Hc].
  apply Forall_app. split; [exact Hc|]. constructor; [|constructor].
  now apply long_token_alone_strip.
Qed.

Lemma split_large_paragraph_from (src : list str) (paragraph : str)
      (pg : Z) (i : nat) :
  (forall w, In w (split_ws paragraph) -> In w src) ->
  Forall (fun c => tokens_from src (text c))
         (split_large_paragraph CHUNK_SIZE paragraph pg i).
Proof.
  intros Hsrc. apply Forall_forall. intros c Hc.
  apply tokens_from_sub. intros w Hw. apply Hsrc.
  rewrite <- (split_large_paragraph_tokens CHUNK_SIZE paragraph pg i).
  unfold tokens_of_chunks. apply in_concat.
  exists (split_ws (text c)). split; [|exact Hw].
  apply (in_map (fun c => split_ws (text c))), Hc.
Qed.

Lemma paragraph_step_from (src : list str) (pg : Z) (st : LoopState)
      (x : str) :
  (forall w, In w (split_ws x) -> In w src) ->
  from_state src st ->
  from_state src (paragraph_step CHUNK_SIZE CHUNK_OVERLAP pg st x).
Proof.
  intros Hx Hst. destruct st as [[chunks i] cur].
  destruct Hst as [Hc Hcur]. cbn [fst snd] in *.
  assert (Hp : tokens_from src (strip x))
    by (apply tokens_from_strip, tokens_from_sub, Hx).
  unfold paragraph_step.
  destruct (negb (truthy (strip x))); [now split|].
  destruct (_ >? _)%Z.
  - destruct (truthy cur); split; cbn [fst snd].
    + apply Forall_app. split; [exact Hc|]. constructor; [|constructor].
      now apply tokens_from_strip.
    + apply (tokens_from_app src _
               (get_overlap_text CHUNK_OVERLAP cur) (strip x)).
      * rewrite split_ws_app by reflexivity.
        now rewrite (split_ws_leading SP (strip x) eq_refl).
      * now apply get_overlap_text_tokens.
      * exact Hp.
    + apply Forall_app. split; [exact Hc|].
      apply split_large_paragraph_from.
      intros w Hw. apply Hx. now rewrite <- split_ws_strip.
    + intros w [].
  - split; [exact Hc|]. cbn [snd].
    apply (tokens_from_app src _ cur (strip x));
      [apply split_ws_join_NLNL|exact Hcur|exact Hp].
Qed.

(** Every token of a chunk of a page is a token of the page's text or
    the end of one. *)
Lemma chunk_text_single_from (pc : PageContent) :
  Forall (fun c => tokens_from (split_ws (pc_text pc)) (text c))
         (chunk_text CHUNK_SIZE CHUNK_OVERLAP [pc]).
Proof.
  unfold chunk_text. cbn [fold_left]. unfold page_step.
  set (src := split_ws (pc_text pc)).
  assert (H : forall xs st,
             (forall x, In x xs -> forall w, In w (split_ws x) -> In w src) ->
             from_state src st ->
             from_state src
               (fold_left
                  (paragraph_step CHUNK_SIZE CHUNK_OVERLAP (pc_page pc))
                  xs st)).
  { induction xs as [|x xs IH]; intros st Hxs Hst; simpl; [exact Hst|].
    apply IH; [intros y Hy; apply Hxs; now right|].
    apply paragraph_step_from; [apply Hxs; now left|exact Hst]. }
  specialize (H (split_nn (pc_text pc)) ([], 0, [])).
  destruct (fold_left _ _ _) as [[chunks idx] cur].
  destruct H as [Hc Hcur].
  - intros x Hx w Hw. unfold src. rewrite <- split_nn_tokens.
    eapply in_concat_tokens; eassumption.
  - split; [constructor|intros w []].
  - cbn [fst snd] in *. destruct (truthy (strip cur)); cbn [fst]; [|exact Hc].
    apply Forall_app. split; [exact Hc|]. constructor; [|constructor].
    now apply tokens_from_strip.
Qed.

Lemma whole_tokens_strip (src : list str) (x : str) :
  whole_tokens src x -> whole_tokens src (strip x).
Proof. unfold whole_tokens. now rewrite split_ws_strip. Qed.

Lemma whole_tokens_app (src : list str) (x a b : str) :
  split_ws x = split_ws a ++ split_ws b ->
  whole_tokens src a -> whole_tokens src b -> whole_tokens src x.
Proof.
  intros E Ha Hb w Hw. rewrite E in Hw.
  apply in_app_or in Hw as [Hw | Hw]; auto.
Qed.

Lemma partial_first_whole (src : list str) (x : str) :
  whole_tokens src x -> partial_first src x.
Proof.
  unfold whole_tokens, partial_first. intros H.
  destruct (split_ws x) as [|w ws]; [exact I|]. split.
  - exists w. split; [apply H; now left|apply suffix_of_refl].
  - intros w' Hw'. apply H. now right.
Qed.

Lemma partial_first_strip (src : list str) (x : str) :
  partial_first src x -> partial_first src (strip x).
Proof. unfold partial_first. now rewrite split_ws_strip. Qed.

Lemma partial_first_app (src : list str) (x a b : str) :
  split_ws x = split_ws a ++ split_ws b ->
  partial_first src a -> whole_tokens src b -> partial_first src x.
Proof.
  intros E Ha Hb. unfold partial_first in *. rewrite E.
  destruct (split_ws a) as [|w ws]; cbn [app].
  - now apply partial_first_whole in Hb.
  - destruct Ha as [Hw Hws]. split; [exact Hw|].
    intros w' Hw'. apply in_app_or in Hw' as [Hw' | Hw']; auto.
Qed.

Lemma token_suffix_refl (a : list str) : token_suffix a a.
Proof.
  destruct a as [|w ws]; [now left|]. right. exists [], w, w, ws.
  repeat split. apply suffix_of_refl.
Qed.

Lemma token_suffix_trans (a b c : list str) :
  token_suffix a b -> token_suffix b c -> token_suffix a c.
Proof.
  intros [-> | (pre & u & w & ws & Eb & Ea & Hs)] Hbc; [now left|].
  destruct Hbc as [-> | (pre' & u' & w' & ws' & Ec & Eb' & Hs')].
  - destruct pre; discriminate.
  - right. subst a c. rewrite Eb in Eb'.
    destruct pre as [|p pre]; cbn [app] in Eb'.
    + injection Eb' as Eu Ews. subst u ws'.
      exists pre', u', w, ws. repeat split.
      eapply suffix_of_trans; eassumption.
    + injection Eb' as Ep Ews. subst p ws'.
      exists (pre' ++ u' :: pre), u, w, ws.
      split; [now rewrite <- app_assoc|]. split; [reflexivity|exact Hs].
Qed.

Lemma token_suffix_cons (c : ascii) (x : str) :
  token_suffix (split_ws x) (split_ws (c :: x)).
Proof.
  destruct (is_space c) eqn:E.
  - rewrite (split_ws_space c x E). apply token_suffix_refl.
  - rewrite (split_ws_nonspace c x E). destruct (starts_apart x).
    + destruct (split_ws x) as [|w ws]; [now left|]. right.
      exists [[c]], w, w, ws. repeat split. apply suffix_of_refl.
    + destruct (split_ws x) as [|w ws]; [now left|]. right.
      exists [], (c :: w), w, ws. repeat split. now exists [c].
Qed.

Lemma token_suffix_skipn (k : nat) :
  forall x : str, token_suffix (split_ws (skipn k x)) (split_ws x).
Proof.
  induction k as [|k IH]; intros x; [apply token_suffix_refl|].
  destruct x as [|c x]; [apply token_suffix_refl|]. cbn [skipn].
  eapply token_suffix_trans; [apply IH|apply token_suffix_cons].
Qed.

Lemma partial_first_suffix (src : list str) (o x : str) :
  token_suffix (split_ws o) (split_ws x) ->
  partial_first src x -> partial_first src o.
Proof.
  unfold partial_first.
  intros [-> | (pre & u & w & ws & Ex & -> & Hs)] Hx; [exact I|].
  rewrite Ex in Hx. destruct pre as [|p pre]; cbn [app] in Hx.
  - destruct Hx as [(t & Ht & Hut) Hws]. split; [|exact Hws].
    exists t. split; [exact Ht|]. eapply suffix_of_trans; eassumption.
  - destruct Hx as [_ Hws]. split.
    + exists u. split; [|exact Hs]. apply Hws, in_or_app. right. now left.
    + intros w' Hw'. apply Hws, in_or_app. right. now right.
Qed.

(** The overlap is an end of the buffer: only its first token can be the
    end of a token of the buffer. *)
Lemma get_overlap_text_partial (src : list str) (t : str) :
  partial_first src t ->
  partial_first src (get_overlap_text CHUNK_OVERLAP t).
Proof.
  intros H. unfold get_overlap_text, slice_from.
  destruct (_ <=? _)%Z; [exact H|].
  destruct (_ >? _)%Z;
    repeat (eapply partial_first_suffix; [apply token_suffix_skipn|]);
    exact H.
Qed.

Lemma split_large_paragraph_whole (src : list str) (paragraph : str)
      (pg : Z) (i : nat) :
  whole_tokens src paragraph ->
  Forall (fun c => whole_tokens src (text c))
         (split_large_paragraph CHUNK_SIZE paragraph pg i).
Proof.
  intros Hsrc. apply Forall_forall. intros c Hc w Hw. apply Hsrc.
  rewrite <- (split_large_paragraph_tokens CHUNK_SIZE paragraph pg i).
  unfold tokens_of_chunks. apply in_concat.
  exists (split_ws (text c)). split; [|exact Hw].
  apply (in_map (fun c => split_ws (text c))), Hc.
Qed.

Lemma paragraph_step_partial (src : list str) (pg : Z) (st : LoopState)
      (x : str) :
  whole_tokens src x ->
  partial_state src st ->
  partial_state src (paragraph_step CHUNK_SIZE CHUNK_OVERLAP pg st x).
Proof.
  intros Hx Hst. destruct st as [[chunks i] cur].
  destruct Hst as [Hc Hcur]. cbn [fst snd] in *.
  pose proof (whole_tokens_strip src x Hx) as Hp.
  unfold paragraph_step.
  destruct (negb (truthy (strip x))); [now split|].
  destruct (_ >? _)%Z.
  - destruct (truthy cur); split; cbn [fst snd].
    + apply Forall_app. split; [exact Hc|]. constructor; [|constructor].
      now apply partial_first_strip.
    + apply (partial_first_app src _
               (get_overlap_text CHUNK_OVERLAP cur) (strip x)).
      * rewrite split_ws_app by reflexivity.
        now rewrite (split_ws_leading SP (strip x) eq_refl).
      * now apply get_overlap_text_partial.
      * exact Hp.
    + apply Forall_app. split; [exact Hc|].
      eapply Forall_impl; [|apply (split_large_paragraph_whole src); exact Hp].
      intros c. apply partial_first_whole.
    + exact I.
  - split; [exact Hc|]. cbn [snd].
    apply (partial_first_app src _ cur (strip x));
      [apply split_ws_join_NLNL|exact Hcur|exact Hp].
Qed.

Lemma whole_or_seeded_old (src : list str) (chunks cs : list Chunk)
      (k : nat) (c : Chunk) :
  whole_or_seeded CHUNK_OVERLAP src chunks ->
  k < List.length chunks ->
  nth_error (chunks ++ cs) k = Some c ->
  whole_tokens src (text c)
  \/ exists j prev buf,
      k = S j
      /\ nth_error (chunks ++ cs) j = Some prev
      /\ text c = strip buf
      /\ overlap_seeded CHUNK_OVERLAP src prev buf.
Proof.
  intros H Hk Hc. rewrite nth_error_app1 in Hc by exact Hk.
  destruct (H k c Hc) as [Hw | (j & prev & buf & -> & Hj & Ht & Hs)];
    [now left|].
  right. exists j, prev, buf. repeat split; auto.
  rewrite nth_error_app1 by lia. exact Hj.
Qed.

Lemma whole_or_seeded_app (src : list str) (chunks cs : list Chunk) :
  whole_or_seeded CHUNK_OVERLAP src chunks ->
  Forall (fun c => whole_tokens src (text c)) cs ->
  whole_or_seeded CHUNK_OVERLAP src (chunks ++ cs).
Proof.
  intros H Hcs k c Hk.
  destruct (Nat.lt_ge_cases k (List.length chunks)) as [Hlt | Hge].
  - now apply (whole_or_seeded_old src chunks cs).
  - rewrite nth_error_app2 in Hk by exact Hge. left.
    apply nth_error_In in Hk. rewrite Forall_forall in Hcs. now apply Hcs.
Qed.

Lemma whole_or_seeded_snoc (src : list str) (pre : list Chunk)
      (prev c : Chunk) (buf : str) :
  whole_or_seeded CHUNK_OVERLAP src (pre ++ [prev]) ->
  text c = strip buf ->
  overlap_seeded CHUNK_OVERLAP src prev buf ->
  whole_or_seeded CHUNK_OVERLAP src ((pre ++ [prev]) ++ [c]).
Proof.
  intros H Ht Hs k c' Hk.
  destruct (Nat.lt_ge_cases k (List.length (pre ++ [prev]))) as [Hlt | Hge].
  - now apply (whole_or_seeded_old src (pre ++ [prev]) [c]).
  - rewrite nth_error_app2 in Hk by exact Hge.
    destruct (k - List.length (pre ++ [prev])) as [|n] eqn:Ek;
      [|destruct n; discriminate].
    injection Hk as <-. right. exists (List.length pre), prev, buf.
    rewrite length_app in Hge, Ek. cbn [List.length] in Hge, Ek.
    split; [lia|]. split; [|auto].
    rewrite nth_error_app1 by (rewrite length_app; simpl; lia).
    now rewrite nth_error_app2, Nat.sub_diag by lia.
Qed.

(** Saving the buffer keeps the chunks in that shape. *)
Lemma seeded_flush (src : list str) (pg : Z) (chunks : list Chunk)
      (i : nat) (cur : str) :
  seeded_state CHUNK_OVERLAP src (chunks, i, cur) ->
  whole_or_seeded CHUNK_OVERLAP src
    (chunks ++ [{| text := strip cur; page := pg; chunk_index := i |}]).
Proof.
  intros [Hc [Hw | (pre & prev & E & Hs)]]; cbn [fst snd] in *.
  - apply whole_or_seeded_app; [exact Hc|].
    constructor; [|constructor]. now apply whole_tokens_strip.
  - subst chunks. now apply (whole_or_seeded_snoc src pre prev _ cur).
Qed.

Lemma paragraph_step_seeded (src : list str) (pg : Z) (st : LoopState)
      (x : str) :
  whole_tokens src x ->
  seeded_state CHUNK_OVERLAP src st ->
  seeded_state CHUNK_OVERLAP src
    (paragraph_step CHUNK_SIZE CHUNK_OVERLAP pg st x).
Proof.
  intros Hx Hst. destruct st as [[chunks i] cur].
  pose proof (seeded_flush src pg chunks i cur Hst) as Hf.
  destruct Hst as [Hc Hcur]. cbn [fst snd] in *.
  pose proof (whole_tokens_strip src x Hx) as Hp.
  unfold paragraph_step.
  destruct (negb (truthy (strip x))); [now split|].
  destruct (_ >? _)%Z.
  - destruct (truthy cur); split; cbn [fst snd].
    + exact Hf.
    + right. eexists chunks, _. split; [reflexivity|].
      exists cur, (strip x). repeat split; auto.
    + apply whole_or_seeded_app; [exact Hc|].
      now apply split_large_paragraph_whole.
    + left. intros w [].
  - split; [exact Hc|]. cbn [snd].
    destruct Hcur as [Hw | (pre & prev & E & cur0 & rest & Hs & -> & Hr)].
    + left. apply (whole_tokens_app src _ cur (strip x));
        [apply split_ws_join_NLNL|exact Hw|exact Hp].
    + right. exists pre, prev. split; [exact E|].
      exists cur0, (rest ++ NLNL ++ strip x). split; [exact Hs|]. split.
      * unfold join_with.
        replace (truthy (get_overlap_text CHUNK_OVERLAP cur0 ++ SP ++ rest))
          with true by (now destruct (get_overlap_text CHUNK_OVERLAP cur0)).
        now rewrite <- !app_assoc.
      * apply (whole_tokens_app src _ rest (strip x)); auto.
        rewrite split_ws_app by reflexivity.
        now rewrite (split_ws_leading NLNL (strip x) eq_refl).
Qed.

(** The chunks of one page: only the first token of a chunk can be the
    end of a token of the page, and only in a chunk started with the
    overlap of the chunk before it. *)
Lemma chunk_text_single_seeded (pc : PageContent) :
  Forall (fun c => partial_first (split_ws (pc_text pc)) (text c))
         (chunk_text CHUNK_SIZE CHUNK_OVERLAP [pc])
  /\ whole_or_seeded CHUNK_OVERLAP (split_ws (pc_text pc))
       (chunk_text CHUNK_SIZE CHUNK_OVERLAP [pc]).
Proof.
  unfold chunk_text. cbn [fold_left]. unfold page_step.
  set (src := split_ws (pc_text pc)).
  assert (H : forall xs st,
             (forall x, In x xs -> whole_tokens src x) ->
             partial_state src st /\ seeded_state CHUNK_OVERLAP src st ->
             partial_state src
               (fold_left
                  (paragraph_step CHUNK_SIZE CHUNK_OVERLAP (pc_page pc))
                  xs st)
             /\ seeded_state CHUNK_OVERLAP src
                  (fold_left
                     (paragraph_step CHUNK_SIZE CHUNK_OVERLAP (pc_page pc))
                     xs st)).
  { induction xs as [|x xs IH]; intros st Hxs Hst; simpl; [exact Hst|].
    apply IH; [intros y Hy; apply Hxs; now right|].
    destruct Hst as [H1 H2]. split.
    - apply paragraph_step_partial; [apply Hxs; now left|exact H1].
    - apply paragraph_step_seeded; [apply Hxs; now left|exact H2]. }
  specialize (H (split_nn (pc_text pc)) ([], 0, [])).
  destruct (fold_left _ _ _) as [[chunks idx] cur].
  destruct H as [[Hc Hcur] Hs].
  - intros x Hx w Hw. unfold src. rewrite <- split_nn_tokens.
    eapply in_concat_tokens; eassumption.
  - split; split; cbn [fst snd].
    + constructor.
    + exact I.
    + intros k c Hk. now destruct k.
    + left. intros w [].
  - pose proof (seeded_flush src (pc_page pc) chunks idx cur Hs) as Hf.
    cbn [fst snd] in *. destruct (truthy (strip cur)); cbn [fst].
    + split; [|exact Hf].
      apply Forall_app. split; [exact Hc|]. constructor; [|constructor].
      now apply partial_first_strip.
    + split; [exact Hc|exact (proj1 Hs)].
Qed.

(** C4 (as amended).  The sentence and word levels never cut a token:
    the tokens of the chunks made from a paragraph are, in order, the
    tokens of the paragraph, and a token longer than the chunk size is
    kept whole as the only token of its chunk.  At the paragraph level
    every token of a chunk is a token of its page's text, with one
    exception: a chunk whose buffer was started with the overlap of the
    chunk before it on the page ([overlap_text + " " + paragraph]).  The
    overlap is a window of characters, so the first token of such a
    chunk, and only the first, may be the end of a token of the page;
    what follows the overlap is made of tokens of the page.  The first
    chunk of a page is never such a chunk. *)
Theorem chunker_keeps_tokens_whole :
  (forall (paragraph : str) (pg : Z) (i : nat),
      tokens_of_chunks (split_large_paragraph CHUNK_SIZE paragraph pg i)
      = split_ws paragraph)
  /\ (forall (paragraph : str) (pg : Z) (i : nat) (c : Chunk) (w : str),
         In c (split_large_paragraph CHUNK_SIZE paragraph pg i) ->
         In w (split_ws (text c)) ->
         (len w > CHUNK_SIZE)%Z ->
         split_ws (text c) = [w])
  /\ (forall (text_content : list PageContent) (c : Chunk),
         In c (chunk_text CHUNK_SIZE CHUNK_OVERLAP text_content) ->
         exists pc k c',
           In pc text_content
           /\ page c = pc_page pc
           /\ nth_error (chunk_text CHUNK_SIZE CHUNK_OVERLAP [pc]) k
              = Some c'
           /\ text c' = text c
           /\ tokens_from (split_ws (pc_text pc)) (text c)
           /\ partial_first (split_ws (pc_text pc)) (text c)
           /\ (whole_tokens (split_ws (pc_text pc)) (text c)
               \/ exists j prev buf,
                   k = S j
                   /\ nth_error (chunk_text CHUNK_SIZE CHUNK_OVERLAP [pc]) j
                      = Some prev
                   /\ text c = strip buf
                   /\ overlap_seeded CHUNK_OVERLAP (split_ws (pc_text pc))
                        prev buf)).
Proof.
  split; [|split].
  - apply split_large_paragraph_tokens.
  - intros paragraph pg i c w Hc Hw Hlong.
    pose proof (split_large_paragraph_alone paragraph pg i) as H.
    rewrite Forall_forall in H. exact (H c Hc w Hw Hlong).
  - intros text_content c Hc.
    destruct (chunk_text_in CHUNK_SIZE CHUNK_OVERLAP _ _ Hc)
      as (pc & c' & Hpc & Hc' & Ht & Hp).
    destruct (In_nth_error _ _ Hc') as [k Hk].
    destruct (chunk_text_single_seeded pc) as [Hpart Hseed].
    exists pc, k, c'. split; [exact Hpc|]. split.
    { rewrite Hp.
      pose proof (chunk_text_single_paged CHUNK_SIZE CHUNK_OVERLAP pc) as H.
      unfold paged in H. rewrite Forall_forall in H. now apply H. }
    split; [exact Hk|]. split; [now symmetry|]. rewrite Ht. split.
    { pose proof (chunk_text_single_from pc) as H.
      rewrite Forall_forall in H. now apply H. }
    split.
    { rewrite Forall_forall in Hpart. now apply Hpart. }
    exact (Hseed k c' Hk).
Qed.

End ChunkWholeTokens.

Lemma chunker_keeps_tokens_whole_witness :
  split_ws (lit "aaaaaaaaaaaaaaa") = [lit "aaaaaaaaaaaaaaa"].
Proof.
  apply (proj1 (proj2 (chunker_keeps_tokens_whole 10 2))
           (lit "aaaaaaaaaaaaaaa bb") 1%Z 0
           {| text := lit "aaaaaaaaaaaaaaa"; page := 1; chunk_index := 0 |}
           (lit "aaaaaaaaaaaaaaa")).
  - vm_compute. left. reflexivity.
  - vm_compute. left. reflexivity.
  - reflexivity.
Defined.

Lemma eqb_refl (x : str) : PyStr.eqb x x = true.
Proof.
  induction x as [|c x IH]; [reflexivity|]. simpl.
  now rewrite Ascii.eqb_refl, IH.
Qed.

Lemma in_existsb_eqb (w : str) (l : list str) :
  In w l -> existsb (PyStr.eqb w) l = true.
Proof.
  intros H. apply existsb_exists. exists w. split; [exact H|apply eqb_refl].
Qed.

(** C4, as first stated, fails for the overlap: with the sizes 1000 and
    200, the second chunk of this page starts with ["cdef"], the end of a
    word cut by the 200-character window, which is no token of the page. *)
Lemma overlap_starts_inside_token :
  (200 < 1000)%Z
  /\ exists c w,
       In c (chunk_text 1000 200 [many_words])
       /\ chunk_index c = 1
       /\ In w (split_ws (text c))
       /\ w = lit "cdef"
       /\ ~ In w (split_ws (pc_text many_words)).
Proof.
  split; [reflexivity|].
  exists (nth 1 (chunk_text 1000 200 [many_words])
              {| text := []; page := 0; chunk_index := 0 |}), (lit "cdef").
  split; [vm_compute; right; left; reflexivity|].
  split; [vm_compute; reflexivity|].
  split; [vm_compute; left; reflexivity|].
  split; [reflexivity|].
  intros H. apply in_existsb_eqb in H. vm_compute in H. discriminate H.
Qed.

(** ** Text chunker: size of the chunks *)

(** C1 does not hold of the code.  With the sizes 1000 and 200, two
    paragraphs of 500 characters pass the test
    [len(current_chunk) + len(paragraph) > CHUNK_SIZE], which leaves the
    separator out, and are joined into one chunk of 1002 characters, none
    of whose words or sentences is longer than 1000. *)
Lemma chunk_longer_than_chunk_size :
  (200 < 1000)%Z
  /\ chunk_text 1000 200 [two_paragraphs]
     = [{| text := pc_text two_paragraphs; page := 1; chunk_index := 0 |}]
  /\ len (pc_text two_paragraphs) = 1002%Z
  /\ forallb (fun w => (len w <=? 1000)%Z)
             (split_ws (pc_text two_paragraphs)) = true
  /\ forallb (fun x => (len x <=? 1000)%Z)
             (flat_map split_sentences (split_nn (pc_text two_paragraphs)))
     = true.
Proof.
  repeat split; vm_compute; reflexivity.
Qed.


(** * Further properties *)

(** ** Stripping *)

Lemma lstrip_snoc (l : str) (c : ascii) :
  lstrip (l ++ [c])
  = match lstrip l with
    | [] => if is_space c then [] else [c]
    | r => r ++ [c]
    end.
Proof.
  induction l as [|a l IH]; [reflexivity|].
  simpl. destruct (is_space a); [exact IH|reflexivity].
Qed.

(** [rstrip] read from the left. *)
Lemma rstrip_cons (c : ascii) (y : str) :
  rstrip (c :: y)
  = match rstrip y with
    | [] => if is_space c then [] else [c]
    | r => c :: r
    end.
Proof.
  unfold rstrip. simpl rev. rewrite lstrip_snoc.
  destruct (lstrip (rev y)) as [|a r] eqn:E.
  - simpl. now destruct (is_space c).
  - rewrite rev_app_distr. simpl.
    destruct (rev r ++ [a]) eqn:E'; [now destruct (rev r)|reflexivity].
Qed.

Lemma lstrip_length (x : str) : List.length (lstrip x) <= List.length x.
Proof.
  induction x as [|c x IH]; simpl; [lia|].
  destruct (is_space c); simpl; lia.
Qed.

Lemma rstrip_length (x : str) : List.length (rstrip x) <= List.length x.
Proof.
  unfold rstrip. rewrite length_rev.
  pose proof (lstrip_length (rev x)) as H. now rewrite length_rev in H.
Qed.

Lemma strip_length (x : str) : List.length (strip x) <= List.length x.
Proof.
  unfold strip. pose proof (rstrip_length (lstrip x)).
  pose proof (lstrip_length x). lia.
Qed.

Lemma lstrip_lstrip (x : str) : lstrip (lstrip x) = lstrip x.
Proof.
  induction x as [|c x IH]; [reflexivity|]. simpl.
  destruct (is_space c) eqn:E; [exact IH|]. simpl. now rewrite E.
Qed.

Lemma lstrip_fixed_head (c : ascii) (x : str) :
  lstrip (c :: x) = c :: x -> is_space c = false.
Proof.
  simpl. destruct (is_space c); [|reflexivity].
  intros H. pose proof (lstrip_length x) as Hl. rewrite H in Hl.
  simpl in Hl. lia.
Qed.

Lemma lstrip_rstrip (y : str) : lstrip y = y -> lstrip (rstrip y) = rstrip y.
Proof.
  destruct y as [|c y]; [reflexivity|].
  intros H. apply lstrip_fixed_head in H.
  rewrite rstrip_cons. destruct (rstrip y); rewrite ?H; simpl; now rewrite H.
Qed.

Lemma rstrip_rstrip (y : str) : rstrip (rstrip y) = rstrip y.
Proof.
  unfold rstrip. now rewrite rev_involutive, lstrip_lstrip.
Qed.

(** Stripping twice is stripping once. *)
Lemma strip_idem (x : str) : strip (strip x) = strip x.
Proof.
  unfold strip.
  rewrite (lstrip_rstrip (lstrip x) (lstrip_lstrip x)).
  apply rstrip_rstrip.
Qed.

Lemma split_ws_nil_spaces (x : str) :
  split_ws x = [] -> forallb is_space x = true.
Proof.
  induction x as [|c x IH]; [reflexivity|].
  destruct (is_space c) eqn:E.
  - rewrite (split_ws_space _ _ E). intros H. simpl. now rewrite E, IH.
  - intros H. now apply split_ws_nonempty in H.
Qed.

Lemma lstrip_spaces (x : str) : forallb is_space x = true -> lstrip x = [].
Proof.
  induction x as [|c x IH]; [reflexivity|]. simpl.
  intros H. apply andb_true_iff in H as [Hc Hx]. now rewrite Hc, IH.
Qed.

(** A string keeps something when stripped exactly when it has a token. *)
Lemma strip_nonempty_tokens (x : str) : strip x <> [] <-> split_ws x <> [].
Proof.
  split.
  - intros H E. apply H. unfold strip.
    now rewrite (lstrip_spaces _ (split_ws_nil_spaces _ E)).
  - intros H E. apply H. now apply strip_empty_tokens.
Qed.

(** ** Text chunker: overlap *)

Lemma skipn_suffix (k : nat) (x : str) : suffix_of (skipn k x) x.
Proof. exists (firstn k x). now rewrite firstn_skipn. Qed.

Section Overlap.

Variable CHUNK_OVERLAP : Z.

(** X4.  The overlap is an end of the buffer, the whole buffer when that
    is no longer than [CHUNK_OVERLAP], and at most [CHUNK_OVERLAP]
    characters when [CHUNK_OVERLAP] is positive.  With [CHUNK_OVERLAP = 0]
    the slice [text[-0:]] is the whole buffer, so, unless a sentence end
    cuts it, the overlap is then the whole previous chunk. *)
Theorem get_overlap_text_bounds (t : str) :
  suffix_of (get_overlap_text CHUNK_OVERLAP t) t
  /\ ((len t <= CHUNK_OVERLAP)%Z -> get_overlap_text CHUNK_OVERLAP t = t)
  /\ ((0 < CHUNK_OVERLAP)%Z ->
      (len (get_overlap_text CHUNK_OVERLAP t) <= CHUNK_OVERLAP)%Z)
  /\ (CHUNK_OVERLAP = 0%Z ->
      (rfind t (lit ". ") <= 0)%Z -> (rfind t (lit "! ") <= 0)%Z ->
      (rfind t (lit "? ") <= 0)%Z ->
      get_overlap_text CHUNK_OVERLAP t = t).
Proof.
  split; [|split; [|split]].
  - unfold get_overlap_text, slice_from.
    destruct (_ <=? _)%Z; [apply suffix_of_refl|].
    destruct (_ >? _)%Z; [|apply skipn_suffix].
    eapply suffix_of_trans; apply skipn_suffix.
  - intros H. unfold get_overlap_text.
    apply Z.leb_le in H. now rewrite H.
  - intros Hpos. unfold get_overlap_text.
    destruct (Z.leb_spec (len t) CHUNK_OVERLAP) as [Hle|Hgt]; [exact Hle|].
    assert (Hov : (len (slice_from t (- CHUNK_OVERLAP)) <= CHUNK_OVERLAP)%Z).
    { unfold slice_from, len in *.
      destruct (Z.ltb_spec (- CHUNK_OVERLAP) 0); [|lia].
      rewrite length_skipn. lia. }
    destruct (_ >? _)%Z; [|exact Hov].
    unfold slice_from at 1. unfold len in *. rewrite length_skipn. lia.
  - intros -> H1 H2 H3. unfold get_overlap_text.
    destruct (Z.leb_spec (len t) 0); [reflexivity|].
    assert (E : slice_from t (- 0) = t).
    { unfold slice_from. simpl Z.opp. cbv beta iota zeta.
      change (0 <? 0)%Z with false. cbv iota.
      rewrite Z.min_l by (unfold len; lia). reflexivity. }
    rewrite E.
    destruct (Z.gtb_spec
                (Z.max (Z.max (rfind t (lit ". ")) (rfind t (lit "! ")))
                       (rfind t (lit "? "))) 0); [lia|reflexivity].
Qed.

End Overlap.

Lemma get_overlap_text_bounds_witness :
  get_overlap_text 0 (lit "hello world") = lit "hello world".
Proof.
  apply (proj2 (proj2 (proj2 (get_overlap_text_bounds 0 (lit "hello world")))));
    vm_compute; congruence.
Defined.

(** ** Text chunker: what the chunks hold *)

Lemma join_with_length (sep cur x : str) :
  List.length (join_with sep cur x)
  <= List.length cur + List.length sep + List.length x.
Proof.
  unfold join_with. rewrite !length_app. destruct (truthy cur); simpl; lia.
Qed.

Lemma near_size_strip (size : Z) (x : str) :
  near_size size x -> near_size size (strip x).
Proof.
  intros [H | [w H]].
  - left. pose proof (strip_length x). unfold len in *. lia.
  - right. exists w. now rewrite split_ws_strip.
Qed.

Lemma truthy_nonempty (x : str) : truthy x = true -> x <> [].
Proof. now apply truthy_true_iff. Qed.

Section ChunkContents.

Variable CHUNK_SIZE CHUNK_OVERLAP : Z.

Lemma near_flush (pg : Z) (chunks : list Chunk) (i : nat) (cur : str) :
  near_size_state CHUNK_SIZE (chunks, i, cur) ->
  Forall (fun c => near_size CHUNK_SIZE (text c))
         (fst (flush_if_current pg (chunks, i, cur))).
Proof.
  intros [Hc Hcur]. unfold flush_if_current. cbn [fst snd] in *.
  destruct (truthy cur) eqn:E; cbn [fst]; [|exact Hc].
  apply Forall_app. split; [exact Hc|]. constructor; [|constructor].
  apply near_size_strip. destruct Hcur as [-> | H]; [discriminate|exact H].
Qed.

Lemma near_join (cur x : str) :
  (len cur + len x <= CHUNK_SIZE)%Z ->
  near_size CHUNK_SIZE (join_with SP cur x).
Proof.
  intros H. left. pose proof (join_with_length SP cur x) as Hl.
  unfold len in *. simpl in Hl. lia.
Qed.

Lemma word_step_near (pg : Z) (st : LoopState) (w : str) :
  is_word w -> near_size_state CHUNK_SIZE st ->
  near_size_state CHUNK_SIZE (word_step CHUNK_SIZE pg st w).
Proof.
  intros Hw Hst. destruct st as [[chunks i] cur].
  pose proof (near_flush pg chunks i cur Hst) as Hf.
  unfold word_step.
  destruct (Z.gtb_spec (len cur + len w) CHUNK_SIZE).
  - destruct (flush_if_current pg (chunks, i, cur)) as [chunks' i'].
    split; [exact Hf|]. right. right. exists w. now apply split_ws_word.
  - split; [exact (proj1 Hst)|]. right. now apply near_join.
Qed.

Lemma words_fold_near (pg : Z) (ws : list str) :
  Forall is_word ws ->
  forall st, near_size_state CHUNK_SIZE st ->
             near_size_state CHUNK_SIZE
               (fold_left (word_step CHUNK_SIZE pg) ws st).
Proof.
  induction 1 as [|w ws Hw _ IH]; intros st Hst; simpl; [exact Hst|].
  apply IH. now apply word_step_near.
Qed.

Lemma sentence_step_near (pg : Z) (st : LoopState) (x : str) :
  near_size_state CHUNK_SIZE st ->
  near_size_state CHUNK_SIZE (sentence_step CHUNK_SIZE pg st x).
Proof.
  intros Hst. destruct st as [[chunks i] cur].
  pose proof (near_flush pg chunks i cur Hst) as Hf.
  unfold sentence_step.
  destruct (Z.gtb_spec (len cur + len x) CHUNK_SIZE).
  - destruct (flush_if_current pg (chunks, i, cur)) as [chunks' i'].
    destruct (Z.gtb_spec (len x) CHUNK_SIZE).
    + apply words_fold_near; [apply split_ws_words|].
      split; [exact Hf|now left].
    + split; [exact Hf|]. right. left. cbn [snd]. lia.
  - split; [exact (proj1 Hst)|]. right. now apply near_join.
Qed.

(** X5.  A chunk made by [_split_large_paragraph] is longer than
    [CHUNK_SIZE] by at most one character (the joining space, which the
    size test does not count), unless it is made of a single token. *)
Theorem split_large_paragraph_near_size (paragraph : str) (pg : Z) (i : nat)
        (c : Chunk) :
  In c (split_large_paragraph CHUNK_SIZE paragraph pg i) ->
  (len (text c) <= CHUNK_SIZE + 1)%Z \/ exists w, split_ws (text c) = [w].
Proof.
  revert c. apply Forall_forall. unfold split_large_paragraph.
  assert (H : near_size_state CHUNK_SIZE
                (fold_left (sentence_step CHUNK_SIZE pg)
                   (split_sentences paragraph) ([], i, []))).
  { assert (H0 : near_size_state CHUNK_SIZE ([], i, []))
      by (split; [constructor|now left]).
    revert H0. generalize (([], i, []) : LoopState) as st.
    generalize (split_sentences paragraph) as xs.
    induction xs as [|x xs IH]; intros st H0; simpl; [exact H0|].
    apply IH. now apply sentence_step_near. }
  destruct (fold_left _ _ _) as [[chunks idx] cur]. destruct H as [Hc Hcur].
  unfold final_chunk. cbn [fst snd] in *.
  destruct (truthy (strip cur)) eqn:E; [|exact Hc].
  apply Forall_app. split; [exact Hc|]. constructor; [|constructor].
  apply near_size_strip. destruct Hcur as [-> | H]; [discriminate|exact H].
Qed.

Lemma fold_texts_all {A} (P : str -> Prop)
      (step : LoopState -> A -> LoopState) :
  (forall st x, texts_all P st -> texts_all P (step st x)) ->
  forall xs st, texts_all P st -> texts_all P (fold_left step xs st).
Proof.
  intros Hstep xs. induction xs as [|x xs IH]; intros st H; simpl; auto.
Qed.

Lemma texts_all_snoc (P : str -> Prop) (chunks : list Chunk) (x : str)
      (pg : Z) (i : nat) :
  (forall y, P (strip y)) ->
  Forall (fun c => P (text c)) chunks ->
  Forall (fun c => P (text c))
         (chunks ++ [{| text := strip x; page := pg; chunk_index := i |}]).
Proof.
  intros HP H. apply Forall_app. split; [exact H|].
  constructor; [apply HP|constructor].
Qed.

Lemma word_step_texts_all (P : str -> Prop) (pg : Z) (st : LoopState)
      (w : str) :
  (forall y, P (strip y)) ->
  texts_all P st -> texts_all P (word_step CHUNK_SIZE pg st w).
Proof.
  intros HP. destruct st as [[chunks i] cur].
  unfold texts_all, word_step, flush_if_current. cbn [fst]. intros H.
  destruct (_ >? _)%Z; [|exact H].
  destruct (truthy cur); cbn [fst]; [now apply texts_all_snoc|exact H].
Qed.

Lemma sentence_step_texts_all (P : str -> Prop) (pg : Z) (st : LoopState)
      (x : str) :
  (forall y, P (strip y)) ->
  texts_all P st -> texts_all P (sentence_step CHUNK_SIZE pg st x).
Proof.
  intros HP. destruct st as [[chunks i] cur].
  unfold sentence_step, flush_if_current. intros H.
  unfold texts_all in H. cbn [fst] in H.
  destruct (_ >? _)%Z; [|exact H].
  destruct (truthy cur).
  - destruct (_ >? _)%Z; [|now apply texts_all_snoc].
    apply fold_texts_all; [intros; now apply word_step_texts_all|].
    now apply texts_all_snoc.
  - destruct (_ >? _)%Z; [|exact H].
    apply fold_texts_all; [intros; now apply word_step_texts_all|exact H].
Qed.

Lemma split_large_paragraph_texts_all (P : str -> Prop) (paragraph : str)
      (pg : Z) (i : nat) :
  (forall y, P (strip y)) ->
  Forall (fun c => P (text c))
         (split_large_paragraph CHUNK_SIZE paragraph pg i).
Proof.
  intros HP. unfold split_large_paragraph.
  assert (H : texts_all P
                (fold_left (sentence_step CHUNK_SIZE pg)
                   (split_sentences paragraph) ([], i, [])))
    by (apply fold_texts_all;
        [intros; now apply sentence_step_texts_all|constructor]).
  destruct (fold_left _ _ _) as [[chunks idx] cur]. unfold final_chunk.
  destruct (truthy (strip cur)); [now apply texts_all_snoc|exact H].
Qed.

Lemma paragraph_step_texts_all (P : str -> Prop) (pg : Z) (st : LoopState)
      (x : str) :
  (forall y, P (strip y)) ->
  texts_all P st ->
  texts_all P (paragraph_step CHUNK_SIZE CHUNK_OVERLAP pg st x).
Proof.
  intros HP. destruct st as [[chunks i] cur]. unfold paragraph_step.
  intros H. destruct (negb (truthy (strip x))); [exact H|].
  destruct (_ >? _)%Z; [|exact H].
  destruct (truthy cur); [now apply texts_all_snoc|].
  apply Forall_app. split; [exact H|].
  now apply split_large_paragraph_texts_all.
Qed.

(** Whatever holds of every stripped string holds of every chunk text. *)
Lemma chunk_text_texts_all (P : str -> Prop)
      (text_content : list PageContent) :
  (forall y, P (strip y)) ->
  Forall (fun c => P (text c))
         (chunk_text CHUNK_SIZE CHUNK_OVERLAP text_content).
Proof.
  intros HP. unfold chunk_text.
  assert (H : forall units st,
             Forall (fun c => P (text c)) (fst st) ->
             Forall (fun c => P (text c))
               (fst (fold_left (page_step CHUNK_SIZE CHUNK_OVERLAP) units st))).
  { induction units as [|u units IH]; intros st Hst; simpl; [exact Hst|].
    apply IH. destruct st as [chunks idx]. unfold page_step.
    assert (Hf : texts_all P
                   (fold_left
                      (paragraph_step CHUNK_SIZE CHUNK_OVERLAP (pc_page u))
                      (split_nn (pc_text u)) (chunks, idx, [])))
      by (apply fold_texts_all;
          [intros; now apply paragraph_step_texts_all|exact Hst]).
    destruct (fold_left _ _ _) as [[chunks' idx'] cur].
    destruct (truthy (strip cur)); cbn [fst];
      [now apply texts_all_snoc|exact Hf]. }
  apply (H text_content ([], 0)). constructor.
Qed.

End ChunkContents.

Lemma split_large_paragraph_near_size_witness :
  (len (lit "One two.") <= 10 + 1)%Z
  \/ exists w, split_ws (lit "One two.") = [w].
Proof.
  apply (split_large_paragraph_near_size 10
           (lit "One two. Three four five.") 1 0
           {| text := lit "One two."; page := 1; chunk_index := 0 |}).
  left. reflexivity.
Defined.

(** ** Text chunker: nothing is lost, nothing is empty *)

Lemma has_nonspace_tokens (x : str) :
  has_nonspace x = true -> split_ws x <> [].
Proof.
  intros H E. apply split_ws_nil_spaces in E.
  unfold has_nonspace in H. apply existsb_exists in H as (c & Hc & Hn).
  rewrite forallb_forall in E. rewrite (E c Hc) in Hn. discriminate.
Qed.

Lemma has_nonspace_rev (x : str) :
  has_nonspace x = true -> has_nonspace (rev x) = true.
Proof.
  unfold has_nonspace. rewrite !existsb_exists.
  intros (c & Hc & Hn). exists c. split; [now apply in_rev in Hc|exact Hn].
Qed.

(** The sentences of a paragraph that does not start with a space are
    empty or hold a token. *)
Lemma split_sentences_aux_ok (x : str) :
  forall (skipping prev_end : bool) (acc : str),
    has_nonspace acc = true
    \/ (acc = [] /\ (skipping = true \/ lstrip x = x)) ->
    Forall sentence_ok (split_sentences_aux skipping prev_end acc x).
Proof.
  assert (Hacc : forall acc (y : str) sk,
             has_nonspace acc = true \/ (acc = [] /\ (sk = true \/ lstrip y = y)) ->
             sentence_ok (rev acc)).
  { intros acc y sk [H | [-> _]]; [right|now left].
    now apply has_nonspace_tokens, has_nonspace_rev. }
  induction x as [|c x IH]; intros sk pe acc H.
  - constructor; [|constructor]. exact (Hacc _ _ _ H).
  - cbn [split_sentences_aux]. destruct (is_space c) eqn:Ec.
    + destruct sk.
      * apply IH. destruct H as [H | [-> _]]; [now left|right; auto].
      * assert (Hkeep : has_nonspace acc = true).
        { destruct H as [H | [_ [H | H]]]; [exact H|discriminate|].
          apply lstrip_fixed_head in H. congruence. }
        destruct pe.
        -- constructor; [exact (Hacc _ _ _ H)|]. apply IH. right. auto.
        -- apply IH. left. unfold has_nonspace in *. simpl.
           now rewrite Hkeep, orb_true_r.
    + apply IH. left. unfold has_nonspace. simpl. now rewrite Ec.
Qed.

Lemma split_sentences_ok (x : str) :
  lstrip x = x -> Forall sentence_ok (split_sentences x).
Proof. intros H. apply split_sentences_aux_ok. right. auto. Qed.

Lemma lstrip_strip (x : str) : lstrip (strip x) = strip x.
Proof. unfold strip. apply lstrip_rstrip, lstrip_lstrip. Qed.

Lemma app_not_nil_r {A} (a b : list A) : b <> [] -> a ++ b <> [].
Proof. intros H E. apply app_eq_nil in E as [_ E]. contradiction. Qed.

Lemma app_not_nil_l {A} (a b : list A) : a <> [] -> a ++ b <> [].
Proof. intros H E. apply app_eq_nil in E as [E _]. contradiction. Qed.

Section ChunkComplete.

Variable CHUNK_SIZE CHUNK_OVERLAP : Z.

Lemma token_flush (pg : Z) (chunks : list Chunk) (i : nat) (cur : str) :
  token_state (chunks, i, cur) ->
  Forall (fun c => split_ws (text c) <> [])
         (fst (flush_if_current pg (chunks, i, cur))).
Proof.
  intros [Hc Hcur]. unfold flush_if_current. cbn [fst snd] in *.
  destruct (truthy cur) eqn:E; cbn [fst]; [|exact Hc].
  apply Forall_app. split; [exact Hc|]. constructor; [|constructor].
  cbn [text]. rewrite split_ws_strip.
  destruct Hcur as [-> | H]; [discriminate|exact H].
Qed.

Lemma token_join (cur x : str) :
  sentence_ok cur -> sentence_ok x -> sentence_ok (join_with SP cur x).
Proof.
  intros [-> | Hc] Hx; [exact Hx|]. right.
  rewrite split_ws_join_SP. now apply app_not_nil_l.
Qed.

Lemma word_step_token (pg : Z) (st : LoopState) (w : str) :
  is_word w -> token_state st -> token_state (word_step CHUNK_SIZE pg st w).
Proof.
  intros Hw Hst. destruct st as [[chunks i] cur].
  pose proof (token_flush pg chunks i cur Hst) as Hf.
  assert (Hok : sentence_ok w)
    by (right; rewrite (split_ws_word _ Hw); discriminate).
  unfold word_step. destruct (_ >? _)%Z.
  - destruct (flush_if_current pg (chunks, i, cur)) as [chunks' i'].
    now split.
  - split; [exact (proj1 Hst)|]. apply token_join; [exact (proj2 Hst)|exact Hok].
Qed.

Lemma words_fold_token (pg : Z) (ws : list str) :
  Forall is_word ws ->
  forall st, token_state st ->
             token_state (fold_left (word_step CHUNK_SIZE pg) ws st).
Proof.
  induction 1 as [|w ws Hw _ IH]; intros st Hst; simpl; [exact Hst|].
  apply IH. now apply word_step_token.
Qed.

Lemma sentence_step_token (pg : Z) (st : LoopState) (x : str) :
  sentence_ok x -> token_state st ->
  token_state (sentence_step CHUNK_SIZE pg st x).
Proof.
  intros Hx Hst. destruct st as [[chunks i] cur].
  pose proof (token_flush pg chunks i cur Hst) as Hf.
  unfold sentence_step. destruct (_ >? _)%Z.
  - destruct (flush_if_current pg (chunks, i, cur)) as [chunks' i'].
    destruct (_ >? _)%Z.
    + apply words_fold_token; [apply split_ws_words|].
      split; [exact Hf|now left].
    + now split.
  - split; [exact (proj1 Hst)|]. apply token_join; [exact (proj2 Hst)|exact Hx].
Qed.

(** No chunk of [_split_large_paragraph] is empty, when the paragraph
    does not start with a space. *)
Lemma split_large_paragraph_token (paragraph : str) (pg : Z) (i : nat) :
  lstrip paragraph = paragraph ->
  Forall (fun c => split_ws (text c) <> [])
         (split_large_paragraph CHUNK_SIZE paragraph pg i).
Proof.
  intros Hp. unfold split_large_paragraph.
  assert (H : token_state
                (fold_left (sentence_step CHUNK_SIZE pg)
                   (split_sentences paragraph) ([], i, []))).
  { pose proof (split_sentences_ok _ Hp) as Hs.
    assert (H0 : token_state ([], i, [])) by (split; [constructor|now left]).
    revert H0. generalize (([], i, []) : LoopState) as st.
    induction Hs as [|x xs Hx _ IH]; intros st H0; simpl; [exact H0|].
    apply IH. now apply sentence_step_token. }
  destruct (fold_left _ _ _) as [[chunks idx] cur]. destruct H as [Hc _].
  unfold final_chunk. cbn [fst] in Hc.
  destruct (truthy (strip cur)) eqn:E; [|exact Hc].
  apply Forall_app. split; [exact Hc|]. constructor; [|constructor].
  cbn [text]. rewrite split_ws_strip.
  now apply strip_nonempty_tokens, truthy_nonempty.
Qed.

Lemma paragraph_step_token (pg : Z) (st : LoopState) (x : str) :
  token_state st ->
  token_state (paragraph_step CHUNK_SIZE CHUNK_OVERLAP pg st x).
Proof.
  intros Hst. destruct st as [[chunks i] cur]. destruct Hst as [Hc Hcur].
  cbn [fst snd] in *. unfold paragraph_step.
  destruct (truthy (strip x)) eqn:Ex; cbn [negb]; [|now split].
  assert (Hp : split_ws (strip x) <> []).
  { rewrite split_ws_strip. now apply strip_nonempty_tokens, truthy_nonempty. }
  destruct (_ >? _)%Z.
  - destruct (truthy cur) eqn:Ec; split; cbn [fst snd].
    + apply Forall_app. split; [exact Hc|]. constructor; [|constructor].
      cbn [text]. rewrite split_ws_strip.
      destruct Hcur as [-> | H]; [discriminate|exact H].
    + right. rewrite split_ws_app by reflexivity.
      rewrite (split_ws_leading SP (strip x) eq_refl).
      now apply app_not_nil_r.
    + apply Forall_app. split; [exact Hc|].
      apply split_large_paragraph_token, lstrip_strip.
    + now left.
  - split; [exact Hc|]. cbn [snd]. right.
    rewrite split_ws_join_NLNL. now apply app_not_nil_r.
Qed.

(** X7.  Every chunk the chunker makes holds at least one token (so none
    is empty) and has no space at either end. *)
Theorem chunks_not_empty_and_stripped (text_content : list PageContent)
        (c : Chunk) :
  In c (chunk_text CHUNK_SIZE CHUNK_OVERLAP text_content) ->
  text c <> [] /\ split_ws (text c) <> [] /\ strip (text c) = text c.
Proof.
  intros Hc.
  assert (Htok : split_ws (text c) <> []).
  { revert c Hc. apply Forall_forall. unfold chunk_text.
    assert (H : forall units st,
               Forall (fun c => split_ws (text c) <> []) (fst st) ->
               Forall (fun c => split_ws (text c) <> [])
                 (fst (fold_left (page_step CHUNK_SIZE CHUNK_OVERLAP)
                                 units st))).
    { induction units as [|u units IH]; intros st Hst; simpl; [exact Hst|].
      apply IH. destruct st as [chunks idx]. unfold page_step.
      assert (Hf : token_state
                     (fold_left
                        (paragraph_step CHUNK_SIZE CHUNK_OVERLAP (pc_page u))
                        (split_nn (pc_text u)) (chunks, idx, []))).
      { assert (H0 : token_state (chunks, idx, [])) by (split; [exact Hst|now left]).
        revert H0. generalize ((chunks, idx, []) : LoopState) as st0.
        generalize (split_nn (pc_text u)) as xs.
        induction xs as [|x xs IHx]; intros st0 H0; simpl; [exact H0|].
        apply IHx. now apply paragraph_step_token. }
      destruct (fold_left _ _ _) as [[chunks' idx'] cur].
      destruct Hf as [Hf _]. cbn [fst] in Hf.
      destruct (truthy (strip cur)) eqn:E; cbn [fst]; [|exact Hf].
      apply Forall_app. split; [exact Hf|]. constructor; [|constructor].
      cbn [text]. rewrite split_ws_strip.
      now apply strip_nonempty_tokens, truthy_nonempty. }
    apply (H text_content ([], 0)). constructor. }
  split; [|split; [exact Htok|]].
  - intros E. apply Htok. now rewrite E.
  - pose proof (chunk_text_texts_all CHUNK_SIZE CHUNK_OVERLAP
                  (fun t => strip t = t) text_content strip_idem) as H.
    rewrite Forall_forall in H. now apply H.
Qed.

Lemma paragraph_step_keeps_tokens (pg : Z) (st : LoopState) (x : str) :
  incl (tokens_of_state st ++ split_ws x)
       (tokens_of_state (paragraph_step CHUNK_SIZE CHUNK_OVERLAP pg st x)).
Proof.
  destruct st as [[chunks i] cur]. unfold paragraph_step, tokens_of_state.
  cbn [fst snd].
  destruct (truthy (strip x)) eqn:Ex; cbn [negb].
  - destruct (_ >? _)%Z.
    + destruct (truthy cur) eqn:Ec; cbn [fst snd].
      * rewrite tokens_of_chunks_snoc; cbn [text].
        rewrite split_ws_strip, split_ws_app by reflexivity.
        rewrite (split_ws_leading SP (strip x) eq_refl), split_ws_strip.
        apply incl_app; [apply incl_appl, incl_refl|].
        apply incl_appr, incl_appr, incl_refl.
      * rewrite tokens_of_chunks_app, split_large_paragraph_tokens.
        rewrite split_ws_strip, (truthy_false_tokens _ Ec), !app_nil_r.
        apply incl_refl.
    + cbn [fst snd]. rewrite split_ws_join_NLNL, split_ws_strip.
      rewrite app_assoc. apply incl_refl.
  - rewrite (strip_empty_tokens _ (truthy_false _ Ex)), app_nil_r.
    apply incl_refl.
Qed.

Lemma paragraphs_keep_tokens (pg : Z) (xs : list str) :
  forall st,
    incl (tokens_of_state st ++ concat (map split_ws xs))
         (tokens_of_state
            (fold_left (paragraph_step CHUNK_SIZE CHUNK_OVERLAP pg) xs st)).
Proof.
  induction xs as [|x xs IH]; intros st; simpl.
  - rewrite app_nil_r. apply incl_refl.
  - eapply incl_tran; [|apply IH]. rewrite app_assoc.
    apply incl_app; [|apply incl_appr, incl_refl].
    apply incl_appl, paragraph_step_keeps_tokens.
Qed.

(** Every token of a page is in a chunk of that page. *)
Lemma chunk_text_single_complete (pc : PageContent) :
  incl (split_ws (pc_text pc))
       (tokens_of_chunks (chunk_text CHUNK_SIZE CHUNK_OVERLAP [pc])).
Proof.
  unfold chunk_text. cbn [fold_left]. unfold page_step.
  pose proof (paragraphs_keep_tokens (pc_page pc) (split_nn (pc_text pc))
                ([], 0, [])) as H.
  rewrite split_nn_tokens in H.
  destruct (fold_left _ _ _) as [[chunks idx] cur].
  unfold tokens_of_state in H. cbn [fst snd tokens_of_chunks map concat app] in H.
  eapply incl_tran; [exact H|].
  destruct (truthy (strip cur)) eqn:E; cbn [fst].
  - rewrite tokens_of_chunks_snoc; cbn [text]. rewrite split_ws_strip.
    apply incl_refl.
  - rewrite (strip_empty_tokens _ (truthy_false _ E)), app_nil_r.
    apply incl_refl.
Qed.

Lemma chunk_text_in_page (text_content : list PageContent)
      (pc : PageContent) (c' : Chunk) :
  In pc text_content ->
  In c' (chunk_text CHUNK_SIZE CHUNK_OVERLAP [pc]) ->
  exists c,
    In c (chunk_text CHUNK_SIZE CHUNK_OVERLAP text_content)
    /\ text c = text c' /\ page c = page c'.
Proof.
  induction text_content as [|u us IH]; [intros []|].
  change (u :: us) with ([u] ++ us). rewrite chunk_text_app.
  intros [-> | Hpc] Hc'.
  - exists c'. split; [apply in_or_app; now left|auto].
  - destruct (IH Hpc Hc') as (c0 & Hc0 & Ht & Hp).
    eexists. split.
    + apply in_or_app. right. unfold reindex.
      apply (in_map _ _ _ Hc0).
    + auto.
Qed.

(** X6.  The chunker drops no token: every token of a page's text is a
    token of some chunk tagged with that page. *)
Theorem chunk_text_keeps_every_token (text_content : list PageContent)
        (pc : PageContent) (w : str) :
  In pc text_content ->
  In w (split_ws (pc_text pc)) ->
  exists c,
    In c (chunk_text CHUNK_SIZE CHUNK_OVERLAP text_content)
    /\ page c = pc_page pc
    /\ In w (split_ws (text c)).
Proof.
  intros Hpc Hw.
  apply (chunk_text_single_complete pc) in Hw.
  unfold tokens_of_chunks in Hw. apply in_concat in Hw as (l & Hl & Hw).
  apply in_map_iff in Hl as (c' & <- & Hc').
  destruct (chunk_text_in_page _ _ _ Hpc Hc') as (c & Hc & Ht & Hp).
  exists c. split; [exact Hc|]. split.
  - rewrite Hp.
    pose proof (chunk_text_single_paged CHUNK_SIZE CHUNK_OVERLAP pc) as H.
    unfold paged in H. rewrite Forall_forall in H. now apply H.
  - now rewrite Ht.
Qed.

End ChunkComplete.

Lemma chunks_not_empty_and_stripped_witness :
  lit "hello world" <> []
  /\ split_ws (lit "hello world") <> []
  /\ strip (lit "hello world") = lit "hello world".
Proof.
  apply (chunks_not_empty_and_stripped 1000 200
           [{| pc_page := 1; pc_text := lit "  hello world " |}]
           {| text := lit "hello world"; page := 1; chunk_index := 0 |}).
  left. reflexivity.
Defined.

Lemma chunk_text_keeps_every_token_witness :
  exists c,
    In c (chunk_text 1000 200 [two_paragraphs; many_words])
    /\ page c = pc_page many_words
    /\ In (lit "tail") (split_ws (text c)).
Proof.
  apply (chunk_text_keeps_every_token 1000 200 [two_paragraphs; many_words]
           many_words (lit "tail")).
  - right. left. reflexivity.
  - vm_compute. auto 200.
Defined.

(** ** Text cleaning *)

Lemma sub_spaces_plain (x : str) :
  forall skip, Forall plain_space (sub_aux match_spaces SP skip x).
Proof.
  induction x as [|c x IH]; intros skip; [constructor|].
  cbn [sub_aux]. destruct skip as [|k]; [|apply IH].
  unfold match_spaces. cbn [span_len].
  destruct (is_space c) eqn:Ec.
  - cbn [Nat.ltb Nat.leb]. simpl app. constructor; [now intros _|apply IH].
  - cbn [Nat.ltb Nat.leb]. constructor; [|apply IH].
    intros H. congruence.
Qed.

(** Removing matches keeps what holds of every character. *)
Lemma sub_remove_Forall (P : ascii -> Prop) (m : str -> option nat)
      (x : str) :
  Forall P x -> forall skip, Forall P (sub_aux m [] skip x).
Proof.
  induction 1 as [|c x Hc _ IH]; intros skip; [constructor|].
  cbn [sub_aux]. destruct skip as [|k]; [|apply IH].
  destruct (m (c :: x)) as [[|n]|]; simpl app;
    [constructor; [exact Hc|apply IH] | apply IH
     | constructor; [exact Hc|apply IH]].
Qed.

Lemma plain_space_not_newline (c : ascii) :
  plain_space c -> (code c =? 10)%N = false.
Proof.
  intros H. destruct (code c =? 10)%N eqn:E; [|reflexivity].
  pose proof (H (newline_is_space c E)) as ->. discriminate E.
Qed.

(** Without a line feed there is nothing for the third substitution. *)
Lemma sub_blank_lines_id (x : str) :
  Forall plain_space x -> sub_aux match_blank_lines NLNL 0 x = x.
Proof.
  induction 1 as [|c x Hc _ IH]; [reflexivity|].
  cbn [sub_aux match_blank_lines].
  rewrite (plain_space_not_newline c Hc). now rewrite IH.
Qed.

Lemma Forall_lstrip (P : ascii -> Prop) (x : str) :
  Forall P x -> Forall P (lstrip x).
Proof.
  intros H. destruct (lstrip_spec x) as (sp & _ & E). rewrite E in H.
  now apply Forall_app in H as [_ H].
Qed.

Lemma Forall_strip (P : ascii -> Prop) (x : str) :
  Forall P x -> Forall P (strip x).
Proof.
  intros H. unfold strip.
  destruct (rstrip_spec (lstrip x)) as (sp & _ & E).
  apply Forall_lstrip in H. rewrite E in H.
  now apply Forall_app in H as [H _].
Qed.

Lemma split_nn_aux_plain (x : str) :
  Forall plain_space x ->
  forall acc, split_nn_aux acc x = [rev acc ++ x].
Proof.
  induction 1 as [|c x Hc Hx IH]; intros acc.
  - simpl. now rewrite app_nil_r.
  - destruct x as [|d x].
    + reflexivity.
    + rewrite split_nn_aux_step, (plain_space_not_newline c Hc).
      cbn [andb]. rewrite IH. simpl rev. now rewrite <- app_assoc.
Qed.

Lemma clean_text_eq (t : str) :
  clean_text t
  = strip (re_sub match_page_number [] (re_sub match_spaces SP t)).
Proof.
  unfold clean_text. cbv zeta. unfold re_sub at 1.
  rewrite sub_blank_lines_id; [reflexivity|].
  apply sub_remove_Forall, sub_spaces_plain.
Qed.

Lemma clean_text_plain (t : str) : Forall plain_space (clean_text t).
Proof.
  rewrite clean_text_eq.
  apply Forall_strip, sub_remove_Forall, sub_spaces_plain.
Qed.

Lemma clean_text_stripped (t : str) : strip (clean_text t) = clean_text t.
Proof. rewrite clean_text_eq. apply strip_idem. Qed.

Lemma clean_text_split_nn (t : str) : split_nn (clean_text t) = [clean_text t].
Proof.
  unfold split_nn. now rewrite (split_nn_aux_plain _ (clean_text_plain t)).
Qed.

(** X1.  In a cleaned text every space character is the plain space and
    neither end is a space; the third substitution of [_clean_text] (for
    blank lines) never finds a line feed to work on; and a cleaned text
    is a single paragraph for the chunker. *)
Theorem clean_text_single_paragraph (t : str) :
  Forall plain_space (clean_text t)
  /\ strip (clean_text t) = clean_text t
  /\ clean_text t
     = strip (re_sub match_page_number [] (re_sub match_spaces SP t))
  /\ split_nn (clean_text t) = [clean_text t].
Proof.
  split; [apply clean_text_plain|]. split; [apply clean_text_stripped|].
  split; [apply clean_text_eq|apply clean_text_split_nn].
Qed.

(** ** Extraction *)

Lemma kept_tables_rows (page : PdfPage) :
  Forall (fun table => 2 <= List.length table) (kept_tables page).
Proof.
  unfold kept_tables. destruct (extract_tables page) as [ts|]; [|constructor].
  apply Forall_forall. intros table H. apply filter_In in H as [_ H].
  apply andb_true_iff in H as [_ H]. apply Nat.ltb_lt in H. lia.
Qed.

Lemma kept_text_spec (page_num : nat) (page : PdfPage) (pc : PageContent) :
  In pc (kept_text page_num page) ->
  pc_page pc = Z.of_nat (page_num + 1)
  /\ pc_text pc <> []
  /\ exists t, extract_text page = Some t /\ pc_text pc = clean_text t.
Proof.
  unfold kept_text. destruct (extract_text page) as [t|]; [|intros []].
  destruct (truthy t); [|intros []].
  destruct (truthy (strip (clean_text t))) eqn:E; [|intros []].
  intros [<- | []]. cbn [pc_page pc_text]. split; [reflexivity|].
  split; [|now exists t].
  rewrite clean_text_stripped in E. now apply truthy_nonempty.
Qed.

Lemma pages_loop_app (pages : list PdfPage) :
  forall (page_num : nat) (acc : list Table * list PageContent),
    pages_loop page_num pages acc
    = (fst acc ++ fst (pages_loop page_num pages ([], [])),
       snd acc ++ snd (pages_loop page_num pages ([], []))).
Proof.
  induction pages as [|page pages IH]; intros page_num acc.
  - simpl. rewrite !app_nil_r. now destruct acc.
  - cbn [pages_loop]. rewrite IH. rewrite (IH _ ([] ++ _, [] ++ _)).
    cbn [fst snd app]. now rewrite !app_assoc.
Qed.

Lemma pages_loop_cons (page_num : nat) (page : PdfPage)
      (pages : list PdfPage) :
  pages_loop page_num (page :: pages) ([], [])
  = (kept_tables page ++ fst (pages_loop (S page_num) pages ([], [])),
     kept_text page_num page ++ snd (pages_loop (S page_num) pages ([], []))).
Proof. cbn [pages_loop]. now rewrite pages_loop_app. Qed.

(** The entries of the pages from [page_num] on: where each comes from. *)
Lemma pages_loop_text (pages : list PdfPage) :
  forall (page_num : nat) (pc : PageContent),
    In pc (snd (pages_loop page_num pages ([], []))) ->
    exists k page t,
      nth_error pages k = Some page
      /\ extract_text page = Some t
      /\ pc_page pc = Z.of_nat (page_num + k + 1)
      /\ pc_text pc = clean_text t
      /\ pc_text pc <> [].
Proof.
  induction pages as [|page pages IH]; intros page_num pc; [intros []|].
  rewrite pages_loop_cons. cbn [snd]. intros H.
  apply in_app_or in H as [H | H].
  - apply kept_text_spec in H as (Hp & Hne & t & Ht & Hc).
    exists 0, page, t. rewrite Nat.add_0_r. auto.
  - destruct (IH _ _ H) as (k & pg & t & Hk & Ht & Hp & Hc & Hne).
    exists (S k), pg, t. repeat split; auto.
    rewrite Hp. f_equal. lia.
Qed.

Lemma pages_loop_sorted (pages : list PdfPage) :
  forall page_num : nat,
    StronglySorted Z.lt
      (map pc_page (snd (pages_loop page_num pages ([], []))))
    /\ Forall (fun pc => (Z.of_nat page_num < pc_page pc)%Z)
              (snd (pages_loop page_num pages ([], []))).
Proof.
  induction pages as [|page pages IH]; intros page_num.
  - split; constructor.
  - rewrite pages_loop_cons. cbn [snd].
    destruct (IH (S page_num)) as [Hs Hb].
    assert (Hb' : Forall (fun pc => (Z.of_nat page_num < pc_page pc)%Z)
                    (snd (pages_loop (S page_num) pages ([], [])))).
    { eapply Forall_impl; [|exact Hb]. simpl. intros; lia. }
    unfold kept_text. destruct (extract_text page) as [t|]; [|now split].
    destruct (truthy t); [|now split].
    destruct (truthy (strip (clean_text t))); [|now split].
    cbn [app map]. split.
    + constructor; [exact Hs|]. apply Forall_map.
      eapply Forall_impl; [|exact Hb]. cbn [pc_page]. intros; lia.
    + constructor; [cbn [pc_page]; lia|exact Hb'].
Qed.

(** X2.  What [_extract_pdf_content] hands on: every table has at least
    two rows; every text entry is the cleaned, non-empty text of a page,
    tagged with the page's position counted from 1; the entries are in
    page order, at most one a page. *)
Theorem extract_pdf_pages_spec (pages : list PdfPage) :
  Forall (fun table => 2 <= List.length table) (fst (extract_pdf_pages pages))
  /\ (forall pc,
        In pc (snd (extract_pdf_pages pages)) ->
        exists k page t,
          nth_error pages k = Some page
          /\ extract_text page = Some t
          /\ pc_page pc = Z.of_nat (k + 1)
          /\ pc_text pc = clean_text t
          /\ pc_text pc <> [])
  /\ StronglySorted Z.lt (map pc_page (snd (extract_pdf_pages pages)))
  /\ List.length (snd (extract_pdf_pages pages)) <= List.length pages.
Proof.
  unfold extract_pdf_pages. split; [|split; [|split]].
  - assert (H : forall n,
               Forall (fun table => 2 <= List.length table)
                      (fst (pages_loop n pages ([], [])))); [|apply H].
    induction pages as [|page pages IH]; intros n.
    + constructor.
    + rewrite pages_loop_cons. cbn [fst]. apply Forall_app.
      split; [apply kept_tables_rows|apply IH].
  - intros pc H. apply pages_loop_text in H. exact H.
  - apply pages_loop_sorted.
  - assert (H : forall n,
               List.length (snd (pages_loop n pages ([], [])))
               <= List.length pages); [|apply H].
    induction pages as [|page pages IH]; intros n.
    + simpl. lia.
    + rewrite pages_loop_cons. cbn [snd]. rewrite length_app.
      specialize (IH (S n)). cbn [List.length].
      assert (List.length (kept_text n page) <= 1); [|lia].
      unfold kept_text. destruct (extract_text page); [|simpl; lia].
      destruct (truthy s); [|simpl; lia].
      destruct (truthy (strip (clean_text s))); simpl; lia.
Qed.

Section CleanedPages.

Variable CHUNK_SIZE CHUNK_OVERLAP : Z.

(** A page whose text is one stripped paragraph is chunked as a whole,
    or by sentences and words when it is too long. *)
Lemma chunk_text_one_paragraph (pg : Z) (x : str) :
  split_nn x = [x] -> strip x = x -> x <> [] ->
  chunk_text CHUNK_SIZE CHUNK_OVERLAP [{| pc_page := pg; pc_text := x |}]
  = if (len x >? CHUNK_SIZE)%Z
    then split_large_paragraph CHUNK_SIZE x pg 0
    else [{| text := x; page := pg; chunk_index := 0 |}].
Proof.
  intros Hnn Hs Hne. unfold chunk_text. cbn [fold_left]. unfold page_step.
  cbn [pc_page pc_text]. rewrite Hnn. cbn [fold_left].
  unfold paragraph_step. rewrite Hs.
  assert (Ht : truthy x = true) by now apply truthy_true_iff.
  rewrite Ht. cbn [negb truthy].
  change (len [] + len x)%Z with (len x).
  destruct (len x >? CHUNK_SIZE)%Z.
  - cbn [strip lstrip rstrip rev truthy fst]. now rewrite app_nil_l.
  - unfold join_with. cbn [truthy app]. rewrite Hs, Ht. reflexivity.
Qed.

(** X3.  Chunking what extraction hands on: a page's text is one
    paragraph, so the page becomes a single chunk, or, when longer than
    [CHUNK_SIZE], the chunks of [_split_large_paragraph]; paragraphs are
    never joined and no overlap is ever taken. *)
Theorem chunk_text_of_extracted_page (pages : list PdfPage)
        (pc : PageContent) :
  In pc (snd (extract_pdf_pages pages)) ->
  chunk_text CHUNK_SIZE CHUNK_OVERLAP [pc]
  = if (len (pc_text pc) >? CHUNK_SIZE)%Z
    then split_large_paragraph CHUNK_SIZE (pc_text pc) (pc_page pc) 0
    else [{| text := pc_text pc; page := pc_page pc; chunk_index := 0 |}].
Proof.
  intros H. apply pages_loop_text in H
    as (k & page & t & _ & _ & _ & Hc & Hne).
  destruct pc as [pg x]. cbn [pc_page pc_text] in *. subst x.
  apply chunk_text_one_paragraph;
    [apply clean_text_split_nn|apply clean_text_stripped|exact Hne].
Qed.

End CleanedPages.

Lemma chunk_text_of_extracted_page_witness :
  chunk_text 1000 200 [{| pc_page := 1; pc_text := lit "Hello world" |}]
  = [{| text := lit "Hello world"; page := 1; chunk_index := 0 |}].
Proof.
  apply (chunk_text_of_extracted_page 1000 200
           [{| extract_tables := None;
               extract_text := Some (lit " Hello   world  ") |}]
           {| pc_page := 1; pc_text := lit "Hello world" |}).
  left. reflexivity.
Defined.

(** ** Header row and columns *)

Lemma find_header_row_aux_spec (rows : Table) :
  forall i : nat,
    (exists k row,
        find_header_row_aux i rows = Some (i + k)
        /\ nth_error rows k = Some row
        /\ has_header_keyword row = true
        /\ forall j r, j < k -> nth_error rows j = Some r ->
                       has_header_keyword r = false)
    \/ (find_header_row_aux i rows = Some 0
        /\ Forall (fun r => has_header_keyword r = false) rows).
Proof.
  induction rows as [|row rows IH]; intros i.
  - right. split; [reflexivity|constructor].
  - cbn [find_header_row_aux]. fold (has_header_keyword row).
    destruct (has_header_keyword row) eqn:E.
    + left. exists 0, row. rewrite Nat.add_0_r.
      repeat split; auto. intros j r Hj. lia.
    + destruct (IH (S i)) as [(k & r & H1 & H2 & H3 & H4) | [H1 H2]].
      * left. exists (S k), r. rewrite Nat.add_succ_r.
        repeat split; auto.
        intros [|j] r' Hj Hr'; [now injection Hr' as <-|].
        apply (H4 j r'); [lia|exact Hr'].
      * right. split; [exact H1|]. now constructor.
Qed.

Lemma nth_error_firstn_Some {A} (n k : nat) (l : list A) (a : A) :
  nth_error (firstn n l) k = Some a -> k < n /\ nth_error l k = Some a.
Proof.
  revert k l. induction n as [|n IH]; intros k l H.
  - rewrite firstn_O in H. now destruct k.
  - destruct l as [|b l]; [now destruct k|].
    destruct k as [|k]; simpl in *; [split; [lia|exact H]|].
    apply IH in H as [H1 H2]. split; [lia|exact H2].
Qed.

(** The header row found, and where it lies. *)
Lemma find_header_row_found (table : Table) :
  exists idx,
    find_header_row table = Some idx
    /\ idx < 3
    /\ (table <> [] -> idx < List.length table)
    /\ ((exists row,
            nth_error table idx = Some row
            /\ has_header_keyword row = true
            /\ forall j r, j < idx -> nth_error table j = Some r ->
                           has_header_keyword r = false)
        \/ (idx = 0
            /\ Forall (fun r => has_header_keyword r = false)
                      (firstn 3 table))).
Proof.
  unfold find_header_row.
  destruct (find_header_row_aux_spec (firstn 3 table) 0)
    as [(k & row & H1 & H2 & H3 & H4) | [H1 H2]].
  - apply nth_error_firstn_Some in H2 as [Hk Hrow].
    exists k. simpl in H1. split; [exact H1|]. split; [exact Hk|].
    split; [intros _; apply nth_error_Some; congruence|].
    left. exists row. repeat split; auto.
    intros j r Hj Hr. apply (H4 j r Hj).
    rewrite nth_error_firstn.
    destruct (Nat.ltb_spec j 3); [exact Hr|lia].
  - exists 0. split; [exact H1|]. split; [lia|]. split.
    + destruct table; [congruence|simpl; lia].
    + right. auto.
Qed.

(** X11.  [_find_header_row] always answers, with an index below 3 that
    is a valid row index of a non-empty table: the first of the first
    three rows that holds a header keyword, or 0 when none does. *)
Theorem find_header_row_spec (table : Table) :
  exists idx,
    find_header_row table = Some idx
    /\ idx < 3
    /\ (table <> [] -> idx < List.length table)
    /\ ((exists row,
            nth_error table idx = Some row
            /\ has_header_keyword row = true
            /\ forall j r, j < idx -> nth_error table j = Some r ->
                           has_header_keyword r = false)
        \/ (idx = 0
            /\ Forall (fun r => has_header_keyword r = false)
                      (firstn 3 table))).
Proof. apply find_header_row_found. Qed.

Lemma find_column_aux_spec (possible_names : list str) (headers : list str) :
  forall i : nat,
    match find_column_aux i headers possible_names with
    | Some idx =>
        exists k header,
          idx = i + k
          /\ nth_error headers k = Some header
          /\ names_column possible_names header = true
          /\ forall j h, j < k -> nth_error headers j = Some h ->
                         names_column possible_names h = false
    | None => Forall (fun h => names_column possible_names h = false) headers
    end.
Proof.
  induction headers as [|header headers IH]; intros i.
  - constructor.
  - cbn [find_column_aux]. fold (names_column possible_names header).
    destruct (names_column possible_names header) eqn:E.
    + exists 0, header. rewrite Nat.add_0_r. repeat split; auto.
      intros j h Hj. lia.
    + specialize (IH (S i)).
      destruct (find_column_aux (S i) headers possible_names) as [idx|].
      * destruct IH as (k & h & -> & H2 & H3 & H4).
        exists (S k), h. rewrite Nat.add_succ_r. repeat split; auto.
        intros [|j] h' Hj Hh'; [now injection Hh' as <-|].
        apply (H4 j h'); [lia|exact Hh'].
      * now constructor.
Qed.

(** X12.  [_find_column] returns the index of the first header cell that
    contains one of the names, and [None] exactly when no cell does. *)
Theorem find_column_spec (headers possible_names : list str) :
  match find_column headers possible_names with
  | Some idx =>
      exists header,
        nth_error headers idx = Some header
        /\ names_column possible_names header = true
        /\ forall j h, j < idx -> nth_error headers j = Some h ->
                       names_column possible_names h = false
  | None => Forall (fun h => names_column possible_names h = false) headers
  end.
Proof.
  unfold find_column.
  pose proof (find_column_aux_spec possible_names headers 0) as H.
  destruct (find_column_aux 0 headers possible_names) as [idx|]; [|exact H].
  destruct H as (k & header & -> & H). now exists header.
Qed.

(** ** Classification: what is looked at *)

Lemma map_firstn {A B} (f : A -> B) (n : nat) (l : list A) :
  map f (firstn n l) = firstn n (map f l).
Proof.
  revert l. induction n as [|n IH]; intros [|a l]; simpl; auto.
  now rewrite IH.
Qed.

Lemma header_text_lower (table : Table) :
  header_text table
  = join SP (map (join SP) (firstn 3 (map (map lower) table))).
Proof.
  unfold header_text, row_text.
  now rewrite <- map_firstn, map_map.
Qed.

Lemma classify_table_header_text (t1 t2 : Table) :
  header_text t1 = header_text t2 ->
  classify_table t1 = classify_table t2.
Proof.
  intros H. unfold classify_table, max_score, capital_score,
    distribution_score, adjustment_score.
  destruct t1 as [|r1 t1], t2 as [|r2 t2]; try reflexivity.
  - rewrite <- H. reflexivity.
  - rewrite H. reflexivity.
  - now rewrite H.
Qed.

(** X16.  [_classify_table] looks at the first three rows only, and
    ignores the case of letters: tables that agree on these rows once
    lower-cased are classified alike. *)
Theorem classify_table_first_rows_lower (t1 t2 : Table) :
  firstn 3 (map (map lower) t1) = firstn 3 (map (map lower) t2) ->
  classify_table t1 = classify_table t2.
Proof.
  intros H. apply classify_table_header_text.
  now rewrite !header_text_lower, H.
Qed.

Lemma classify_table_first_rows_lower_witness :
  classify_table [[lit "CALL DATE"; lit "Amount"]; [lit "x"];
                  [lit "y"]; [lit "Distribution"; lit "payment"]]
  = classify_table [[lit "call date"; lit "amount"]; [lit "X"]; [lit "y"]].
Proof.
  apply classify_table_first_rows_lower. reflexivity.
Defined.

(** ** Amounts: sign *)

Lemma fix_sign (d r : Decimal) :
  Dec.fix_ d = Ok r -> d_sign r = d_sign d.
Proof.
  unfold Dec.fix_.
  destruct (d_coef d =? 0)%N; [intros H; now injection H as <-|].
  destruct (_ >? _)%Z; [discriminate|].
  destruct (_ <? _)%Z; [|intros H; now injection H as <-].
  destruct (if (_ >? _)%Z then _ else _) as [c' e'].
  destruct (_ >? _)%Z; [discriminate|].
  intros H; now injection H as <-.
Qed.

Lemma value_nonneg (d : Decimal) :
  Dec.ltb0 d = false -> (0 <= Dec.value d)%Q.
Proof.
  intros H. unfold Dec.value.
  apply Qmult_le_0_compat; [|apply Qpower_0_le; discriminate].
  unfold Dec.ltb0 in H. destruct (d_sign d); simpl in H.
  - apply negb_false_iff, N.eqb_eq in H. rewrite H. discriminate.
  - apply Qmult_le_0_compat; [discriminate|].
    unfold Qle, inject_Z. simpl. lia.
Qed.

(** X14.  Without [allow_negative], [_parse_amount] never returns a
    number below zero: what it returns is not [< 0] and its value is at
    least 0.  The sign bit can still be set, but only on a zero (["-0"]
    is not [< 0] and is returned as it is). *)
Theorem parse_amount_not_negative (x : str) (d : Decimal) :
  parse_amount x false = Ok (Some d) ->
  Dec.ltb0 d = false
  /\ (0 <= Dec.value d)%Q
  /\ (d_sign d = true -> d_coef d = 0%N).
Proof.
  intros H.
  assert (Hs : Dec.ltb0 d = false).
  { rewrite parse_amount_cleaned in H.
    destruct (filter amount_char x) as [|c cl]; [discriminate|].
    unfold convert_amount in H.
    destruct (Dec.of_str (c :: cl)) as [amount|e]; [|discriminate].
    cbn [negb andb] in H.
    destruct (Dec.ltb0 amount) eqn:E.
    - unfold Dec.abs in H.
      destruct (Dec.fix_ _) as [a|e] eqn:Ef; [|discriminate].
      injection H as <-. apply fix_sign in Ef. cbn [d_sign] in Ef.
      unfold Dec.ltb0. now rewrite Ef.
    - now injection H as <-. }
  split; [exact Hs|]. split; [now apply value_nonneg|].
  intros Hsign. unfold Dec.ltb0 in Hs. rewrite Hsign in Hs.
  now apply negb_false_iff, N.eqb_eq in Hs.
Qed.

Lemma parse_amount_not_negative_witness :
  Dec.ltb0 {| d_sign := true; d_coef := 0; d_exp := -1 |} = false
  /\ (0 <= Dec.value {| d_sign := true; d_coef := 0; d_exp := -1 |})%Q
  /\ (d_sign {| d_sign := true; d_coef := 0; d_exp := -1 |} = true ->
      d_coef {| d_sign := true; d_coef := 0; d_exp := -1 |} = 0%N).
Proof.
  apply (parse_amount_not_negative (lit "-$0.0")). reflexivity.
Defined.

(** ** Effects of table parsing *)

Lemma extends_ret (P : Call -> Prop) {A} (a : A) : extends P (ret a).
Proof. intros h. exists []. simpl. now rewrite app_nil_r. Qed.

Lemma extends_lift (P : Call -> Prop) {A} (o : outcome A) :
  extends P (lift o).
Proof. intros h. exists []. simpl. now rewrite app_nil_r. Qed.

Lemma extends_bind (P : Call -> Prop) {A B} (c : M A) (k : A -> M B) :
  extends P c -> (forall a, extends P (k a)) -> extends P (bind c k).
Proof.
  intros Hc Hk h. unfold bind. destruct (Hc h) as (evs & E & Hevs).
  destruct (c h) as [[a|e] h1]; simpl in E; subst h1.
  - destruct (Hk a (h ++ evs)) as (evs' & E' & Hevs').
    exists (evs ++ evs'). rewrite E', app_assoc. split; [reflexivity|].
    apply Forall_app. now split.
  - now exists evs.
Qed.

Lemma extends_try_except (P : Call -> Prop) {A} (c : M A)
      (handler : Exn -> M A) :
  extends P c -> (forall e, extends P (handler e)) ->
  extends P (try_except c handler).
Proof.
  intros Hc Hk h. unfold try_except. destruct (Hc h) as (evs & E & Hevs).
  destruct (c h) as [[a|e] h1]; simpl in E; subst h1.
  - now exists evs.
  - destruct (Hk e (h ++ evs)) as (evs' & E' & Hevs').
    exists (evs ++ evs'). rewrite E', app_assoc. split; [reflexivity|].
    apply Forall_app. now split.
Qed.

Lemma positive_amount (a : Decimal) :
  negb (Dec.nonzero a) || Dec.leb0 a = false -> positive a.
Proof.
  unfold Dec.nonzero, Dec.leb0, positive. intros H.
  apply orb_false_iff in H as [H1 H2]. apply orb_false_iff in H2 as [H2 H3].
  split; [exact H2|]. now apply N.eqb_neq.
Qed.

Section TableEffects.

Variable fails : History -> Call -> option Exn.
Variable fund_id : Z.

Lemma extends_call (P : Call -> Prop) (c : Call) :
  P c -> extends P (call fails c).
Proof.
  intros Hc h. exists [c]. unfold call. simpl. split; [reflexivity|].
  now constructor.
Qed.

Lemma extends_print (P : Call -> Prop) (line : str) :
  P (print line) -> extends P (do_print line).
Proof.
  intros Hc h. exists [print line]. unfold do_print. simpl.
  split; [reflexivity|]. now constructor.
Qed.

Lemma extends_type_label (P : Call -> Prop) (row : list str)
      (type_col : option nat) (default : str) :
  extends P (type_label row type_col default).
Proof.
  unfold type_label. destruct type_col as [tc|]; [|apply extends_ret].
  destruct (tc <? List.length row); [|apply extends_ret].
  apply extends_bind; [apply extends_lift|intros; apply extends_ret].
Qed.

Lemma extends_for_data_rows (P : Call -> Prop) (what : str) (min_len : nat)
      (body : list str -> M bool) :
  (forall line, P (print line)) ->
  (forall row, extends P (body row)) ->
  forall rows row_idx count,
    extends P (for_data_rows what min_len body row_idx rows count).
Proof.
  intros Hprint Hbody rows.
  induction rows as [|row rows IH]; intros row_idx count; cbn [for_data_rows].
  - apply extends_ret.
  - destruct (List.length row <=? min_len); [apply IH|].
    apply extends_bind; [|intros; apply IH].
    apply extends_try_except; [apply Hbody|].
    intros e. apply extends_bind; [now apply extends_print|].
    intros; apply extends_ret.
Qed.

Lemma extends_capital_call_row (date_col amount_col : nat)
      (type_col : option nat) (row : list str) :
  extends (table_call fund_id)
          (capital_call_row fails fund_id date_col amount_col type_col row).
Proof.
  unfold capital_call_row.
  apply extends_bind; [apply extends_lift|intros date_cell].
  apply extends_bind; [apply extends_lift|intros [call_date|]];
    [|apply extends_ret].
  apply extends_bind; [apply extends_lift|intros amount_cell].
  apply extends_bind; [apply extends_lift|intros [amount|]];
    [|apply extends_ret].
  destruct (negb (Dec.nonzero amount) || Dec.leb0 amount) eqn:E;
    [apply extends_ret|].
  apply extends_bind; [apply extends_type_label|intros call_type].
  apply extends_bind; [|intros; apply extends_ret].
  apply extends_call. split; [reflexivity|now apply positive_amount].
Qed.

Lemma extends_distribution_row (date_col amount_col : nat)
      (type_col recallable_col : option nat) (row : list str) :
  extends (table_call fund_id)
          (distribution_row fails fund_id date_col amount_col type_col
                            recallable_col row).
Proof.
  unfold distribution_row.
  apply extends_bind; [apply extends_lift|intros date_cell].
  apply extends_bind; [apply extends_lift|intros [distribution_date|]];
    [|apply extends_ret].
  apply extends_bind; [apply extends_lift|intros amount_cell].
  apply extends_bind; [apply extends_lift|intros [amount|]];
    [|apply extends_ret].
  destruct (negb (Dec.nonzero amount) || Dec.leb0 amount) eqn:E;
    [apply extends_ret|].
  apply extends_bind; [apply extends_type_label|intros dist_type].
  apply extends_bind.
  - destruct recallable_col as [rc|]; [|apply extends_ret].
    destruct (rc <? List.length row); [|apply extends_ret].
    apply extends_bind; [apply extends_lift|intros; apply extends_ret].
  - intros is_recallable.
    apply extends_bind; [|intros; apply extends_ret].
    apply extends_call. split; [reflexivity|now apply positive_amount].
Qed.

Lemma extends_adjustment_row (date_col amount_col : nat)
      (type_col : option nat) (row : list str) :
  extends (table_call fund_id)
          (adjustment_row fails fund_id date_col amount_col type_col row).
Proof.
  unfold adjustment_row.
  apply extends_bind; [apply extends_lift|intros date_cell].
  apply extends_bind; [apply extends_lift|intros [adjustment_date|]];
    [|apply extends_ret].
  apply extends_bind; [apply extends_lift|intros amount_cell].
  apply extends_bind; [apply extends_lift|intros [amount|]];
    [|apply extends_ret].
  apply extends_bind; [apply extends_type_label|intros adj_type].
  apply extends_bind; [|intros; apply extends_ret].
  apply extends_call. reflexivity.
Qed.

Ltac extends_extractor row_lemma :=
  match goal with
  | |- extends _ (match find_header_row ?t with _ => _ end) =>
      destruct (find_header_row t) as [header_idx|]; [|apply extends_ret]
  end;
  apply extends_bind; [apply extends_lift|intros header];
  repeat match goal with
         | |- extends _ (match ?c with _ => _ end) =>
             destruct c; try apply extends_ret
         end;
  apply extends_bind;
  [apply extends_for_data_rows; [now intros|intros; apply row_lemma]
  |intros count;
   apply extends_bind; [now apply extends_call|intros; apply extends_ret]].

Lemma extends_parse_one_table (table : Table) (stats : Stats) :
  extends (table_call fund_id) (parse_one_table fails table fund_id stats).
Proof.
  unfold parse_one_table.
  destruct (classify_table table) as [[| |]|]; [| | |apply extends_ret].
  - apply extends_bind; [|intros; apply extends_ret].
    unfold parse_capital_calls. extends_extractor extends_capital_call_row.
  - apply extends_bind; [|intros; apply extends_ret].
    unfold parse_distributions. extends_extractor extends_distribution_row.
  - apply extends_bind; [|intros; apply extends_ret].
    unfold parse_adjustments. extends_extractor extends_adjustment_row.
Qed.

Lemma extends_tables_loop (tables : list Table) :
  forall idx stats,
    extends (table_call fund_id) (tables_loop fails fund_id idx tables stats).
Proof.
  induction tables as [|table tables IH]; intros idx stats;
    cbn [tables_loop]; [apply extends_ret|].
  destruct (negb (nonempty table) || (List.length table <? 2)); [apply IH|].
  apply extends_bind; [|intros; apply IH].
  apply extends_try_except; [apply extends_parse_one_table|].
  intros; apply extends_ret.
Qed.

(** X13.  Whatever strings the cells hold and whatever fails,
    [parse_tables] only adds records of the fund it was given, commits
    and prints: a capital call or distribution it adds has a strictly
    positive amount, and it never closes the session nor calls anything
    else. *)
Theorem parse_tables_calls (tables : list Table) (h : History) :
  exists evs,
    snd (parse_tables fails tables fund_id h) = h ++ evs
    /\ Forall (table_call fund_id) evs.
Proof. apply extends_tables_loop. Qed.

(** *** When nothing can go wrong in a table *)

Lemma for_data_rows_ok (what : str) (min_len : nat)
      (body : list str -> M bool) (rows : Table) :
  forall row_idx count h,
    exists n h',
      for_data_rows what min_len body row_idx rows count h = (Ok n, h')
      /\ count <= n <= count + List.length rows.
Proof.
  induction rows as [|row rows IH]; intros row_idx count h;
    cbn [for_data_rows].
  - exists count, h. split; [reflexivity|simpl; lia].
  - destruct (List.length row <=? min_len).
    + destruct (IH (S row_idx) count h) as (n & h' & E & Hn).
      exists n, h'. split; [exact E|simpl; lia].
    + unfold bind, try_except, do_print, ret.
      destruct (body row h) as [[counted|e] h1].
      * destruct (IH (S row_idx) (if counted then S count else count) h1)
          as (n & h' & E & Hn).
        exists n, h'. split; [exact E|]. destruct counted; simpl; lia.
      * destruct (IH (S row_idx) count
                    (h1 ++ [print (lit "Error parsing " ++ what ++ lit " row "
                                   ++ str_of_nat row_idx ++ lit ": "
                                   ++ exn_msg e)]))
          as (n & h' & E & Hn).
        exists n, h'. split; [exact E|simpl; lia].
Qed.

Hypothesis commit_ok : forall h, fails h db_commit = None.

Lemma header_row_ok (table : Table) :
  table <> [] ->
  exists header_idx header,
    find_header_row table = Some header_idx
    /\ getitem table header_idx = Ok header
    /\ List.length (skipn (S header_idx) table) < List.length table.
Proof.
  intros Hne. destruct (find_header_row_found table)
    as (idx & E & _ & Hlt & _).
  specialize (Hlt Hne).
  destruct (nth_error table idx) as [header|] eqn:En.
  - exists idx, header. split; [exact E|]. unfold getitem. rewrite En.
    split; [reflexivity|]. rewrite length_skipn. lia.
  - apply nth_error_None in En. lia.
Qed.

Ltac extractor_ok :=
  match goal with
  | H : ?table <> [] |- _ =>
      let idx := fresh "idx" in
      let header := fresh "header" in
      let Ef := fresh "Ef" in
      let Eh := fresh "Eh" in
      let Hlen := fresh "Hlen" in
      destruct (header_row_ok table H) as (idx & header & Ef & Eh & Hlen);
      rewrite Ef; unfold bind at 1, lift at 1; rewrite Eh
  end;
  repeat match goal with
         | |- context [match ?c with Some _ => _ | None => _ end] =>
             destruct c; try (now eexists; eexists; split;
                              [reflexivity|simpl; lia])
         end;
  unfold bind, call, ret;
  match goal with
  | |- context [for_data_rows ?w ?m ?b ?i ?rows ?c ?h] =>
      let n := fresh "n" in
      let h' := fresh "h'" in
      let E := fresh "E" in
      let Hn := fresh "Hn" in
      destruct (for_data_rows_ok w m b rows i c h) as (n & h' & E & Hn);
      rewrite E
  end;
  rewrite commit_ok; eexists; eexists; split; [reflexivity|simpl in *; lia].

(** An extractor does not raise on a table that has a row, and counts
    fewer records than the table has rows. *)
Lemma parse_capital_calls_ok (table : Table) (h : History) :
  table <> [] ->
  exists n h',
    parse_capital_calls fails table fund_id h = (Ok n, h')
    /\ n < List.length table.
Proof. intros Hne. unfold parse_capital_calls. extractor_ok. Qed.

Lemma parse_distributions_ok (table : Table) (h : History) :
  table <> [] ->
  exists n h',
    parse_distributions fails table fund_id h = (Ok n, h')
    /\ n < List.length table.
Proof. intros Hne. unfold parse_distributions. extractor_ok. Qed.

Lemma parse_adjustments_ok (table : Table) (h : History) :
  table <> [] ->
  exists n h',
    parse_adjustments fails table fund_id h = (Ok n, h')
    /\ n < List.length table.
Proof. intros Hne. unfold parse_adjustments. extractor_ok. Qed.

End TableEffects.

(** ** Table parsing: errors *)

Section TableErrors.

Variable fails : History -> Call -> option Exn.
Variable fund_id : Z.

Lemma tables_loop_error_count (tables : list Table) :
  forall idx stats h,
    exists stats' h',
      tables_loop fails fund_id idx tables stats h = (Ok stats', h')
      /\ List.length (errors stats')
         <= List.length (errors stats)
            + List.length (filter (fun t => 2 <=? List.length t) tables).
Proof.
  induction tables as [|table tables IH]; intros idx stats h.
  - exists stats, h. split; [reflexivity|simpl; lia].
  - cbn [tables_loop].
    assert (Hf : List.length (filter (fun t => 2 <=? List.length t) tables)
                 <= List.length
                      (filter (fun t => 2 <=? List.length t) (table :: tables))).
    { cbn [filter]. destruct (2 <=? List.length table); cbn [List.length]; lia. }
    destruct (negb (nonempty table) || (List.length table <? 2)) eqn:E.
    + destruct (IH (S idx) stats h) as (s' & h' & E' & Hn).
      exists s', h'. split; [exact E'|lia].
    + apply orb_false_iff in E as [_ E]. apply Nat.ltb_ge in E.
      clear Hf.
      assert (Hf : S (List.length
                        (filter (fun t => 2 <=? List.length t) tables))
                   = List.length
                       (filter (fun t => 2 <=? List.length t)
                               (table :: tables))).
      { cbn [filter]. apply Nat.leb_le in E. now rewrite E. }
      rewrite <- Hf.
      unfold bind, try_except, ret.
      destruct (parse_one_table_stats fails fund_id table h)
        as (r & h1 & Hr).
      rewrite (Hr stats). destruct r as [c|e].
      * destruct (IH (S idx) (add_counts stats c) h1) as (s' & h' & E' & Hn).
        exists s', h'. split; [exact E'|].
        destruct c as [[? ?] ?]. simpl in *. lia.
      * destruct (IH (S idx) (add_error stats (table_error idx e)) h1)
          as (s' & h' & E' & Hn).
        exists s', h'. split; [exact E'|].
        simpl in *. rewrite length_app in Hn. simpl in *. lia.
Qed.

(** X9.  [parse_tables] never raises, whatever the session does: it
    returns its statistics, with at most one error entry for each table
    of two rows or more. *)
Theorem parse_tables_never_raises (tables : list Table) (h : History) :
  exists stats h',
    parse_tables fails tables fund_id h = (Ok stats, h')
    /\ List.length (errors stats)
       <= List.length (filter (fun t => 2 <=? List.length t) tables).
Proof.
  unfold parse_tables.
  destruct (tables_loop_error_count tables 0
              {| capital_calls := 0; distributions := 0; adjustments := 0;
                 errors := [] |} h) as (s' & h' & E & Hn).
  exists s', h'. split; [exact E|exact Hn].
Qed.

Hypothesis commit_ok : forall h, fails h db_commit = None.

Lemma nonempty_true {A} (l : list A) : negb (nonempty l) = false -> l <> [].
Proof. destruct l; [discriminate|discriminate]. Qed.

Lemma tables_loop_no_errors (tables : list Table) :
  forall idx stats h,
    exists stats' h',
      tables_loop fails fund_id idx tables stats h = (Ok stats', h')
      /\ errors stats' = errors stats.
Proof.
  induction tables as [|table tables IH]; intros idx stats h;
    cbn [tables_loop].
  - now exists stats, h.
  - destruct (negb (nonempty table) || (List.length table <? 2)) eqn:E;
      [apply IH|].
    apply orb_false_iff in E as [E _]. apply nonempty_true in E.
    assert (Hnext : forall s h1,
               errors s = errors stats ->
               exists stats' h',
                 tables_loop fails fund_id (S idx) tables s h1
                 = (Ok stats', h')
                 /\ errors stats' = errors stats).
    { intros s h1 Hs. destruct (IH (S idx) s h1) as (s' & h' & E' & He).
      exists s', h'. split; [exact E'|congruence]. }
    unfold bind, try_except, ret, parse_one_table.
    destruct (classify_table table) as [[| |]|]; unfold bind, ret.
    + destruct (parse_capital_calls_ok fails fund_id commit_ok table h E)
        as (n & h1 & -> & _).
      now apply Hnext.
    + destruct (parse_distributions_ok fails fund_id commit_ok table h E)
        as (n & h1 & -> & _).
      now apply Hnext.
    + destruct (parse_adjustments_ok fails fund_id commit_ok table h E)
        as (n & h1 & -> & _).
      now apply Hnext.
    + now apply Hnext.
Qed.

Lemma parse_tables_no_errors (tables : list Table) (h : History) :
  exists stats h',
    parse_tables fails tables fund_id h = (Ok stats, h')
    /\ errors stats = [].
Proof. unfold parse_tables. apply tables_loop_no_errors. Qed.

(** X10.  A table-level error can only come from [db.commit()]: when
    commits do not fail, [parse_tables] reports no error, whatever
    strings the cells hold and even if adding records fails. *)
Theorem parse_tables_errors_from_commit_only (tables : list Table)
        (h : History) :
  exists stats h',
    parse_tables fails tables fund_id h = (Ok stats, h')
    /\ errors stats = [].
Proof. apply parse_tables_no_errors. Qed.

End TableErrors.

Lemma parse_tables_errors_from_commit_only_witness :
  exists stats h',
    parse_tables (fun _ c => match c with
                             | db_add _ => Some {| exn_class := ValueError;
                                                   exn_msg := lit "bad" |}
                             | _ => None
                             end)
      [sample_table; [[lit "x"]; []]] 7 [] = (Ok stats, h')
    /\ errors stats = [].
Proof.
  apply parse_tables_errors_from_commit_only. intros h. reflexivity.
Defined.

(** ** Indexing the chunks *)

Section Indexing.

Variable fails : History -> Call -> option Exn.
Variable document_id fund_id : Z.

(** The storing loop: what it calls and what it counts. *)
Lemma store_chunks_counts (chunks : list Chunk) :
  forall (n : nat) (h : History),
    exists n' evs,
      store_chunks fails document_id fund_id chunks n h = (Ok n', h ++ evs)
      /\ filter is_add_document evs
         = map (submission document_id fund_id) chunks
      /\ n' + List.length (filter is_print evs) = n + List.length chunks
      /\ Forall (fun c => is_add_document c = true \/ is_print c = true) evs.
Proof.
  induction chunks as [|c chunks IH]; intros n h; cbn [store_chunks].
  - exists n, []. rewrite app_nil_r. repeat split; auto.
  - unfold bind, try_except, call, do_print, ret.
    fold (submission document_id fund_id c).
    destruct (fails h (submission document_id fund_id c)) as [e|].
    + destruct (IH n ((h ++ [submission document_id fund_id c])
                        ++ [print (lit "Error storing chunk: " ++ exn_msg e)]))
        as (n' & evs & E & Hs & Hn & Hk).
      exists n', (submission document_id fund_id c
                  :: print (lit "Error storing chunk: " ++ exn_msg e) :: evs).
      rewrite E. rewrite <- !app_assoc. cbn [app filter is_add_document
        is_print map List.length submission].
      split; [reflexivity|]. split; [now rewrite Hs|].
      split; [cbn [List.length]; lia|].
      constructor; [now left|]. constructor; [now right|exact Hk].
    + destruct (IH (S n) (h ++ [submission document_id fund_id c]))
        as (n' & evs & E & Hs & Hn & Hk).
      exists n', (submission document_id fund_id c :: evs).
      rewrite E. rewrite <- !app_assoc. cbn [app filter is_add_document
        is_print map List.length submission].
      split; [reflexivity|]. split; [now rewrite Hs|].
      split; [lia|]. constructor; [now left|exact Hk].
Qed.

(** X8.  [process_document] submits every chunk, once and in order,
    whether or not earlier submissions failed; each chunk is either
    counted or reported by a printed line, so the count is the number
    of chunks when no submission fails. *)
Theorem store_chunks_submits_every_chunk (chunks : list Chunk) :
  forall (n : nat) (h : History),
    exists n' evs,
      store_chunks fails document_id fund_id chunks n h = (Ok n', h ++ evs)
      /\ filter is_add_document evs
         = map (submission document_id fund_id) chunks
      /\ n' + List.length (filter is_print evs) = n + List.length chunks
      /\ Forall (fun c => is_add_document c = true \/ is_print c = true) evs.
Proof. apply store_chunks_counts. Qed.

Lemma store_chunks_all_stored (chunks : list Chunk) :
  (forall h c m, fails h (add_document c m) = None) ->
  forall (n : nat) (h : History),
    store_chunks fails document_id fund_id chunks n h
    = (Ok (n + List.length chunks),
       h ++ map (submission document_id fund_id) chunks).
Proof.
  intros Hok. induction chunks as [|c chunks IH]; intros n h;
    cbn [store_chunks].
  - simpl. now rewrite Nat.add_0_r, app_nil_r.
  - unfold bind, try_except, call, ret. rewrite Hok, IH.
    cbn [map List.length]. rewrite <- app_assoc. cbn [app].
    now rewrite Nat.add_succ_r.
Qed.

End Indexing.

(** ** The pipeline when the session and the extraction work *)

Section PipelineSuccess.

Variable fails : History -> Call -> option Exn.
Variable pdf_content : History -> str -> list Table * list PageContent.
Variable CHUNK_SIZE CHUNK_OVERLAP : Z.

(** X17.  When [SessionLocal()], the extraction and [db.close()] do not
    raise, [process_document] returns a completed result, whatever
    [db.add], [db.commit] and [add_document] do.  Its statistics are the
    numbers of pages and tables extracted, the counts and the error list
    that [parse_tables] returned, and the number of chunks whose
    submission did not raise; the calls are, in order: open the session,
    extract, the calls of table parsing, the submissions of the chunks
    with a printed line after each one that raised, close the session.
    When no submission raises, every chunk is counted. *)
Theorem process_document_success (file_path : str) (document_id fund_id : Z)
        (h : History) (tables : list Table)
        (text_content : list PageContent) :
  fails h SessionLocal = None ->
  fails (h ++ [SessionLocal]) (extract_pdf_content file_path) = None ->
  (forall h', fails h' db_close = None) ->
  pdf_content (h ++ [SessionLocal]) file_path = (tables, text_content) ->
  exists stats hp n evs,
    parse_tables fails tables fund_id
      ((h ++ [SessionLocal]) ++ [extract_pdf_content file_path])
    = (Ok stats, hp)
    /\ store_chunks fails document_id fund_id
         (chunk_text CHUNK_SIZE CHUNK_OVERLAP text_content) 0 hp
       = (Ok n, hp ++ evs)
    /\ filter is_add_document evs
       = map (submission document_id fund_id)
             (chunk_text CHUNK_SIZE CHUNK_OVERLAP text_content)
    /\ n + List.length (filter is_print evs)
       = List.length (chunk_text CHUNK_SIZE CHUNK_OVERLAP text_content)
    /\ process_document fails pdf_content CHUNK_SIZE CHUNK_OVERLAP
         file_path document_id fund_id h
       = (Ok (completed
                {| pages_processed := List.length text_content;
                   tables_found := List.length tables;
                   st_capital_calls := capital_calls stats;
                   st_distributions := distributions stats;
                   st_adjustments := adjustments stats;
                   text_chunks := n;
                   st_errors := errors stats |}),
          (hp ++ evs) ++ [db_close])
    /\ ((forall h' c m, fails h' (add_document c m) = None) ->
        n = List.length (chunk_text CHUNK_SIZE CHUNK_OVERLAP text_content)
        /\ evs = map (submission document_id fund_id)
                     (chunk_text CHUNK_SIZE CHUNK_OVERLAP text_content)).
Proof.
  intros Hopen Hext Hclose Hpdf.
  destruct (tables_loop_ok fails fund_id tables 0
              {| capital_calls := 0; distributions := 0; adjustments := 0;
                 errors := [] |}
              ((h ++ [SessionLocal]) ++ [extract_pdf_content file_path]))
    as (es & stats & hp & Ep & _).
  destruct (store_chunks_counts fails document_id fund_id
              (chunk_text CHUNK_SIZE CHUNK_OVERLAP text_content) 0 hp)
    as (n & evs & Es & Hsub & Hn & _).
  exists stats, hp, n, evs.
  split; [exact Ep|]. split; [exact Es|]. split; [exact Hsub|].
  split; [exact Hn|]. split.
  - unfold process_document, process_document_body, bind, try_finally,
      try_except, do_extract, ret.
    unfold call at 1. rewrite Hopen, Hext, Hpdf.
    unfold parse_tables in Ep |- *. rewrite Ep, Es.
    unfold call. now rewrite Hclose.
  - intros Hadd.
    rewrite (store_chunks_all_stored fails document_id fund_id _ Hadd) in Es.
    injection Es as <- Eh. apply app_inv_head in Eh. now split.
Qed.

End PipelineSuccess.

Lemma process_document_success_witness :
  exists stats hp n evs,
    parse_tables commit_fails [sample_table] 7
      (([] ++ [SessionLocal]) ++ [extract_pdf_content (lit "report.pdf")])
    = (Ok stats, hp)
    /\ store_chunks commit_fails 1 7
         (chunk_text 1000 200
            [{| pc_page := 1; pc_text := lit "hello world" |}]) 0 hp
       = (Ok n, hp ++ evs)
    /\ filter is_add_document evs
       = map (submission 1 7)
             (chunk_text 1000 200
                [{| pc_page := 1; pc_text := lit "hello world" |}])
    /\ n + List.length (filter is_print evs)
       = List.length
           (chunk_text 1000 200
              [{| pc_page := 1; pc_text := lit "hello world" |}])
    /\ process_document commit_fails one_page 1000 200
         (lit "report.pdf") 1 7 []
       = (Ok (completed
                {| pages_processed := 1;
                   tables_found := 1;
                   st_capital_calls := capital_calls stats;
                   st_distributions := distributions stats;
                   st_adjustments := adjustments stats;
                   text_chunks := n;
                   st_errors := errors stats |}),
          (hp ++ evs) ++ [db_close])
    /\ ((forall h' c m, commit_fails h' (add_document c m) = None) ->
        n = List.length
              (chunk_text 1000 200
                 [{| pc_page := 1; pc_text := lit "hello world" |}])
        /\ evs = map (submission 1 7)
                     (chunk_text 1000 200
                        [{| pc_page := 1; pc_text := lit "hello world" |}])).
Proof.
  apply (process_document_success commit_fails one_page 1000 200
           (lit "report.pdf") 1 7 [] [sample_table]
           [{| pc_page := 1; pc_text := lit "hello world" |}]).
  - reflexivity.
  - reflexivity.
  - intros h'. reflexivity.
  - reflexivity.
Defined.

(** ** Slash dates *)

Lemma rstrip_nonspace (x : str) :
  forallb (fun c => negb (is_space c)) x = true -> rstrip x = x.
Proof.
  induction x as [|c x IH]; [reflexivity|]. simpl forallb.
  intros H. apply andb_true_iff in H as [Hc Hx].
  rewrite rstrip_cons, (IH Hx). apply negb_true_iff in Hc.
  rewrite Hc. now destruct x.
Qed.

Lemma strip_nonspace (x : str) :
  forallb (fun c => negb (is_space c)) x = true -> strip x = x.
Proof.
  intros H. unfold strip.
  assert (E : lstrip x = x).
  { destruct x as [|c x]; [reflexivity|]. simpl in *.
    apply andb_true_iff in H as [Hc _]. apply negb_true_iff in Hc.
    now rewrite Hc. }
  rewrite E. now apply rstrip_nonspace.
Qed.

Lemma digit_not_space (c : ascii) : is_digit c = true -> is_space c = false.
Proof. destruct c as [[] [] [] [] [] [] [] []]; vm_compute; congruence. Qed.

Lemma digit_val_small (c : ascii) :
  is_digit c = true -> (digit_val c <= 9)%N.
Proof. destruct c as [[] [] [] [] [] [] [] []]; vm_compute; congruence. Qed.

(** Four digits are read as a year of at most 9999. *)
Lemma alts_Y_digits (ys : str) :
  List.length ys = 4 -> forallb is_digit ys = true ->
  Strptime.alts_Y ys = [(Strptime.num ys, [])]
  /\ (0 <= Strptime.num ys <= 9999)%Z.
Proof.
  intros Hl Hd.
  destruct ys as [|c1 [|c2 [|c3 [|c4 [|]]]]]; try discriminate Hl.
  simpl in Hd. repeat (apply andb_true_iff in Hd as [? Hd]).
  split.
  - unfold Strptime.alts_Y.
    repeat match goal with H : is_digit _ = true |- _ => rewrite H; clear H end.
    reflexivity.
  - unfold Strptime.num, Dec.digits_val. cbn [fold_left].
    repeat match goal with
           | H : is_digit _ = true |- _ => apply digit_val_small in H
           end.
    lia.
Qed.

Lemma matches_app (ds1 ds2 : list Strptime.directive) :
  forall (fs : Strptime.fields) (x : str),
    Strptime.matches (ds1 ++ ds2) fs x
    = flat_map (fun '(fs', r) => Strptime.matches ds2 fs' r)
               (Strptime.matches ds1 fs x).
Proof.
  induction ds1 as [|d ds1 IH]; intros fs x.
  - simpl. now rewrite app_nil_r.
  - cbn [app Strptime.matches].
    induction (Strptime.alts d fs x) as [|[fs' r] l IHl]; [reflexivity|].
    cbn [flat_map]. rewrite IH, IHl, flat_map_app. reflexivity.
Qed.

(** A format that ends in [%Y], on an input whose last four characters
    are digits and whose start matches the rest of the format in one
    way. *)
Lemma strptime_year_last (fmt pre ys : str) (ds : list Strptime.directive)
      (fs : Strptime.fields) :
  Strptime.compile fmt = ds ++ [Strptime.D_Y] ->
  Strptime.has_bad ds = false ->
  Strptime.matches ds {| Strptime.f_Y := 1900; Strptime.f_m := 1;
                         Strptime.f_d := 1 |} (pre ++ ys)
  = [(fs, ys)] ->
  List.length ys = 4 -> forallb is_digit ys = true ->
  valid_fields (Strptime.set_Y (Strptime.num ys) fs) = true ->
  Strptime.strptime (pre ++ ys) fmt
  = Ok {| year := Strptime.num ys; month := Strptime.f_m fs;
          day := Strptime.f_d fs |}.
Proof.
  intros Hc Hb Hm Hl Hd Hv. unfold Strptime.strptime.
  rewrite Hc. unfold Strptime.has_bad in *. rewrite existsb_app, Hb.
  cbn [existsb orb]. rewrite matches_app, Hm.
  cbn [flat_map Strptime.matches Strptime.alts app].
  rewrite (proj1 (alts_Y_digits ys Hl Hd)).
  cbn [map flat_map Strptime.matches app truthy].
  unfold valid_fields in Hv. now rewrite Hv.
Qed.

Lemma valid_fields_intro (y m d : Z) :
  (1 <= y <= 9999)%Z -> (1 <= m <= 12)%Z ->
  (1 <= d <= Strptime.days_in_month y m)%Z ->
  valid_fields {| Strptime.f_Y := y; Strptime.f_m := m;
                  Strptime.f_d := d |} = true.
Proof.
  intros Hy Hm Hd. unfold valid_fields. cbn.
  repeat (apply andb_true_iff; split); apply Z.leb_le; lia.
Qed.

Lemma days_in_month_28 (y m : Z) : (28 <= Strptime.days_in_month y m)%Z.
Proof.
  unfold Strptime.days_in_month.
  destruct (m =? 2)%Z; [destruct (Strptime.is_leap y); lia|].
  destruct (_ || _); lia.
Qed.

Lemma parse_date_from (x : str) (pre : list str) (fmt : str)
      (post : list str) (d : DateTime) :
  forallb (fun c => negb (is_space c)) x = true -> x <> [] ->
  date_formats = pre ++ fmt :: post ->
  Forall (fun f => exists e, Strptime.strptime x f = Raise e) pre ->
  Strptime.strptime x fmt = Ok d ->
  parse_date x = Ok (Some d).
Proof.
  intros Hns Hne Hf Hpre Hd.
  rewrite parse_date_nonblank by (rewrite (strip_nonspace _ Hns); exact Hne).
  rewrite (strip_nonspace _ Hns). apply try_formats_Some.
  exists pre, fmt, post. split; [exact Hf|]. split; [exact Hd|].
  now apply Forall_forall.
Qed.

Ltac slash_case before fmt :=
  lazymatch goal with
  | Hl : List.length ?ys = 4, Hd : forallb is_digit ?ys = true
    |- parse_date (?p1 ++ ?s1 ++ ?p2 ++ ?s2 ++ ?ys) = _ =>
      let pre := eval vm_compute in (p1 ++ s1 ++ p2 ++ s2) in
      let ds := eval vm_compute in (removelast (Strptime.compile fmt)) in
      let r := eval vm_compute in
        (Strptime.matches ds {| Strptime.f_Y := 1900; Strptime.f_m := 1;
                                Strptime.f_d := 1 |} (pre ++ ys)) in
      change (p1 ++ s1 ++ p2 ++ s2 ++ ys) with (pre ++ ys);
      eapply (parse_date_from _ before fmt);
      [ rewrite forallb_app; apply andb_true_iff; split;
        [ vm_compute; reflexivity
        | rewrite forallb_forall in Hd |- *;
          let c := fresh "c" in
          let Hc := fresh "Hc" in
          intros c Hc; rewrite (digit_not_space c (Hd c Hc)); reflexivity ]
      | discriminate
      | reflexivity
      | repeat constructor; eexists; vm_compute; reflexivity
      | lazymatch r with
        | [(?fs, _)] =>
            apply (strptime_year_last fmt pre ys ds fs);
            [ vm_compute; reflexivity | vm_compute; reflexivity
            | vm_compute; reflexivity | exact Hl | exact Hd | ]
        end ]
  end.

(** X15.  A date written as two two-digit numbers and a four-digit year,
    separated by slashes, is read month first whenever both numbers are
    at most 12 (the US pattern comes before the EU one); it is read day
    first when the first number is above 12 and is a day of the month
    the second number names. *)
Theorem slash_dates_month_first (a b : nat) (ys : str) :
  List.length ys = 4 -> forallb is_digit ys = true ->
  (1 <= Strptime.num ys)%Z ->
  1 <= b <= 12 ->
  (1 <= a <= 12 ->
   parse_date (two_digits a ++ lit "/" ++ two_digits b ++ lit "/" ++ ys)
   = Ok (Some {| year := Strptime.num ys; month := Z.of_nat a;
                 day := Z.of_nat b |}))
  /\ (13 <= a <= 31 ->
      (Z.of_nat a
       <= Strptime.days_in_month (Strptime.num ys) (Z.of_nat b))%Z ->
      parse_date (two_digits a ++ lit "/" ++ two_digits b ++ lit "/" ++ ys)
      = Ok (Some {| year := Strptime.num ys; month := Z.of_nat b;
                    day := Z.of_nat a |})).
Proof.
  intros Hl Hd Hy Hb.
  pose proof (proj2 (alts_Y_digits ys Hl Hd)) as Hy9.
  assert (Eb : In b (seq 1 12)) by (apply in_seq; lia).
  clear Hb. split.
  - intros Ha.
    assert (Ea : In a (seq 1 12)) by (apply in_seq; lia).
    clear Ha. cbn [seq In] in Ea, Eb.
    repeat (destruct Ea as [<-|Ea]; [|try contradiction]);
    repeat (destruct Eb as [<-|Eb]; [|try contradiction]).
    all: slash_case [lit "%Y-%m-%d"] (lit "%m/%d/%Y").
    all: apply valid_fields_intro;
      cbn [Strptime.f_Y Strptime.f_m Strptime.f_d]; [lia|lia|].
    all: match goal with
         | |- (_ <= _ <= Strptime.days_in_month ?y ?m)%Z =>
             pose proof (days_in_month_28 y m); lia
         end.
  - intros Ha Hday.
    assert (Ea : In a (seq 13 19)) by (apply in_seq; lia).
    clear Ha. cbn [seq In] in Ea, Eb.
    repeat (destruct Ea as [<-|Ea]; [|try contradiction]);
    repeat (destruct Eb as [<-|Eb]; [|try contradiction]).
    all: cbn [Z.of_nat Pos.of_succ_nat Pos.succ] in Hday.
    all: slash_case [lit "%Y-%m-%d"; lit "%m/%d/%Y"] (lit "%d/%m/%Y").
    all: apply valid_fields_intro;
      cbn [Strptime.f_Y Strptime.f_m Strptime.f_d]; lia.
Qed.

Lemma slash_dates_month_first_witness :
  parse_date (lit "03/04/2024")
  = Ok (Some {| year := 2024; month := 3; day := 4 |})
  /\ parse_date (lit "25/12/2023")
     = Ok (Some {| year := 2023; month := 12; day := 25 |}).
Proof.
  split.
  - apply (proj1 (slash_dates_month_first 3 4 (lit "2024") eq_refl eq_refl
                    ltac:(vm_compute; discriminate) ltac:(lia))).
    lia.
  - apply (proj2 (slash_dates_month_first 25 12 (lit "2023") eq_refl eq_refl
                    ltac:(vm_compute; discriminate) ltac:(lia))).
    + lia.
    + vm_compute. discriminate.
Defined.

(** ** Table parsing: what is counted *)

Lemma parse_date_returns (x : str) : exists r, parse_date x = Ok r.
Proof.
  unfold parse_date. destruct (_ || _); [now eexists|].
  induction date_formats as [|f fs IH]; [now eexists|].
  cbn [try_formats].
  destruct (Strptime.strptime (strip x) f) as [d|e] eqn:E; [now eexists|].
  now rewrite (strptime_raises_ValueError _ _ _ E).
Qed.

Lemma parse_amount_returns (x : str) (allow_negative : bool) :
  exists r, parse_amount x allow_negative = Ok r.
Proof.
  unfold parse_amount. destruct (_ || _); [now eexists|].
  destruct (negb _); [now eexists|].
  destruct (convert_amount _ _); now eexists.
Qed.

Lemma getitem_in_range {A} (xs : list A) (i : nat) :
  i < List.length xs -> exists a, getitem xs i = Ok a.
Proof.
  intros H. unfold getitem.
  destruct (nth_error xs i) eqn:E; [now eexists|].
  apply nth_error_None in E. lia.
Qed.

Lemma type_label_returns (row : list str) (type_col : option nat)
      (default : str) (h : History) :
  exists label, type_label row type_col default h = (Ok label, h).
Proof.
  unfold type_label. destruct type_col as [tc|]; [|now eexists].
  destruct (Nat.ltb_spec tc (List.length row)); [|now eexists].
  destruct (getitem_in_range row tc) as [cell E]; [assumption|].
  unfold bind, lift, ret. rewrite E. now eexists.
Qed.

Section Counting.

Variable fails : History -> Call -> option Exn.
Variable fund_id : Z.

Lemma add_then_true (t : Transaction) (h : History) :
  (call fails (db_add t) ;;; ret true) h
  = (match fails h (db_add t) with
     | Some e => Raise e
     | None => Ok true
     end, h ++ [db_add t]).
Proof. unfold bind, call, ret. now destruct (fails h (db_add t)). Qed.

Ltac row_cells :=
  unfold bind, lift, ret, call; cbv beta iota;
  repeat (match goal with
          | |- context [getitem ?row ?i] =>
              let cell := fresh "cell" in
              let E := fresh "E" in
              destruct (getitem_in_range row i) as [cell E]; [lia|];
              rewrite E; clear E
          | |- context [parse_date ?x] =>
              let r := fresh "r" in
              let E := fresh "E" in
              destruct (parse_date_returns x) as [r E]; rewrite E; clear E;
              destruct r; [|now left]
          | |- context [parse_amount ?x ?b] =>
              let r := fresh "r" in
              let E := fresh "E" in
              destruct (parse_amount_returns x b) as [r E]; rewrite E; clear E;
              destruct r; [|now left]
          | |- context [type_label ?row ?tc ?d ?h] =>
              let l := fresh "label" in
              let E := fresh "E" in
              destruct (type_label_returns row tc d h) as [l E];
              rewrite E; clear E
          | |- context [if negb (Dec.nonzero ?a) || Dec.leb0 ?a
                        then _ else _] =>
              destruct (negb (Dec.nonzero a) || Dec.leb0 a); [now left|]
          end; cbv beta iota);
  right;
  match goal with
  | |- context [fails ?h (db_add ?t)] =>
      exists t; destruct (fails h (db_add t)); reflexivity
  end.

Lemma capital_call_row_one_add (date_col amount_col : nat)
      (type_col : option nat) (row : list str) (h : History) :
  Nat.max date_col amount_col < List.length row ->
  one_add fails (capital_call_row fails fund_id date_col amount_col type_col)
          row h.
Proof. intros Hlen. unfold one_add, capital_call_row. row_cells. Qed.

Lemma distribution_row_one_add (date_col amount_col : nat)
      (type_col recallable_col : option nat) (row : list str) (h : History) :
  Nat.max date_col amount_col < List.length row ->
  one_add fails (distribution_row fails fund_id date_col amount_col type_col
                            recallable_col)
          row h.
Proof.
  intros Hlen. unfold one_add, distribution_row.
  destruct recallable_col as [rc|];
    [destruct (Nat.ltb_spec rc (List.length row))|]; row_cells.
Qed.

Lemma adjustment_row_one_add (date_col amount_col : nat)
      (type_col : option nat) (row : list str) (h : History) :
  Nat.max date_col amount_col < List.length row ->
  one_add fails (adjustment_row fails fund_id date_col amount_col type_col)
          row h.
Proof. intros Hlen. unfold one_add, adjustment_row. row_cells. Qed.

Lemma accounted_nil : accounted fails 0 [].
Proof. split; reflexivity. Qed.

Lemma accounted_add (n : nat) (t : Transaction) (evs : list Call) :
  accounted fails (S n) (db_add t :: evs) <-> accounted fails n evs.
Proof. unfold accounted. simpl. split; intros [H1 H2]; (split; [lia|auto]). Qed.

Lemma accounted_commit (n : nat) (evs : list Call) :
  accounted fails n evs -> accounted fails n (evs ++ [db_commit]).
Proof.
  unfold accounted. rewrite !filter_app. simpl. rewrite !app_nil_r. auto.
Qed.

Lemma for_data_rows_counts (what : str) (min_len : nat)
      (body : list str -> M bool) (rows : Table) :
  (forall row h, min_len < List.length row -> one_add fails body row h) ->
  forall row_idx count h,
    exists n evs,
      for_data_rows what min_len body row_idx rows count h
      = (Ok (count + n), h ++ evs)
      /\ accounted fails n evs.
Proof.
  intros Hbody. induction rows as [|row rows IH]; intros row_idx count h;
    cbn [for_data_rows].
  - exists 0, []. rewrite Nat.add_0_r, app_nil_r.
    split; [reflexivity|apply accounted_nil].
  - destruct (Nat.leb_spec (List.length row) min_len) as [Hle|Hlt];
      [apply IH|].
    unfold bind, try_except, do_print, ret.
    destruct (Hbody row h Hlt) as [E | [t E]]; rewrite E; [apply IH|].
    destruct (fails h (db_add t)) as [e|] eqn:Ef.
    + match goal with
      | |- context [for_data_rows _ _ _ _ _ _ ?h1] =>
          destruct (IH (S row_idx) count h1) as (n & evs & E1 & H1 & H2)
      end.
      rewrite E1. eexists n, (db_add t :: print _ :: evs).
      split; [now rewrite <- !app_assoc|].
      split; [simpl; lia|].
      intros Hall. now rewrite Hall in Ef.
    + destruct (IH (S row_idx) (S count) (h ++ [db_add t]))
        as (n & evs & E1 & Hacc).
      rewrite E1. exists (S n), (db_add t :: evs).
      split; [rewrite <- app_assoc; do 2 f_equal; simpl; lia|].
      now apply accounted_add.
Qed.

Ltac extractor_accounted_tac :=
  match goal with
  | H : ?table <> [] |- _ =>
      let idx := fresh "idx" in
      let header := fresh "header" in
      let Ef := fresh "Ef" in
      let Eh := fresh "Eh" in
      destruct (header_row_ok table H) as (idx & header & Ef & Eh & _);
      rewrite Ef; unfold bind at 1, lift at 1; rewrite Eh
  end;
  repeat match goal with
         | |- context [match ?c with Some _ => _ | None => _ end] =>
             destruct c;
             try (now exists 0, [], (Ok 0); rewrite app_nil_r;
                  split; [reflexivity|split; [apply accounted_nil|left]])
         end;
  unfold bind, call, ret;
  match goal with
  | |- context [for_data_rows ?w ?m ?b ?i ?rows ?c ?h] =>
      let n := fresh "n" in
      let evs := fresh "evs" in
      let E := fresh "E" in
      let Hacc := fresh "Hacc" in
      let Hb := fresh "Hb" in
      let Ec := fresh "Ec" in
      let e := fresh "e" in
      let Hall := fresh "Hall" in
      assert (Hb : forall row h0,
                 m < List.length row -> one_add fails b row h0)
        by (intros;
            first [apply capital_call_row_one_add
                  |apply distribution_row_one_add
                  |apply adjustment_row_one_add]; assumption);
      destruct (for_data_rows_counts w m b rows Hb i c h)
        as (n & evs & E & Hacc);
      rewrite E; cbn [Nat.add];
      destruct (fails (h ++ evs) db_commit) as [e|] eqn:Ec;
      [ exists n, (evs ++ [db_commit]), (Raise e)
      | exists n, (evs ++ [db_commit]), (Ok n) ];
      (split; [now rewrite app_assoc|]);
      (split; [now apply accounted_commit|]);
      [ right; split; [now exists e|];
        intros Hall; rewrite Hall in Ec; discriminate
      | now left ]
  end.

Lemma parse_capital_calls_accounted (table : Table) (h : History) :
  table <> [] ->
  extractor_accounted fails (parse_capital_calls fails table fund_id) h.
Proof.
  intros Hne. unfold extractor_accounted, parse_capital_calls.
  extractor_accounted_tac.
Qed.

Lemma parse_distributions_accounted (table : Table) (h : History) :
  table <> [] ->
  extractor_accounted fails (parse_distributions fails table fund_id) h.
Proof.
  intros Hne. unfold extractor_accounted, parse_distributions.
  extractor_accounted_tac.
Qed.

Lemma parse_adjustments_accounted (table : Table) (h : History) :
  table <> [] ->
  extractor_accounted fails (parse_adjustments fails table fund_id) h.
Proof.
  intros Hne. unfold extractor_accounted, parse_adjustments.
  extractor_accounted_tac.
Qed.

Lemma tables_loop_counts (tables : list Table) :
  forall idx stats h,
    exists stats' evs,
      tables_loop fails fund_id idx tables stats h = (Ok stats', h ++ evs)
      /\ records stats' + List.length (filter is_print evs)
         <= records stats + List.length (filter is_db_add evs)
      /\ ((forall h', fails h' db_commit = None) ->
          records stats' + List.length (filter is_print evs)
          = records stats + List.length (filter is_db_add evs))
      /\ ((forall h' t, fails h' (db_add t) = None) ->
          filter is_print evs = []).
Proof.
  induction tables as [|table tables IH]; intros idx stats h;
    cbn [tables_loop].
  - exists stats, []. rewrite app_nil_r. simpl. auto.
  - destruct (negb (nonempty table) || (List.length table <? 2)) eqn:E;
      [apply IH|].
    apply orb_false_iff in E as [E _]. apply nonempty_true in E.
    assert (Hnext : forall n evs1 s1,
               accounted fails n evs1 ->
               records s1 = records stats + n
               \/ (records s1 = records stats
                   /\ ~ (forall h', fails h' db_commit = None)) ->
               exists stats' evs,
                 tables_loop fails fund_id (S idx) tables s1 (h ++ evs1)
                 = (Ok stats', h ++ evs)
                 /\ records stats' + List.length (filter is_print evs)
                    <= records stats + List.length (filter is_db_add evs)
                 /\ ((forall h', fails h' db_commit = None) ->
                     records stats' + List.length (filter is_print evs)
                     = records stats + List.length (filter is_db_add evs))
                 /\ ((forall h' t, fails h' (db_add t) = None) ->
                     filter is_print evs = [])).
    { intros n evs1 s1 [Hb Hp] Hs.
      destruct (IH (S idx) s1 (h ++ evs1)) as (s' & evs & E' & Hle & Heq & Hnp).
      exists s', (evs1 ++ evs). rewrite app_assoc.
      split; [exact E'|]. rewrite !filter_app, !length_app.
      split; [destruct Hs as [Hs|[Hs _]]; lia|]. split.
      - intros Hc. specialize (Heq Hc).
        destruct Hs as [Hs|[_ Hs]]; [lia|now destruct Hs].
      - intros Ha. now rewrite (Hp Ha), (Hnp Ha). }
    unfold bind, try_except, ret, parse_one_table.
    destruct (classify_table table) as [[| |]|]; unfold bind, ret.
    + destruct (parse_capital_calls_accounted table h E)
        as (n & evs & r & -> & Hacc & [-> | [[e ->] Hnc]]);
        apply (Hnext n); auto; left; unfold records; simpl; lia.
    + destruct (parse_distributions_accounted table h E)
        as (n & evs & r & -> & Hacc & [-> | [[e ->] Hnc]]);
        apply (Hnext n); auto; left; unfold records; simpl; lia.
    + destruct (parse_adjustments_accounted table h E)
        as (n & evs & r & -> & Hacc & [-> | [[e ->] Hnc]]);
        apply (Hnext n); auto; left; unfold records; simpl; lia.
    + specialize (Hnext 0 [] stats accounted_nil).
      rewrite app_nil_r in Hnext. apply Hnext. left. lia.
Qed.

(** X18.  Every [db.add] call of table parsing is accounted for: the
    records the statistics report and the row errors printed never
    outnumber the [db.add] calls made, and match them one for one when no
    commit raises (the rows added for a table whose commit raises are not
    counted); a row error is printed only when [db.add] itself raises, so
    no string a cell holds can cause one. *)
Theorem parse_tables_accounts_for_adds (tables : list Table) (h : History) :
  exists stats evs,
    parse_tables fails tables fund_id h = (Ok stats, h ++ evs)
    /\ records stats + List.length (filter is_print evs)
       <= List.length (filter is_db_add evs)
    /\ ((forall h', fails h' db_commit = None) ->
        records stats + List.length (filter is_print evs)
        = List.length (filter is_db_add evs))
    /\ ((forall h' t, fails h' (db_add t) = None) ->
        filter is_print evs = []).
Proof. unfold parse_tables. apply tables_loop_counts. Qed.

End Counting.
